(** * TddPy: node table, structural operations, layout and tensor import

    A shallow embedding of [tdd/node.py] and [tdd/tdd.py].

    - Python objects with identity (Node instances, the lists holding an
      index order) live in stores and are referred to by address; [None]
      is the absent reference.
    - [Node.__unique_table] is a finite map from keys to node addresses,
      [Node.global_node_id] a counter; both are part of the state that
      every operation threads.
    - torch tensors are a shape with row-major data and the identity of the
      storage they were allocated in; views share the storage of their base.
    - floating point numbers are an abstract carrier with the operations
      the code applies to them; the rational numbers give a concrete
      instance on which the functions can be run. *)

From Stdlib Require Import ZArith QArith Qround List Lia.
From Stdlib Require DecimalString.
From stdpp Require Import base option list gmap strings.

Local Open Scope Z_scope.
Local Open Scope string_scope.
Local Open Scope list_scope.

(** ** Floating point carrier *)

(** The operations on Python floats and torch scalars that the code uses.
    [EPS] is [Node.EPS]; [round_long x] is [torch.round(x).long()];
    [round2 x] is Python's [round(x, 2)]. *)
Class FloatOps (R : Type) := {
  f0 : R;
  f1 : R;
  fadd : R -> R -> R;
  fsub : R -> R -> R;
  fmul : R -> R -> R;
  fdiv : R -> R -> R;
  EPS : R;
  round_long : R -> Z;
  round2 : R -> R
}.

(** Rounding of a rational to the nearest integer, ties to even. *)
Definition Qround_half_even (q : Q) : Z :=
  let fl := Qfloor q in
  let r := Qminus q (inject_Z fl) in
  match Qcompare r (1 # 2) with
  | Lt => fl
  | Gt => fl + 1
  | Eq => if Z.even fl then fl else fl + 1
  end.

#[export] Instance Q_FloatOps : FloatOps Q := {
  f0 := 0%Q;
  f1 := 1%Q;
  fadd := fun a b => Qred (Qplus a b);
  fsub := fun a b => Qred (Qminus a b);
  fmul := fun a b => Qred (Qmult a b);
  fdiv := fun a b => Qred (Qdiv a b);
  EPS := (1 # 1000000)%Q;
  round_long := Qround_half_even;
  round2 := fun a => Qred (Qmake (Qround_half_even (Qmult a (100 # 1))) 100)
}.

(** ** Outcomes and the state-and-exception monad *)

(** The exceptions the modelled code can end in.  [InvalidInput] is the
    [Exception('The number of indices must match that provided by
    tensor.')] of [TDD.as_tensor]; the others are raised by Python
    indexing and by torch. *)
Inductive Exn := InvalidInput | IndexError | RuntimeError.

(** Ways a run yields no value: a raised exception; the recursion bound of
    the model reached; a reference to no object (which Python rules out). *)
Inductive Failure := Raised (e : Exn) | OutOfFuel | Dangling.

Inductive Outcome (A : Type) :=
| Ret (a : A)
| Fail (f : Failure).
Arguments Ret {A} a.
Arguments Fail {A} f.
Abbreviation Raise e := (Fail (Raised e)).

Definition M (St A : Type) : Type := St -> Outcome A * St.

Definition ret {St A} (a : A) : M St A := fun s => (Ret a, s).
Definition fail {St A} (f : Failure) : M St A := fun s => (Fail f, s).
Definition bind {St A B} (c : M St A) (k : A -> M St B) : M St B :=
  fun s => match c s with
           | (Ret a, s') => k a s'
           | (Fail f, s') => (Fail f, s')
           end.
Definition get_state {St} : M St St := fun s => (Ret s, s).
Definition lift {St A} (o : Outcome A) : M St A := fun s => (o, s).

Notation "x <~ c ;; k" := (bind c (fun x => k))
  (at level 100, c at next level, right associativity).
Notation "c ;;; k" := (bind c (fun _ => k))
  (at level 100, right associativity).

(** A list comprehension / for loop that collects results, left to right. *)
Fixpoint mapM_ {St A B} (f : A -> M St B) (l : list A) : M St (list B) :=
  match l with
  | [] => ret []
  | x :: l' => y <~ f x ;; ys <~ mapM_ f l' ;; ret (y :: ys)
  end.

Definition of_option {A} (e : Exn) (o : option A) : Outcome A :=
  match o with Some a => Ret a | None => Raise e end.

(** ** Python built-ins *)

(** [l[i]] for a Python list and integer, negative indices counting from
    the end. *)
Definition py_getitem {A} (l : list A) (i : Z) : Outcome A :=
  let n := Z.of_nat (length l) in
  if decide (0 <= i < n) then of_option IndexError (l !! Z.to_nat i)
  else if decide (- n <= i < 0) then of_option IndexError (l !! Z.to_nat (n + i))
  else Raise IndexError.

(** [list(range(n))]. *)
Definition py_range (n : nat) : list Z := Z.of_nat <$> seq 0 n.

(** [str(i)] for an integer. *)
Definition py_str_int (i : Z) : string := DecimalString.NilZero.string_of_int (Z.to_int i).

(** [l[a:-1]] for a list. *)
Definition py_slice_to_last {A} (a : nat) (l : list A) : list A :=
  drop a (take (length l - 1) l).

(** ** Tensors *)

Definition numel (sh : list nat) : nat := foldr Nat.mul 1%nat sh.

(** A tensor: the storage it lives in, its shape, and its elements in
    row-major order.  Tensors carry no strides: every tensor of the model
    is contiguous, and what torch does on a tensor that is not (a
    transposed view, say) is outside the model. *)
Record Tensor (R : Type) := mkTensor {
  storage : nat;
  shape : list nat;
  data : list R
}.
Arguments mkTensor {R} _ _ _.
Arguments storage {R} _.
Arguments shape {R} _.
Arguments data {R} _.

(** [n] consecutive blocks of [m] elements. *)
Fixpoint chunks {A} (n m : nat) (l : list A) : list (list A) :=
  match n with
  | O => []
  | S n' => take m l :: chunks n' m (drop m l)
  end.

(** Elements [start .. start+len) along axis [dim]. *)
Definition narrow_data {A} (sh : list nat) (dim start len : nat) (d : list A) : list A :=
  let inner := numel (drop (S dim) sh) in
  let size := default 0%nat (sh !! dim) in
  let outer := numel (take dim sh) in
  concat ((fun c => take (len * inner) (drop (start * inner) c)) <$>
          chunks outer (size * inner) d).

Definition narrow {R} (t : Tensor R) (dim start len : nat) : Tensor R :=
  mkTensor (storage t)
           (take dim (shape t) ++ Nat.min len (default 0%nat (shape t !! dim) - start)
                                   :: drop (S dim) (shape t))
           (narrow_data (shape t) dim start len (data t)).

(** A dimension argument of torch, negative values counting from the end. *)
Definition wrap_dim (ndim : nat) (d : Z) : option nat :=
  let n := Z.of_nat ndim in
  if decide (0 <= d < n) then Some (Z.to_nat d)
  else if decide (- n <= d < 0) then Some (Z.to_nat (n + d))
  else None.

(** [t[k]] for [0 <= k]: a view on the same storage. *)
Definition tensor_getitem {R} (t : Tensor R) (k : nat) : Outcome (Tensor R) :=
  match shape t with
  | [] => Raise IndexError
  | n :: sh =>
      if decide (k < n)%nat
      then Ret (mkTensor (storage t) sh (take (numel sh) (drop (k * numel sh) (data t))))
      else Raise IndexError
  end.

(** [t.item()]. *)
Definition tensor_item {R} (t : Tensor R) : Outcome R :=
  match data t with
  | [x] => Ret x
  | _ => Raise RuntimeError
  end.

(** [t.view(sh)] on a contiguous tensor. *)
Definition tensor_view {R} (t : Tensor R) (sh : list nat) : Outcome (Tensor R) :=
  if decide (numel sh = numel (shape t))
  then Ret (mkTensor (storage t) sh (data t))
  else Raise RuntimeError.

Fixpoint broadcast_data {A} (src tgt : list nat) (d : list A) : option (list A) :=
  match src, tgt with
  | [], [] => Some d
  | s :: ss, t :: ts =>
      if decide (s = t) then
        (fun rs => concat rs) <$> mapM (broadcast_data ss ts) (chunks s (numel ss) d)
      else if decide (s = 1%nat) then
        (fun r => concat (replicate t r)) <$> broadcast_data ss ts d
      else None
  | _, _ => None
  end.

(** [t.broadcast_to(sh)]: a view on the same storage. *)
Definition tensor_broadcast_to {R} (t : Tensor R) (sh : list nat) : Outcome (Tensor R) :=
  if decide (length (shape t) <= length sh)%nat then
    match broadcast_data (replicate (length sh - length (shape t)) 1%nat ++ shape t)
                         sh (data t) with
    | Some d => Ret (mkTensor (storage t) sh d)
    | None => Raise RuntimeError
    end
  else Raise RuntimeError.

(** [t.split(1, dim)]: one-wide views along [dim]; a single empty view
    when the axis has length 0. *)
Definition tensor_split1 {R} (t : Tensor R) (dim : Z) : Outcome (list (Tensor R)) :=
  match wrap_dim (length (shape t)) dim with
  | None => Raise IndexError
  | Some d =>
      let n := default 0%nat (shape t !! d) in
      Ret ((fun k => narrow t d k 1) <$> seq 0 (Nat.max n 1))
  end.

(** [t[..., 0:1, :]]. *)
Definition tensor_slice_second_last {R} (t : Tensor R) : Outcome (Tensor R) :=
  if decide (2 <= length (shape t))%nat
  then Ret (narrow t (length (shape t) - 2) 0 1)
  else Raise IndexError.

(** ** Nodes and the unique table *)

(** The address of a Node object; [option addr] is a [Node|None]
    reference. *)
Abbreviation addr := nat.

Definition TERMINAL_ID : Z := -1.

(** The fields of a Node object ([node_id] is the field [id]). *)
Record Node (R : Type) := mkNode {
  node_id : Z;
  order : Z;
  out_weights : Tensor R;
  successors : list (option addr)
}.
Arguments mkNode {R} _ _ _ _.
Arguments node_id {R} _.
Arguments order {R} _.
Arguments out_weights {R} _.
Arguments successors {R} _.

(** An element of a key tuple: a Python int, or a [Node|None] reference,
    which Python compares and hashes by identity. *)
Inductive KeyElem := KInt (z : Z) | KRef (r : option addr).

#[export] Instance KeyElem_eq_dec : EqDecision KeyElem.
Proof. solve_decision. Defined.

#[export] Instance KeyElem_countable : Countable KeyElem.
Proof.
  refine (inj_countable'
            (fun k => match k with KInt z => inl z | KRef r => inr r end)
            (fun x => match x with inl z => KInt z | inr r => KRef r end) _).
  by intros [].
Defined.

(** The state of the process: every Node object by address, the class
    attributes [Node.__unique_table] and [Node.global_node_id], the Python
    list objects that hold index orders, and the number of tensor storages
    allocated so far. *)
Record State (R : Type) := mkState {
  nodes : list (Node R);
  unique_table : gmap (list KeyElem) addr;
  global_node_id : Z;
  lists : list (list Z);
  next_storage : nat
}.
Arguments mkState {R} _ _ _ _ _.
Arguments nodes {R} _.
Arguments unique_table {R} _.
Arguments global_node_id {R} _.
Arguments lists {R} _.
Arguments next_storage {R} _.

(** The state of a fresh process. *)
Definition initial_state {R} : State R := mkState [] ∅ 0 [] 0.

Section NodeOps.
Context {R : Type} `{!FloatOps R}.

(** [Node.get_int_key_long], read through [.view(-1).tolist()]. *)
Definition get_int_key_long (weight : Tensor R) : list Z :=
  (fun x => round_long (fdiv x EPS)) <$> data weight.

Definition get_int_key := get_int_key_long.

(** [Node.reset]. *)
Definition reset : M (State R) unit := fun s =>
  (Ret tt, mkState (nodes s) ∅ 0 (lists s) (next_storage s)).

Definition index_range (n : Node R) : nat := length (successors n).

(** [Node.get_unique_key].  On the contiguous tensors of the model
    [.view(-1)] always succeeds; on a tensor that is not contiguous torch
    raises [RuntimeError] there, so that what is stated of a call that
    builds a key is stated of calls on contiguous weights. *)
Definition get_unique_key (order : Z) (out_weights : Tensor R)
           (succ_nodes : list (option addr)) : list KeyElem :=
  [KInt order] ++ (KInt <$> get_int_key out_weights) ++ (KRef <$> succ_nodes).

(** The property [Node.unique_key]. *)
Definition unique_key (n : Node R) : list KeyElem :=
  get_unique_key (order n) (out_weights n) (successors n).

(** [t.clone()]: the same elements in a storage of their own. *)
Definition tensor_clone (t : Tensor R) : M (State R) (Tensor R) := fun s =>
  (Ret (mkTensor (next_storage s) (shape t) (data t)),
   mkState (nodes s) (unique_table s) (global_node_id s) (lists s) (S (next_storage s))).

(** Dereference of a Node reference. *)
Definition get_node (a : addr) : M (State R) (Node R) := fun s =>
  match nodes s !! a with
  | Some n => (Ret n, s)
  | None => (Fail Dangling, s)
  end.

(** [Node.get_unique_node]. *)
Definition get_unique_node (order : Z) (out_weights : Tensor R)
           (succ_nodes : list (option addr)) : M (State R) addr :=
  let temp_key := get_unique_key order out_weights succ_nodes in
  s <~ get_state ;;
  match unique_table s !! temp_key with
  | Some res => ret res
  | None =>
      let id := global_node_id s + 1 in
      let successors := succ_nodes in
      w <~ tensor_clone out_weights ;;
      fun s' =>
        let res := length (nodes s') in
        (Ret res,
         mkState (nodes s' ++ [mkNode id order w successors])
                 (<[temp_key := res]> (unique_table s'))
                 id (lists s') (next_storage s'))
  end.

(** [Node.duplicate]. *)
Fixpoint duplicate (fuel : nat) (node : option addr) (parallel_shape : list nat)
         (init_order : Z) (extra_shape_ahead extra_shape_behind : list nat)
  : M (State R) (option addr) :=
  match fuel with
  | O => fail OutOfFuel
  | S fuel' =>
      match node with
      | None => ret None
      | Some a =>
          n <~ get_node a ;;
          let order := order n + init_order in
          weights <~ lift (tensor_view (out_weights n)
                     ([index_range n] ++ replicate (length extra_shape_ahead) 1%nat
                      ++ parallel_shape ++ replicate (length extra_shape_behind) 1%nat
                      ++ [2%nat])) ;;
          weights <~ lift (tensor_broadcast_to weights
                     ([index_range n] ++ extra_shape_ahead ++ parallel_shape
                      ++ extra_shape_behind ++ [2%nat])) ;;
          successors <~ mapM_ (fun successor =>
                          duplicate fuel' successor parallel_shape init_order
                                    extra_shape_ahead [])
                        (successors n) ;;
          r <~ get_unique_node order weights successors ;;
          ret (Some r)
      end
  end.

(** [Node.__direct_append]. *)
Fixpoint direct_append (fuel : nat) (a b : option addr) : M (State R) (option addr) :=
  match fuel with
  | O => fail OutOfFuel
  | S fuel' =>
      match a with
      | None => ret b
      | Some x =>
          n <~ get_node x ;;
          new_successors <~ mapM_ (fun succ => direct_append fuel' succ b)
                                  (successors n) ;;
          r <~ get_unique_node (order n) (out_weights n) new_successors ;;
          ret (Some r)
      end
  end.

(** [Node.append]. *)
Definition append (fuel : nat) (a : option addr) (parallel_shape_a : list nat)
           (depth : Z) (b : option addr) (parallel_shape_b : list nat)
           (parallel_tensor : bool) : M (State R) (option addr) :=
  if negb parallel_tensor then
    modifided_node <~ duplicate fuel b parallel_shape_b depth [] [] ;;
    direct_append fuel a modifided_node
  else
    b_node_broadcasted <~ duplicate fuel b parallel_shape_b depth parallel_shape_a [] ;;
    a_node_broadcasted <~ duplicate fuel a parallel_shape_a 0 [] parallel_shape_b ;;
    direct_append fuel a_node_broadcasted b_node_broadcasted.

End NodeOps.

Arguments get_unique_key : simpl never.
Arguments get_unique_node : simpl never.

(** ** Layout ([Node.layout]) *)

(** The label of an edge: [LComplex re im] is the text
    [str(complex(re, im))], [LTensor t] the text [str(CUDAcpl2np(t))],
    [LShape l] the text [str(list(l))]. *)
Inductive EdgeLabel (R : Type) :=
| LComplex (re im : R)
| LTensor (t : Tensor R)
| LShape (l : list nat).
Arguments LComplex {R} _ _.
Arguments LTensor {R} _.
Arguments LShape {R} _.

(** A statement in the body of a graphviz [Digraph]: [dot.node(name,
    label, fontname=.., shape=.., color=..)] or [dot.edge(tail, head,
    color=.., label=..)]. *)
Inductive Stmt (R : Type) :=
| Vertex (name label fontname shape color : string)
| Edge (tail head color : string) (label : EdgeLabel R).
Arguments Vertex {R} _ _ _ _ _.
Arguments Edge {R} _ _ _ _.

(** The two mutable objects [layout] works on: the body of the [Digraph]
    [dot], and the list [succ] of the references already laid out. *)
Record LState (R : Type) := mkLState {
  dot : list (Stmt R);
  succ : list (option addr)
}.
Arguments mkLState {R} _ _.
Arguments dot {R} _.
Arguments succ {R} _.

Definition is_vertex {R} (st : Stmt R) : bool :=
  match st with Vertex _ _ _ _ _ => true | Edge _ _ _ _ => false end.
Definition is_edge {R} (st : Stmt R) : bool :=
  match st with Vertex _ _ _ _ _ => false | Edge _ _ _ _ => true end.
Definition vertices {R} (body : list (Stmt R)) : list (Stmt R) := List.filter is_vertex body.
Definition edges {R} (body : list (Stmt R)) : list (Stmt R) := List.filter is_edge body.

Section Layout.
Context {R : Type} `{!FloatOps R}.

Definition dot_node (name label : string) : M (LState R) unit := fun l =>
  (Ret tt, mkLState (dot l ++ [Vertex name label "helvetica" "circle" "red"]) (succ l)).

Definition dot_edge (tail head color : string) (label : EdgeLabel R)
  : M (LState R) unit := fun l =>
  (Ret tt, mkLState (dot l ++ [Edge tail head color label]) (succ l)).

Definition succ_append (r : option addr) : M (LState R) unit := fun l =>
  (Ret tt, mkLState (dot l) (succ l ++ [r])).

(** A Node object read from the (unchanged) state of the nodes. *)
Definition node_at {St} (s : State R) (a : addr) : M St (Node R) :=
  lift (match nodes s !! a with Some n => Ret n | None => Fail Dangling end).

(** The attribute [imag] of a Python float. *)
Definition py_float_imag (x : R) : R := f0.

Definition col : list string := ["red"; "blue"; "black"; "green"].

(** The label [label1] of the edge of branch [k]. *)
Definition edge_label (n : Node R) (k : nat) (parallel_shape : list nat)
           (full_output : bool) : Outcome (EdgeLabel R) :=
  match tensor_getitem (out_weights n) 0 with
  | Fail f => Fail f
  | Ret w0 =>
      if decide (shape w0 = [2%nat]) then
        match tensor_getitem (out_weights n) k with
        | Fail f => Fail f
        | Ret wk =>
            match tensor_getitem wk 0 with
            | Fail f => Fail f
            | Ret t_re =>
                match tensor_item t_re with
                | Fail f => Fail f
                | Ret re =>
                    match tensor_getitem wk 1 with
                    | Fail f => Fail f
                    | Ret t_im =>
                        match tensor_item t_im with
                        | Fail f => Fail f
                        | Ret im => Ret (LComplex (round2 re) (round2 (py_float_imag im)))
                        end
                    end
                end
            end
        end
      else if full_output then
        match tensor_getitem (out_weights n) k with
        | Fail f => Fail f
        | Ret wk => Ret (LTensor wk)
        end
      else Ret (LShape parallel_shape)
  end.

(** [Node.layout], on the objects [dot] and [succ] of the state. *)
Fixpoint layout (fuel : nat) (s : State R) (node : option addr)
         (parallel_shape : list nat) (index_order : list Z)
         (real_label full_output : bool) : M (LState R) unit :=
  match fuel with
  | O => fail OutOfFuel
  | S fuel' =>
      names <~ match node with
               | None => ret (py_str_int TERMINAL_ID, py_str_int 1)
               | Some a =>
                   n <~ node_at s a ;;
                   i <~ lift (py_getitem index_order (order n)) ;;
                   ret (py_str_int (node_id n), "i" +:+ py_str_int i)
               end ;;
      (if real_label then dot_node names.1 names.2 else dot_node names.1 names.2) ;;;
      match node with
      | None => ret tt
      | Some a =>
          n <~ node_at s a ;;
          mapM_ (fun k =>
                   label1 <~ lift (edge_label n k parallel_shape full_output) ;;
                   temp <~ lift (py_getitem (successors n) (Z.of_nat k)) ;;
                   id_str <~ match temp with
                             | None => ret (py_str_int TERMINAL_ID)
                             | Some b => m <~ node_at s b ;; ret (py_str_int (node_id m))
                             end ;;
                   c <~ lift (py_getitem col (Z.of_nat k mod 4)) ;;
                   l <~ get_state ;;
                   if negb (bool_decide (temp ∈ succ l)) then
                     layout fuel' s temp parallel_shape index_order real_label full_output ;;;
                     dot_edge (py_str_int (node_id n)) id_str c label1 ;;;
                     succ_append temp
                   else
                     dot_edge (py_str_int (node_id n)) id_str c label1)
                (seq 0 (index_range n)) ;;;
          ret tt
      end
  end.

End Layout.

(** ** The tensor facade ([tdd.py]) *)

(** The fields of a TDD object.  [index_order] is a reference to a Python
    list object in the store [lists]; [data_shape] is always a list built
    by the constructor's caller for this object alone and is kept by
    value. *)
Record TDD (R : Type) := mkTDD {
  weights : Tensor R;
  data_shape : list nat;
  node : option addr;
  index_order : addr
}.
Arguments mkTDD {R} _ _ _ _.
Arguments weights {R} _.
Arguments data_shape {R} _.
Arguments node {R} _.
Arguments index_order {R} _.

(** The tensor argument of [as_tensor]: a torch tensor in paired-real
    form, or a numpy array of complex numbers. *)
Inductive Array (R : Type) :=
| TorchTensor (t : Tensor R)
| NumpyArray (sh : list nat) (d : list (R * R)).
Arguments TorchTensor {R} _.
Arguments NumpyArray {R} _ _.

(** The argument [data] of [as_tensor]: a tensor alone, or the tuple
    [(tensor, parallel_shape, index_order)], whose last component is a
    reference to a list object.  [parallel_shape] is only read by the
    code ([len], slicing bounds, [parallel_shape + [2]]) and is kept by
    value. *)
Inductive Data (R : Type) :=
| Bare (a : Array R)
| Triple (a : Array R) (parallel_shape : list nat) (index_order : addr).
Arguments Bare {R} _.
Arguments Triple {R} _ _ _.

(** The policy of [weighted_node.normalized] that the specification leaves
    open, as functions of the shape and elements of a raw node's
    [out_weights] and of the variant flag.  [norm_divisor] gives the
    elements of the complex factor (one per batch instance, in paired-real
    form) that is divided out of every branch.  [norm_degenerate] decides
    the degenerate case (all branch weights zero, or whatever the policy
    treats as such): [Some d] when no node is registered and the terminal
    is returned under a weight with the elements [d], [None] when the node
    is registered. *)
Class NormPolicy (R : Type) := {
  norm_divisor : list nat -> list R -> bool -> list R;
  norm_degenerate : list nat -> list R -> bool -> option (list R)
}.

Section Facade.
Context {R : Type} `{!FloatOps R} `{!NormPolicy R}.

(** Allocation of a Python list object. *)
Definition alloc_list (l : list Z) : M (State R) addr := fun s =>
  (Ret (length (lists s)),
   mkState (nodes s) (unique_table s) (global_node_id s) (lists s ++ [l]) (next_storage s)).

(** The content of a list object. *)
Definition read_list (a : addr) : M (State R) (list Z) := fun s =>
  match lists s !! a with
  | Some l => (Ret l, s)
  | None => (Fail Dangling, s)
  end.

(** A tensor built by torch in a storage of its own. *)
Definition new_tensor (sh : list nat) (d : list R) : M (State R) (Tensor R) := fun s =>
  (Ret (mkTensor (next_storage s) sh d),
   mkState (nodes s) (unique_table s) (global_node_id s) (lists s) (S (next_storage s))).

(** [torch.stack(ts)]. *)
Definition tensor_stack (ts : list (Tensor R)) : M (State R) (Tensor R) :=
  match ts with
  | [] => fail (Raised RuntimeError)
  | t :: ts' =>
      if forallb (fun u => bool_decide (shape u = shape t)) ts'
      then new_tensor (length ts :: shape t) (concat (data <$> ts))
      else fail (Raised RuntimeError)
  end.

(** Modelled from the spec: [CUDAcpl.np2CUDAcpl], the conversion of a
    complex array to paired-real form (one trailing axis of length 2
    holding the real and the imaginary part). *)
Definition np2CUDAcpl (sh : list nat) (d : list (R * R)) : M (State R) (Tensor R) :=
  new_tensor (sh ++ [2%nat]) (concat ((fun c => [c.1; c.2]) <$> d)).

(** Modelled from the spec: [CUDAcpl.ones], the paired-real constant of
    the complex number 1 over a batch shape. *)
Definition CUDAcpl_ones (sh : list nat) : M (State R) (Tensor R) :=
  new_tensor (sh ++ [2%nat]) (concat (replicate (numel sh) [f1; f0])).

(** Complex product and quotient of paired-real element lists. *)
Fixpoint cmul_data (a b : list R) : list R :=
  match a, b with
  | ar :: ai :: a', br :: bi :: b' =>
      fsub (fmul ar br) (fmul ai bi) :: fadd (fmul ar bi) (fmul ai br) :: cmul_data a' b'
  | _, _ => []
  end.

Fixpoint cdiv_data (a b : list R) : list R :=
  match a, b with
  | ar :: ai :: a', br :: bi :: b' =>
      let m := fadd (fmul br br) (fmul bi bi) in
      fdiv (fadd (fmul ar br) (fmul ai bi)) m
        :: fdiv (fsub (fmul ai br) (fmul ar bi)) m :: cdiv_data a' b'
  | _, _ => []
  end.

(** Modelled from the spec: [weighted_node.normalized].  A factor is
    divided out of every branch of the raw node's [out_weights], the
    dangling weight is multiplied by that factor, and only then the
    node is registered through [get_unique_node].  Which factor is
    the policy [norm_divisor].  In the degenerate case, which the policy
    [norm_degenerate] singles out, nothing is registered and the terminal
    is returned under the weight the policy gives. *)
Definition normalized (raw_node : Node R) (dangle_weight : Tensor R) (flag : bool)
  : M (State R) (option addr * Tensor R) :=
  let w := out_weights raw_node in
  match norm_degenerate (shape w) (data w) flag with
  | Some d =>
      new_weight <~ new_tensor (shape dangle_weight) d ;;
      ret (None, new_weight)
  | None =>
      let factor := norm_divisor (shape w) (data w) flag in
      let branch := numel (drop 1 (shape w)) in
      reduced <~ new_tensor (shape w)
                 (concat ((fun c => cdiv_data c factor)
                            <$> chunks (default 0%nat (shape w !! 0%nat)) branch (data w))) ;;
      new_weight <~ new_tensor (shape dangle_weight)
                               (cmul_data (data dangle_weight) factor) ;;
      r <~ get_unique_node (order raw_node) reduced (successors raw_node) ;;
      ret (Some r, new_weight)
  end.

(** [TDD.__as_tensor_iterate]. *)
Fixpoint as_tensor_iterate (fuel : nat) (tensor : Tensor R) (parallel_shape : list nat)
         (index_order : addr) (depth : nat) : M (State R) (TDD R) :=
  match fuel with
  | O => fail OutOfFuel
  | S fuel' =>
      let data_shape := py_slice_to_last (length parallel_shape) (shape tensor) in
      io <~ read_list index_order ;;
      index_order <~ (if decide (io = []) then alloc_list (py_range (length data_shape))
                      else ret index_order) ;;
      if decide (depth = length data_shape) then
        weights <~ (if decide (length data_shape = 0%nat) then tensor_clone tensor
                    else
                      t1 <~ lift (tensor_slice_second_last tensor) ;;
                      t2 <~ tensor_clone t1 ;;
                      lift (tensor_view t2 (parallel_shape ++ [2%nat]))) ;;
        e <~ alloc_list [] ;;
        ret (mkTDD weights [] None e)
      else
        io <~ read_list index_order ;;
        split_pos <~ lift (py_getitem io (Z.of_nat depth)) ;;
        split_tensor <~ lift (tensor_split1 tensor
                                (- Z.of_nat (length data_shape) + split_pos - 1)) ;;
        n <~ lift (py_getitem data_shape split_pos) ;;
        the_successors <~ mapM_ (fun k =>
                            t <~ lift (py_getitem split_tensor (Z.of_nat k)) ;;
                            as_tensor_iterate fuel' t parallel_shape index_order (depth + 1))
                          (seq 0 n) ;;
        let succ_nodes := node <$> the_successors in
        out_weights <~ tensor_stack (weights <$> the_successors) ;;
        let temp_node := mkNode 0 (Z.of_nat depth) out_weights succ_nodes in
        dangle_weights <~ CUDAcpl_ones (py_slice_to_last 1 (shape out_weights)) ;;
        nw <~ normalized temp_node dangle_weights false ;;
        e <~ alloc_list [] ;;
        ret (mkTDD nw.2 [] nw.1 e)
  end.

(** [TDD.as_tensor]. *)
Definition as_tensor (data : Data R) : M (State R) (TDD R) :=
  args <~ match data with
          | Triple tensor parallel_shape index_order =>
              ret (tensor, parallel_shape, index_order)
          | Bare tensor => e <~ alloc_list [] ;; ret (tensor, [], e)
          end ;;
  let parallel_shape := args.1.2 in
  let index_order := args.2 in
  tensor <~ match args.1.1 with
            | NumpyArray sh d => np2CUDAcpl sh d
            | TorchTensor t => ret t
            end ;;
  let data_shape := py_slice_to_last (length parallel_shape) (shape tensor) in
  io <~ read_list index_order ;;
  result_index_order <~ (if decide (io = []) then alloc_list (py_range (length data_shape))
                         else alloc_list io) ;;
  rio <~ read_list result_index_order ;;
  if decide (length data_shape ≠ length rio) then fail (Raised InvalidInput)
  else
    res <~ as_tensor_iterate (S (length data_shape)) tensor parallel_shape
                             result_index_order 0 ;;
    ret (mkTDD (weights res) data_shape (node res) result_index_order).

End Facade.

(** ** Notions used in the statements *)

(** From a state that satisfies [P], the run of [c] ends with a value and
    a state that satisfy [Q], or with a failure and a state that satisfy
    [F]. *)
Definition hoare {St A} (P : St -> Prop) (c : M St A)
           (Q : A -> St -> Prop) (F : Failure -> St -> Prop) : Prop :=
  forall s, P s ->
            match c s with
            | (Ret a, s') => Q a s'
            | (Fail f, s') => F f s'
            end.

Section Notions.
Context {R : Type} `{!FloatOps R}.

(** A sequence of node creations, each call given by its arguments. *)
Definition create_all (calls : list (Z * Tensor R * list (option addr)))
  : M (State R) (list addr) :=
  mapM_ (fun c => get_unique_node c.1.1 c.1.2 c.2) calls.

(** The diagram below [node] (within [fuel] levels) is registered: each
    of its nodes is the entry of the unique table under its own key and
    has weights of shape [[branch count] + parallel_shape + [2]]. *)
Fixpoint registered (fuel : nat) (s : State R) (parallel_shape : list nat)
         (node : option addr) : bool :=
  match fuel with
  | O => false
  | S fuel' =>
      match node with
      | None => true
      | Some a =>
          match nodes s !! a with
          | None => false
          | Some n =>
              bool_decide (shape (out_weights n)
                           = [index_range n] ++ parallel_shape ++ [2%nat])
              && bool_decide (length (data (out_weights n)) = numel (shape (out_weights n)))
              && bool_decide (unique_table s !! unique_key n = Some a)
              && forallb (registered fuel' s parallel_shape) (successors n)
          end
      end
  end.

(** [s'] is [s] after allocations only: the objects of [s] are kept as
    they are, and every Node object allocated since holds weights in a
    storage allocated since. *)
Definition extends (s s' : State R) : Prop :=
  (∃ ns, nodes s' = nodes s ++ ns
         ∧ Forall (fun n => next_storage s <= storage (out_weights n))%nat ns)
  ∧ (∃ ls, lists s' = lists s ++ ls)
  ∧ (next_storage s <= next_storage s')%nat.

(** An assignment [l[:] = v] to the list object at [a]. *)
Definition write_list (a : addr) (v : list Z) (s : State R) : State R :=
  mkState (nodes s) (unique_table s) (global_node_id s) (<[a := v]> (lists s))
          (next_storage s).

(** The tensor of an [Array] argument once it is in paired-real form,
    up to the storage it is in. *)
Definition array_shape (a : Array R) : list nat :=
  match a with
  | TorchTensor t => shape t
  | NumpyArray sh _ => sh ++ [2%nat]
  end.

(** The number of data axes of an import: the axes left after the batch
    axes and the trailing pair axis. *)
Definition data_axes (a : Array R) (parallel_shape : list nat) : nat :=
  length (py_slice_to_last (length parallel_shape) (array_shape a)).

End Notions.

(** ** Concrete inputs *)

(** A policy for running imports: the factor 1 for every batch instance,
    and every node registered. *)
#[export] Instance unit_policy : NormPolicy Q := {
  norm_divisor := fun sh _ _ => concat (replicate (numel (py_slice_to_last 1 sh)) [1%Q; 0%Q]);
  norm_degenerate := fun _ _ _ => None
}.

(** Two branches with the amplitudes [1+0j] and [0+1j], no batch shape. *)
Definition w_1_i : Tensor Q := mkTensor 0 [2; 2]%nat [1; 0; 0; 1]%Q.

(** The same up to a perturbation below [EPS / 2]. *)
Definition w_1_i' : Tensor Q := mkTensor 1 [2; 2]%nat [1; 2 # 10000000; 0; 1]%Q.

(** One branch of amplitude 1 under the batch shape [[3]], and under [[5]]. *)
Definition w_batch3 : Tensor Q := mkTensor 0 [1; 3; 2]%nat [1; 0; 1; 0; 1; 0]%Q.
Definition w_batch5 : Tensor Q :=
  mkTensor 1 [1; 5; 2]%nat [1; 0; 1; 0; 1; 0; 1; 0; 1; 0]%Q.

(** One node with two terminal successors and the weights [w_1_i]. *)
Definition st_one_node : State Q := (get_unique_node 0 w_1_i [None; None] initial_state).2.

(** A diagram of two levels under the batch shape [[3]] (the child at
    address 0, the root at address 1) and a diagram of one level under the
    batch shape [[5]] (address 2). *)
Definition st_two_levels : State Q :=
  (create_all [(1, w_batch3, [None]); (0, w_batch3, [Some 0%nat]); (0, w_batch5, [None])]
              initial_state).2.


(** A node created before a reset (address 0) that becomes the successor
    of a node created after it (address 1). *)
Definition st_stale_child : State Q :=
  ((c <~ get_unique_node 1 w_1_i [None; None] ;;
    reset ;;;
    get_unique_node 0 (mkTensor 0 [1; 2]%nat [1; 0]%Q) [Some c]) initial_state).2.

(** The identity matrix in paired-real form, in storage 0, with the list
    objects [[]] (address 0), [[0; 1]] (address 1) and [[1]] (address 2). *)
Definition identity_2x2 : Tensor Q :=
  mkTensor 0 [2; 2; 2]%nat [1; 0; 0; 0; 0; 0; 1; 0]%Q.
Definition st_import : State Q := mkState [] ∅ 0 [[]; [0; 1]; [1]] 1.

(** A vector of two entries, in paired-real form. *)
Definition vector_2 : Tensor Q := mkTensor 0 [2; 2]%nat [1; 0; 0; 1]%Q.

(** The complex number [1+0j] in paired-real form: a tensor without data
    axes. *)
Definition scalar_1 : Tensor Q := mkTensor 0 [2]%nat [1; 0]%Q.

(** A TDD of three data axes under the batch shape [[1; 3]], whose index
    order is the list object [[2; 0; 1]] (address 0). *)
Definition st_permuted : State Q := mkState [] ∅ 0 [[2; 0; 1]] 1.
Definition tdd_permuted : TDD Q := mkTDD w_batch3 [2; 3; 4]%nat None 0%nat.

(** ** Further functions of the source *)

(** [l[i] = x] for a Python list and integer, negative indices counting
    from the end. *)
Definition py_setitem {A} (l : list A) (i : Z) (x : A) : Outcome (list A) :=
  let n := Z.of_nat (length l) in
  if decide (0 <= i < n) then Ret (<[Z.to_nat i := x]> l)
  else if decide (- n <= i < 0) then Ret (<[Z.to_nat (n + i) := x]> l)
  else Raise IndexError.

(** [order_inverse]; the list [res] is the state of the loop. *)
Definition order_inverse (index_order : list Z) : Outcome (list Z) :=
  let res := replicate (length index_order) 0 in
  match mapM_ (fun i =>
                 v <~ lift (py_getitem index_order (Z.of_nat i)) ;;
                 fun res => match py_setitem res v (Z.of_nat i) with
                            | Ret res' => (Ret tt, res')
                            | Fail f => (Fail f, res)
                            end)
              (seq 0 (length index_order)) res with
  | (Ret _, res) => Ret res
  | (Fail f, _) => Fail f
  end.

Section FacadeMore.
Context {R : Type} `{!FloatOps R}.

(** The property [TDD.parallel_shape]: [list(self.weights.shape[:-1])]. *)
Definition TDD_parallel_shape (t : TDD R) : list nat :=
  take (length (shape (weights t)) - 1) (shape (weights t)).

(** The property [TDD.global_order]. *)
Definition TDD_global_order (t : TDD R) : M (State R) (list Z) :=
  let parallel_index_order := py_range (length (TDD_parallel_shape t)) in
  let increment := Z.of_nat (length (TDD_parallel_shape t)) in
  io <~ read_list (index_order t) ;;
  ret (parallel_index_order ++ ((fun order => order + increment) <$> io)).

(** [TDD.clone]. *)
Definition TDD_clone (t : TDD R) : M (State R) (TDD R) :=
  w <~ tensor_clone (weights t) ;;
  io <~ read_list (index_order t) ;;
  a <~ alloc_list io ;;
  ret (mkTDD w (data_shape t) (node t) a).

(** The list [trival_ordered_data_shape] that [TDD.CUDAcpl] computes
    first. *)
Definition trival_ordered_data_shape (t : TDD R) : M (State R) (list nat) :=
  io <~ read_list (index_order t) ;;
  inv <~ lift (order_inverse io) ;;
  mapM_ (fun i => lift (py_getitem (data_shape t) i)) inv.

(** ** Invariants of the state *)

(** The unique table is consistent: every entry leads to a Node object
    that is stored under its own key and has an id between 1 and the
    counter; entries with the same id are the same entry; the counter is
    the number of entries. *)
Definition table_ok (s : State R) : Prop :=
  (forall k a, unique_table s !! k = Some a ->
               exists n, nodes s !! a = Some n /\ unique_key n = k
                         /\ 1 <= node_id n <= global_node_id s)
  /\ (forall k1 k2 a1 a2 n1 n2,
         unique_table s !! k1 = Some a1 -> unique_table s !! k2 = Some a2 ->
         nodes s !! a1 = Some n1 -> nodes s !! a2 = Some n2 ->
         node_id n1 = node_id n2 -> k1 = k2)
  /\ Z.of_nat (size (unique_table s)) = global_node_id s.

(** The entries of the unique table of [s] are entries of [s']. *)
Definition table_kept (s s' : State R) : Prop :=
  forall k a, unique_table s !! k = Some a -> unique_table s' !! k = Some a.

(** Every node of the diagram below [node] (within [fuel] levels) is the
    entry of the unique table under its own key. *)
Fixpoint interned (fuel : nat) (s : State R) (node : option addr) : bool :=
  match fuel with
  | O => false
  | S fuel' =>
      match node with
      | None => true
      | Some a =>
          match nodes s !! a with
          | None => false
          | Some n =>
              bool_decide (unique_table s !! unique_key n = Some a)
              && forallb (interned fuel' s) (successors n)
          end
      end
  end.

(** The diagram below [node] (within [fuel] levels) is layered along
    [index_order]: a node [depth] levels below the root has the order
    [depth] and as many successors as the data axis [index_order[depth]]
    is long.  With [strict], the terminal reference appears exactly
    [len(data_shape)] levels below the root; without, it may stand at any
    level. *)
Fixpoint layered (strict : bool) (fuel : nat) (s : State R) (index_order : list Z)
         (data_shape : list nat) (depth : nat) (node : option addr) : bool :=
  match fuel with
  | O => false
  | S fuel' =>
      match node with
      | None => negb strict || bool_decide (depth = length data_shape)
      | Some a =>
          match nodes s !! a, index_order !! depth with
          | Some n, Some v =>
              bool_decide (order n = Z.of_nat depth)
              && bool_decide (0 <= v
                              /\ data_shape !! Z.to_nat v = Some (length (successors n)))
              && forallb (layered strict fuel' s index_order data_shape (depth + 1))
                         (successors n)
          | _, _ => false
          end
      end
  end.

End FacadeMore.

(** A call of one of the operations that change the state, with its
    arguments. *)
Inductive Cmd (R : Type) :=
| CGetUniqueNode (order : Z) (out_weights : Tensor R) (succ_nodes : list (option addr))
| CReset
| CDuplicate (fuel : nat) (node : option addr) (parallel_shape : list nat)
             (init_order : Z) (extra_shape_ahead extra_shape_behind : list nat)
| CAppend (fuel : nat) (a : option addr) (parallel_shape_a : list nat) (depth : Z)
          (b : option addr) (parallel_shape_b : list nat) (parallel_tensor : bool)
| CAsTensor (data : Data R)
| CClone (t : TDD R).
Arguments CGetUniqueNode {R} _ _ _.
Arguments CReset {R}.
Arguments CDuplicate {R} _ _ _ _ _ _.
Arguments CAppend {R} _ _ _ _ _ _ _.
Arguments CAsTensor {R} _.
Arguments CClone {R} _.

Section Commands.
Context {R : Type} `{!FloatOps R} `{!NormPolicy R}.

(** The state after a call, whether it returns or raises. *)
Definition exec (s : State R) (c : Cmd R) : State R :=
  match c with
  | CGetUniqueNode o w succs => (get_unique_node o w succs s).2
  | CReset => (reset s).2
  | CDuplicate fuel node ps o ahead behind => (duplicate fuel node ps o ahead behind s).2
  | CAppend fuel a psa depth b psb pt => (append fuel a psa depth b psb pt s).2
  | CAsTensor data => (as_tensor data s).2
  | CClone t => (TDD_clone t s).2
  end.

End Commands.

(** * Properties *)

(** ** The monad *)

Lemma bind_ret_eq {St A B} (c : M St A) (k : A -> M St B) s a s' :
  c s = (Ret a, s') -> bind c k s = k a s'.
Proof. intros H. unfold bind. by rewrite H. Qed.

Lemma bind_ret_inv {St A B} (c : M St A) (k : A -> M St B) s b s'' :
  bind c k s = (Ret b, s'') -> exists a s', c s = (Ret a, s') /\ k a s' = (Ret b, s'').
Proof.
  unfold bind. destruct (c s) as [[a|f] s'] eqn:E; [eauto | discriminate].
Qed.

Lemma lift_ret_inv {St A} (o : Outcome A) (s s' : St) a :
  lift o s = (Ret a, s') -> o = Ret a /\ s' = s.
Proof. unfold lift. by intros [= -> ->]. Qed.


(** A loop whose body returns without changing the state collects the
    results of the body. *)
Lemma mapM__pure {St A B} (f : A -> M St B) (g : A -> B) (l : list A) s :
  Forall (fun x => f x s = (Ret (g x), s)) l ->
  mapM_ f l s = (Ret (g <$> l), s).
Proof.
  induction 1 as [|x l Hx _ IH]; [done|].
  cbn [mapM_]. rewrite (bind_ret_eq _ _ _ _ _ Hx), (bind_ret_eq _ _ _ _ _ IH). done.
Qed.

(** ** The unique table *)

Section NodeFacts.
Context {R : Type} `{!FloatOps R}.
Implicit Types (s : State R) (w : Tensor R) (succs : list (option addr)).

Lemma get_unique_node_found s o w succs a :
  unique_table s !! get_unique_key o w succs = Some a ->
  get_unique_node o w succs s = (Ret a, s).
Proof.
  intros H. unfold get_unique_node, bind, get_state. cbv beta iota. by rewrite H.
Qed.

Lemma get_unique_node_fresh s o w succs :
  unique_table s !! get_unique_key o w succs = None ->
  get_unique_node o w succs s =
    (Ret (length (nodes s)),
     mkState (nodes s ++ [mkNode (global_node_id s + 1) o
                                 (mkTensor (next_storage s) (shape w) (data w)) succs])
             (<[get_unique_key o w succs := length (nodes s)]> (unique_table s))
             (global_node_id s + 1) (lists s) (S (next_storage s))).
Proof.
  intros H. unfold get_unique_node, bind, get_state. cbv beta iota. by rewrite H.
Qed.

(** A creation call returns a node, which the table then holds under
    the key of the call; the counter moves by one exactly when the key
    was free. *)
Lemma get_unique_node_spec s o w succs :
  exists a s', get_unique_node o w succs s = (Ret a, s')
    /\ unique_table s' !! get_unique_key o w succs = Some a
    /\ (forall k b, unique_table s !! k = Some b -> unique_table s' !! k = Some b)
    /\ (is_Some (unique_table s !! get_unique_key o w succs) -> s' = s)
    /\ (unique_table s !! get_unique_key o w succs = None ->
        global_node_id s' = global_node_id s + 1).
Proof.
  destruct (unique_table s !! get_unique_key o w succs) as [a|] eqn:E.
  - exists a, s. rewrite (get_unique_node_found _ _ _ _ _ E). repeat split; eauto.
    discriminate.
  - eexists _, _. rewrite (get_unique_node_fresh _ _ _ _ E). split; [done|]. cbn.
    split; [by rewrite lookup_insert_eq|]. split.
    + intros k b Hk. rewrite lookup_insert_ne; [done|]. intros <-. congruence.
    + split; [by intros [? ?]|done].
Qed.

Lemma create_all_spec calls s :
  exists l s', create_all calls s = (Ret l, s')
    /\ (forall k b, unique_table s !! k = Some b -> unique_table s' !! k = Some b).
Proof.
  revert s. induction calls as [|c calls IH]; intros s.
  - exists [], s. done.
  - destruct (get_unique_node_spec s c.1.1 c.1.2 c.2) as (a & s1 & Hc & _ & Hmono & _).
    destruct (IH s1) as (l & s2 & Hl & Hmono').
    exists (a :: l), s2. split; [|by eauto].
    unfold create_all in *. cbn [mapM_].
    rewrite (bind_ret_eq _ _ _ _ _ Hc), (bind_ret_eq _ _ _ _ _ Hl). done.
Qed.

Lemma get_unique_key_int_key o w1 w2 succs :
  get_int_key w1 = get_int_key w2 ->
  get_unique_key o w1 succs = get_unique_key o w2 succs.
Proof. unfold get_unique_key. by intros ->. Qed.

(** C2: two calls to [get_unique_node] with the same order, weights
    that quantize to the same integer key, and the same successor
    references return the same Node object, whatever creations happen in
    between; the second call changes nothing, so the id counter is not
    incremented by it, and the first call increments it by one exactly
    when the key was not yet in the table. *)
Theorem get_unique_node_hash_consing s order w1 w2 succs between :
  get_int_key w1 = get_int_key w2 ->
  exists a s1 l s2,
    get_unique_node order w1 succs s = (Ret a, s1)
    /\ (is_Some (unique_table s !! get_unique_key order w1 succs) ->
        global_node_id s1 = global_node_id s)
    /\ (unique_table s !! get_unique_key order w1 succs = None ->
        global_node_id s1 = global_node_id s + 1)
    /\ create_all between s1 = (Ret l, s2)
    /\ get_unique_node order w2 succs s2 = (Ret a, s2).
Proof.
  intros Hk.
  destruct (get_unique_node_spec s order w1 succs) as (a & s1 & H1 & Hin & _ & Hsame & Hnew).
  destruct (create_all_spec between s1) as (l & s2 & Hl & Hmono).
  exists a, s1, l, s2. repeat split; try done.
  - intros Hs. by rewrite (Hsame Hs).
  - apply get_unique_node_found.
    rewrite <- (get_unique_key_int_key order w1 w2 succs Hk). by apply Hmono.
Qed.

(** C6: whatever nodes were created before, [reset] returns no value,
    empties the unique table, sets the id counter to 0 and changes
    nothing else; the node that the next call of [get_unique_node]
    returns is a new object with id 1. *)
Theorem reset_semantics s0 calls order w succs :
  let s := (create_all calls s0).2 in
  exists s', reset s = (Ret tt, s')
    /\ unique_table s' = ∅
    /\ global_node_id s' = 0
    /\ nodes s' = nodes s /\ lists s' = lists s /\ next_storage s' = next_storage s
    /\ exists a s'', get_unique_node order w succs s' = (Ret a, s'')
         /\ a = length (nodes s)
         /\ node_id <$> nodes s'' !! a = Some 1
         /\ global_node_id s'' = 1.
Proof.
  intros s. eexists. split; [reflexivity|]. cbn. repeat split.
  eexists _, _. split.
  - apply get_unique_node_fresh. cbn. apply lookup_empty.
  - cbn. repeat split. rewrite lookup_app_r by lia.
    by rewrite Nat.sub_diag.
Qed.

End NodeFacts.

(** The theorem of C2 on two weight tensors that differ below the
    tolerance, with one unrelated creation in between. *)
Lemma get_unique_node_hash_consing_witness :
  exists a s1 l s2,
    get_unique_node 0 w_1_i [None; None] (initial_state (R:=Q)) = (Ret a, s1)
    /\ (is_Some (unique_table (initial_state (R:=Q)) !! get_unique_key 0 w_1_i [None; None]) ->
        global_node_id s1 = global_node_id (initial_state (R:=Q)))
    /\ (unique_table (initial_state (R:=Q)) !! get_unique_key 0 w_1_i [None; None] = None ->
        global_node_id s1 = global_node_id (initial_state (R:=Q)) + 1)
    /\ create_all [(1, w_batch3, [None])] s1 = (Ret l, s2)
    /\ get_unique_node 0 w_1_i' [None; None] s2 = (Ret a, s2).
Proof.
  apply (get_unique_node_hash_consing (initial_state (R:=Q)) 0 w_1_i w_1_i' [None; None]
           [(1, w_batch3, [None])]).
  vm_compute. reflexivity.
Defined.

(** ** Views and broadcasts that change nothing *)

Lemma chunks_lengths {A} n m (l : list A) :
  length l = (n * m)%nat -> Forall (fun c => length c = m) (chunks n m l).
Proof.
  revert l. induction n as [|n IH]; intros l Hl; cbn [chunks]; constructor.
  - rewrite length_take. lia.
  - apply IH. rewrite length_drop. lia.
Qed.

Lemma concat_chunks {A} n m (l : list A) :
  length l = (n * m)%nat -> concat (chunks n m l) = l.
Proof.
  revert l. induction n as [|n IH]; intros l Hl; cbn [chunks concat].
  - destruct l; [done | discriminate].
  - rewrite IH by (rewrite length_drop; lia). apply take_drop.
Qed.

Lemma mapM_id_on {A} (f : A -> option A) (l : list A) :
  Forall (fun x => f x = Some x) l -> mapM f l = Some l.
Proof.
  induction 1 as [|x l Hx _ IH]; [done|]. cbn. rewrite Hx. cbn. by rewrite IH.
Qed.

Lemma broadcast_data_same {A} sh (d : list A) :
  length d = numel sh -> broadcast_data sh sh d = Some d.
Proof.
  revert d. induction sh as [|n sh IH]; intros d Hd; [done|].
  cbn [broadcast_data]. rewrite decide_True by done.
  cbn [numel foldr] in Hd. fold (numel sh) in Hd.
  rewrite (mapM_id_on (broadcast_data sh sh)).
  - cbn. by rewrite concat_chunks.
  - eapply Forall_impl; [by apply chunks_lengths|]. cbn. intros c Hc. by apply IH.
Qed.

Section DuplicateFacts.
Context {R : Type} `{!FloatOps R}.
Implicit Types (s : State R).

Lemma get_node_eq s a n : nodes s !! a = Some n -> get_node a s = (Ret n, s).
Proof. intros H. unfold get_node. by rewrite H. Qed.

Lemma tensor_view_same (t : Tensor R) sh :
  shape t = sh -> tensor_view t sh = Ret t.
Proof.
  intros <-. unfold tensor_view. rewrite decide_True by done. by destruct t.
Qed.

Lemma tensor_broadcast_to_same (t : Tensor R) sh :
  shape t = sh -> length (data t) = numel sh -> tensor_broadcast_to t sh = Ret t.
Proof.
  intros <- Hd. unfold tensor_broadcast_to. rewrite decide_True by done.
  rewrite Nat.sub_diag. cbn [replicate app]. rewrite broadcast_data_same by done.
  by destruct t.
Qed.

(** C9 (as amended): if the diagram below a node consists of nodes
    that are registered in the unique table under their own keys, with
    weights of shape [[branch count] + parallel_shape + [2]], then
    duplicating the node with that batch shape, no extra shapes and
    [init_order = 0] returns the very same Node object and changes
    nothing. *)
Theorem duplicate_identity fuel s parallel_shape a :
  registered fuel s parallel_shape (Some a) = true ->
  duplicate fuel (Some a) parallel_shape 0 [] [] s = (Ret (Some a), s).
Proof.
  generalize (Some a). clear a. intros node. revert node.
  induction fuel as [|fuel IH]; intros node H; [discriminate|].
  cbn [registered] in H. cbn [duplicate].
  destruct node as [a|]; [|done].
  destruct (nodes s !! a) as [n|] eqn:En; [|discriminate].
  apply andb_prop in H as [H Hsuccs]. apply andb_prop in H as [H Hkey].
  apply andb_prop in H as [Hshape Hdata].
  apply bool_decide_eq_true in Hshape, Hdata, Hkey.
  rewrite (bind_ret_eq _ _ _ _ _ (get_node_eq _ _ _ En)).
  cbn [length replicate app] in *.
  unfold lift at 1. erewrite bind_ret_eq; [|by rewrite tensor_view_same].
  unfold lift at 1. erewrite bind_ret_eq;
    [|by rewrite tensor_broadcast_to_same by (done || by rewrite <- Hshape)].
  erewrite bind_ret_eq; cycle 1.
  { apply (mapM__pure _ (fun x => x)). apply Forall_forall. intros r Hr.
    apply IH. rewrite forallb_forall in Hsuccs. apply Hsuccs.
    by apply list_elem_of_In. }
  rewrite list_fmap_id.
  erewrite bind_ret_eq; [done|].
  apply get_unique_node_found. by rewrite Z.add_0_r.
Qed.

End DuplicateFacts.

(** The theorem of C9 on the root of the diagram of two levels. *)
Lemma duplicate_identity_witness :
  duplicate 3 (Some 1%nat) [3%nat] 0 [] [] st_two_levels = (Ret (Some 1%nat), st_two_levels).
Proof.
  apply (duplicate_identity 3 st_two_levels [3%nat] 1%nat).
  vm_compute. reflexivity.
Defined.

(** C9 as stated fails: a node that is registered in the unique table,
    but whose successor was created before a reset, is not returned by
    its own identity duplication; a new object (address 3) is. *)
Lemma duplicate_identity_counterexample :
  let n := mkNode 1 0 (mkTensor 1 [1; 2]%nat [1; 0]%Q) [Some 0%nat] in
  nodes st_stale_child !! 1%nat = Some n
  /\ unique_table st_stale_child !! unique_key n = Some 1%nat
  /\ (duplicate 3 (Some 1%nat) [] 0 [] [] st_stale_child).1 = Ret (Some 3%nat)
  /\ ~ (forall (s : State Q) a n, nodes s !! a = Some n ->
        unique_table s !! unique_key n = Some a ->
        exists fuel, (duplicate fuel (Some a)
                        (py_slice_to_last 1 (shape (out_weights n))) 0 [] [] s).1
                     = Ret (Some a)).
Proof.
  cbv zeta. split; [by vm_compute|]. split; [by vm_compute|]. split; [by vm_compute|].
  intros H.
  destruct (H st_stale_child 1%nat _ eq_refl) as [fuel Hf]; [by vm_compute|].
  destruct fuel as [|[|[|fuel]]]; vm_compute in Hf; try discriminate.
Defined.

(** ** Broadcasts below the root *)

(** C4: on the diagram of two levels under the batch shape [[3]],
    [duplicate] with [extra_shape_behind = (5,)] broadcasts the weights of
    the root to the shape [[1; 3; 5; 2]], but the successor of the result
    is the original child (address 0), whose weights still have the shape
    [[1; 3; 2]]: the recursive call does not pass [extra_shape_behind]
    on. *)
Theorem duplicate_extra_shape_behind_root_only :
  exists s' root child,
    duplicate 3 (Some 1%nat) [3%nat] 0 [] [5%nat] st_two_levels = (Ret (Some 3%nat), s')
    /\ nodes s' !! 3%nat = Some root
    /\ shape (out_weights root) = [1; 3; 5; 2]%nat
    /\ successors root = [Some 0%nat]
    /\ nodes s' !! 0%nat = Some child
    /\ shape (out_weights child) = [1; 3; 2]%nat
    /\ shape (out_weights child) <> [1; 3; 5; 2]%nat.
Proof.
  eexists _, _, _. split; [by vm_compute|].
  split; [by vm_compute|]. split; [by vm_compute|]. split; [by vm_compute|].
  split; [by vm_compute|]. split; [by vm_compute|]. by vm_compute.
Qed.

(** C3: appending, with [tensor_batches = true], the diagram of one
    level under the batch shape [[5]] to the diagram of two levels under
    the batch shape [[3]] gives a root with weights of shape
    [[1; 3; 5; 2]] whose successor has weights of shape [[1; 3; 2]]: below
    the root of [a] the batch shape of [b] is missing. *)
Theorem append_tensor_batches_root_only :
  exists s' root c child,
    append 4 (Some 1%nat) [3%nat] 2 (Some 2%nat) [5%nat] true st_two_levels
    = (Ret (Some 6%nat), s')
    /\ nodes s' !! 6%nat = Some root
    /\ shape (out_weights root) = [1; 3; 5; 2]%nat
    /\ successors root = [Some c]
    /\ nodes s' !! c = Some child
    /\ shape (out_weights child) = [1; 3; 2]%nat
    /\ shape (out_weights child) <> [1; 3; 5; 2]%nat.
Proof.
  eexists _, _, _, _. split; [by vm_compute|].
  split; [by vm_compute|]. split; [by vm_compute|]. split; [by vm_compute|].
  split; [by vm_compute|]. split; [by vm_compute|]. by vm_compute.
Qed.

(** ** Layout *)

(** Whenever the label of an edge is a complex number, its imaginary part
    is the rounding of the float 0.0, whatever the weights are. *)
Lemma edge_label_complex_imag {R : Type} `{!FloatOps R} (n : Node R) k
      parallel_shape full_output re im :
  edge_label n k parallel_shape full_output = Ret (LComplex re im) ->
  im = round2 f0.
Proof.
  unfold edge_label, py_float_imag. intros H.
  repeat case_match; simplify_eq; done.
Qed.

(** C7: for the node with the branch weights [1+0j] and [0+1j] and no
    batch shape, the edge of branch 1 is labelled with the complex number
    [0+0j], although the amplitude [out_weights[1]] has the imaginary part
    1: the imaginary part of the label is taken from the attribute [imag]
    of a float. *)
Theorem layout_edge_label_imaginary_part :
  tensor_getitem (out_weights (mkNode 1 0 w_1_i [None; None])) 1
  = Ret (mkTensor 0 [2%nat] [0; 1]%Q)
  /\ nodes st_one_node !! 0%nat = Some (mkNode 1 0 w_1_i [None; None])
  /\ edges (dot (layout 2 st_one_node (Some 0%nat) [] [0] true false (mkLState [] [])).2)
     = [Edge "1" "-1" "red" (LComplex 1%Q 0%Q); Edge "1" "-1" "blue" (LComplex 0%Q 0%Q)]
  /\ edge_label (mkNode 1 0 w_1_i [None; None]) 1 [] false = Ret (LComplex 0%Q 0%Q)
  /\ round2 1%Q = 1%Q.
Proof.
  split; [by vm_compute|]. split; [by vm_compute|]. split; [by vm_compute|].
  split; by vm_compute.
Qed.

Section LayoutFacts.
Context {R : Type} `{!FloatOps R}.

(** C8 (as amended): the layout of a node with two terminal
    successors, the weights [1+0j] and [0+1j] and no batch shape, on an
    empty graph and an empty visited list, has exactly 2 vertices (the
    node and the terminal vertex [-1], which is drawn once) and exactly
    2 edges, both into the terminal vertex, the one of branch 0 red and
    the one of branch 1 blue. *)
Theorem layout_two_terminal_successors (s : State R) a n ps io i real full fuel :
  nodes s !! a = Some n ->
  successors n = [None; None] ->
  shape (out_weights n) = [2; 2]%nat ->
  data (out_weights n) = [f1; f0; f0; f1] ->
  py_getitem io (order n) = Ret i ->
  exists l0 l1 body,
    layout (S (S fuel)) s (Some a) ps io real full (mkLState [] [])
    = (Ret tt, mkLState body [None])
    /\ body = [Vertex (py_str_int (node_id n)) ("i" +:+ py_str_int i)
                      "helvetica" "circle" "red";
               Vertex "-1" "1" "helvetica" "circle" "red";
               Edge (py_str_int (node_id n)) "-1" "red" l0;
               Edge (py_str_int (node_id n)) "-1" "blue" l1]
    /\ length (vertices body) = 2%nat /\ length (edges body) = 2%nat.
Proof.
  intros Hn Hs Hsh Hd Hi.
  destruct n as [nid ord [st sh d] succs]. cbn in Hs, Hsh, Hd, Hi. subst.
  eexists _, _, _. split; [|split; [reflexivity|split; reflexivity]].
  cbn [layout]. unfold node_at, lift, bind. rewrite Hn. cbn [order]. rewrite Hi.
  destruct real; vm_compute; reflexivity.
Qed.

End LayoutFacts.

(** The theorem of C8 on the state with one such node. *)
Lemma layout_two_terminal_successors_witness :
  exists l0 l1 body,
    layout 2 st_one_node (Some 0%nat) [] [0] true false (mkLState [] [])
    = (Ret tt, mkLState body [None])
    /\ body = [Vertex "1" "i0" "helvetica" "circle" "red";
               Vertex "-1" "1" "helvetica" "circle" "red";
               Edge "1" "-1" "red" l0;
               Edge "1" "-1" "blue" l1]
    /\ length (vertices body) = 2%nat /\ length (edges body) = 2%nat.
Proof.
  apply (layout_two_terminal_successors st_one_node 0%nat (mkNode 1 0 w_1_i [None; None])
           [] [0] 0 true false 0%nat); reflexivity.
Defined.

(** C8 as stated fails: the graph has 2 vertices, not 3. *)
Lemma layout_vertex_count_counterexample :
  let body := dot (layout 2 st_one_node (Some 0%nat) [] [0] true false (mkLState [] [])).2 in
  length (vertices body) = 2%nat
  /\ length (edges body) = 2%nat
  /\ ~ (length (vertices body) = 3%nat /\ length (edges body) = 2%nat).
Proof.
  cbv zeta. split; [by vm_compute|]. split; [by vm_compute|].
  intros [H _]. vm_compute in H. discriminate.
Qed.

(** ** Reasoning about runs *)

Section Hoare.
Context {St : Type}.
Implicit Types (P : St -> Prop) (F : Failure -> St -> Prop).

Lemma hoare_ret {A} P (a : A) (Q : A -> St -> Prop) F :
  (forall s, P s -> Q a s) -> hoare P (ret a) Q F.
Proof. intros H s Hs. by apply H. Qed.

Lemma hoare_fail {A} P f (Q : A -> St -> Prop) F :
  (forall s, P s -> F f s) -> hoare P (fail f) Q F.
Proof. intros H s Hs. by apply H. Qed.

Lemma hoare_lift {A} P (o : Outcome A) (Q : A -> St -> Prop) F :
  (forall s, P s -> match o with Ret a => Q a s | Fail f => F f s end) ->
  hoare P (lift o) Q F.
Proof. intros H s Hs. unfold lift. specialize (H s Hs). by destruct o. Qed.

Lemma hoare_bind {A B} P (c : M St A) (k : A -> M St B)
      (Q1 : A -> St -> Prop) (Q : B -> St -> Prop) F :
  hoare P c Q1 F -> (forall a, hoare (Q1 a) (k a) Q F) -> hoare P (bind c k) Q F.
Proof.
  intros Hc Hk s Hs. specialize (Hc s Hs). unfold bind.
  destruct (c s) as [[a|f] s']; [by apply Hk | done].
Qed.

Lemma hoare_conseq {A} P P' (c : M St A) (Q Q' : A -> St -> Prop) F F' :
  hoare P' c Q' F' ->
  (forall s, P s -> P' s) -> (forall a s, Q' a s -> Q a s) ->
  (forall f s, F' f s -> F f s) ->
  hoare P c Q F.
Proof.
  intros Hc HP HQ HF s Hs. specialize (Hc s (HP s Hs)).
  destruct (c s) as [[a|f] s']; eauto.
Qed.

Lemma hoare_post {A} P (c : M St A) (Q Q' : A -> St -> Prop) F :
  hoare P c Q' F -> (forall a s, Q' a s -> Q a s) -> hoare P c Q F.
Proof. intros Hc HQ. eapply hoare_conseq; eauto. Qed.

Lemma hoare_pre_pure {A} P (phi : Prop) (c : M St A) (Q : A -> St -> Prop) F :
  (phi -> hoare P c Q F) -> hoare (fun s => P s /\ phi) c Q F.
Proof. intros H s [Hs Hphi]. by apply H. Qed.

(** A loop keeps an invariant of the state and relates every element to
    its result. *)
Lemma hoare_mapM_ {A B} (I : St -> Prop) (f : A -> M St B) (l : list A)
      (Qe : A -> B -> Prop) F :
  (forall x, x ∈ l -> hoare I (f x) (fun y s => I s /\ Qe x y) F) ->
  hoare I (mapM_ f l) (fun ys s => I s /\ Forall2 Qe l ys) F.
Proof.
  induction l as [|x l IH]; intros Hf.
  - apply hoare_ret. intros s Hs. split; [done | constructor].
  - cbn [mapM_]. eapply hoare_bind; [apply Hf; left|].
    intros y. apply hoare_pre_pure. intros Hy.
    eapply hoare_bind; [apply IH; intros z Hz; apply Hf; by right|].
    intros ys. apply hoare_ret. intros s [Hs Hys]. split; [done|].
    by constructor.
Qed.

End Hoare.

Section HoareLift.
Context {St : Type}.

Lemma hoare_lift_eq {A} (P : St -> Prop) (o : Outcome A) F :
  (forall f s, P s -> o = Fail f -> F f s) ->
  hoare P (lift o) (fun a s => P s /\ o = Ret a) F.
Proof.
  intros H. apply hoare_lift. intros s Hs. destruct o as [a|f]; [done|]. by apply H.
Qed.

End HoareLift.

(** ** States that only grow *)

Section Frame.
Context {R : Type} `{!FloatOps R}.
Implicit Types (s : State R).

Lemma extends_refl s : extends s s.
Proof.
  split; [|split]; [exists []|exists []|done].
  - by rewrite app_nil_r.
  - by rewrite app_nil_r.
Qed.

Lemma extends_trans s1 s2 s3 : extends s1 s2 -> extends s2 s3 -> extends s1 s3.
Proof.
  intros ((ns1 & Hn1 & Hf1) & (ls1 & Hl1) & Hs1) ((ns2 & Hn2 & Hf2) & (ls2 & Hl2) & Hs2).
  split; [|split].
  - exists (ns1 ++ ns2). rewrite Hn2, Hn1, app_assoc. split; [done|].
    apply Forall_app. split; [done|].
    eapply Forall_impl; [exact Hf2|]. cbn. intros n Hn. lia.
  - exists (ls1 ++ ls2). by rewrite Hl2, Hl1, app_assoc.
  - lia.
Qed.

Lemma extends_lists s s' a l :
  extends s s' -> lists s !! a = Some l -> lists s' !! a = Some l.
Proof. intros (_ & (ls & ->) & _) H. by apply lookup_app_l_Some. Qed.

Lemma extends_nodes s s' a n :
  extends s s' -> nodes s !! a = Some n -> nodes s' !! a = Some n.
Proof. intros ((ns & -> & _) & _) H. by apply lookup_app_l_Some. Qed.

Lemma extends_lists_length s s' : extends s s' -> (length (lists s) <= length (lists s'))%nat.
Proof. intros (_ & (ls & ->) & _). rewrite length_app. lia. Qed.

Lemma extends_next_storage s s' : extends s s' -> (next_storage s <= next_storage s')%nat.
Proof. by intros (_ & _ & H). Qed.


Lemma extends_step_storage s :
  extends s (mkState (nodes s) (unique_table s) (global_node_id s) (lists s)
                     (S (next_storage s))).
Proof.
  split; [|split]; cbn; [exists []|exists []|lia]; rewrite app_nil_r; [split|]; done.
Qed.

Lemma extends_step_list s l :
  extends s (mkState (nodes s) (unique_table s) (global_node_id s) (lists s ++ [l])
                     (next_storage s)).
Proof.
  split; [|split]; cbn; [exists []|by exists [l]|lia]. by rewrite app_nil_r.
Qed.

Lemma get_unique_node_extends s o w succs :
  extends s (get_unique_node o w succs s).2.
Proof.
  destruct (unique_table s !! get_unique_key o w succs) as [a|] eqn:E.
  - rewrite (get_unique_node_found _ _ _ _ _ E). apply extends_refl.
  - rewrite (get_unique_node_fresh _ _ _ _ E). cbn.
    split; [|split]; cbn; [|exists []; by rewrite app_nil_r|lia].
    eexists. split; [done|]. constructor; [cbn; lia|constructor].
Qed.

Variable s0 : State R.
Variable F : Failure -> State R -> Prop.

Lemma hoare_tensor_clone (t : Tensor R) :
  hoare (extends s0) (tensor_clone t)
    (fun t' s => extends s0 s
                 /\ (shape t' = shape t /\ data t' = data t
                     /\ (next_storage s0 <= storage t')%nat)) F.
Proof.
  intros s Hs. cbn. split; [|repeat split; by apply extends_next_storage].
  eapply extends_trans; [done | apply extends_step_storage].
Qed.

Lemma hoare_get_unique_node o w succs :
  hoare (extends s0) (get_unique_node o w succs) (fun a s => extends s0 s /\ True) F.
Proof.
  intros s Hs. pose proof (get_unique_node_extends s o w succs) as He.
  destruct (get_unique_node_spec s o w succs) as (a & s' & Heq & _).
  rewrite Heq in *. cbn in He. split; [|done]. by eapply extends_trans.
Qed.

End Frame.

(** ** Failures of the pure operations *)

Lemma py_getitem_fail {A} (l : list A) i f : py_getitem l i = Fail f -> f = Raised IndexError.
Proof.
  unfold py_getitem, of_option. intros H.
  repeat case_decide; repeat case_match; congruence.
Qed.

Lemma py_getitem_elem {A} (l : list A) i x : py_getitem l i = Ret x -> x ∈ l.
Proof.
  unfold py_getitem, of_option. intros H.
  repeat case_decide; repeat case_match; simplify_eq;
    by eapply list_elem_of_lookup_2.
Qed.

Lemma tensor_split1_fail {R} (t : Tensor R) d f :
  tensor_split1 t d = Fail f -> f = Raised IndexError.
Proof. unfold tensor_split1. case_match; congruence. Qed.

Lemma tensor_slice_second_last_fail {R} (t : Tensor R) f :
  tensor_slice_second_last t = Fail f -> f = Raised IndexError.
Proof. unfold tensor_slice_second_last. case_decide; congruence. Qed.

Lemma tensor_view_fail {R} (t : Tensor R) sh f :
  tensor_view t sh = Fail f -> f = Raised RuntimeError.
Proof. unfold tensor_view. case_decide; congruence. Qed.

Lemma wrap_dim_lt n d k : wrap_dim n d = Some k -> (k < n)%nat.
Proof. unfold wrap_dim. intros H. repeat case_decide; simplify_eq; lia. Qed.

Lemma narrow_rank {R} (t : Tensor R) d k len :
  (d < length (shape t))%nat -> length (shape (narrow t d k len)) = length (shape t).
Proof.
  intros Hd. cbn. rewrite length_app, length_take. cbn. rewrite length_drop. lia.
Qed.

Lemma tensor_split1_rank {R} (t : Tensor R) d l u :
  tensor_split1 t d = Ret l -> u ∈ l -> length (shape u) = length (shape t).
Proof.
  unfold tensor_split1. destruct (wrap_dim _ _) as [k|] eqn:Hk; [|discriminate].
  intros [= <-] Hu. apply list_elem_of_fmap in Hu as (j & -> & _).
  apply narrow_rank. by eapply wrap_dim_lt.
Qed.

Lemma py_slice_to_last_length {A} a (l : list A) :
  length (py_slice_to_last a l) = (length l - 1 - a)%nat.
Proof. unfold py_slice_to_last. rewrite length_drop, length_take. lia. Qed.

(** ** Import: what a run leaves behind *)

Section FacadeFrame.
Context {R : Type} `{!FloatOps R} `{!NormPolicy R}.
Implicit Types (s : State R).

Variable s0 : State R.
Variable F : Failure -> State R -> Prop.

Lemma hoare_new_tensor sh (d : list R) :
  hoare (extends s0) (new_tensor sh d)
    (fun t' s => extends s0 s
                 /\ (shape t' = sh /\ data t' = d /\ (next_storage s0 <= storage t')%nat)) F.
Proof.
  intros s Hs. cbn. split; [|repeat split; by apply extends_next_storage].
  eapply extends_trans; [done | apply extends_step_storage].
Qed.

Lemma hoare_alloc_list l :
  hoare (extends s0) (alloc_list l)
    (fun a s => extends s0 s /\ (length (lists s0) <= a)%nat) F.
Proof.
  intros s Hs. cbn. split; [|by apply extends_lists_length].
  eapply extends_trans; [done | apply extends_step_list].
Qed.

Lemma hoare_read_list a :
  (forall s, extends s0 s -> lists s !! a = None -> F Dangling s) ->
  hoare (extends s0) (read_list a) (fun l s => extends s0 s /\ True) F.
Proof.
  intros HF s Hs. unfold read_list. destruct (lists s !! a) eqn:E; [done|]. by apply HF.
Qed.

Lemma hoare_read_list_known a l0 :
  lists s0 !! a = Some l0 ->
  hoare (extends s0) (read_list a) (fun l s => extends s0 s /\ l = l0) F.
Proof.
  intros Hl s Hs. unfold read_list. by rewrite (extends_lists _ _ _ _ Hs Hl).
Qed.

Lemma hoare_tensor_stack (ts : list (Tensor R)) :
  (forall s, extends s0 s ->
             ~ (exists t ts', ts = t :: ts' /\ Forall (fun u => shape u = shape t) ts') ->
             F (Raised RuntimeError) s) ->
  hoare (extends s0) (tensor_stack ts)
    (fun t' s => extends s0 s
                 /\ (shape t' = length ts :: default [] (shape <$> head ts)
                     /\ (next_storage s0 <= storage t')%nat)) F.
Proof.
  intros HF. unfold tensor_stack. destruct ts as [|t ts'].
  - apply hoare_fail. intros s Hs. apply HF; [done|]. by intros (? & ? & ? & _).
  - destruct (forallb _ ts') eqn:E.
    + eapply hoare_post; [apply hoare_new_tensor|].
      cbn. intros t' s (Hs & -> & _ & Hst). done.
    + apply hoare_fail. intros s Hs. apply HF; [done|].
      intros (t1 & ts1 & [= <- <-] & Hall).
      assert (forallb (fun u => bool_decide (shape u = shape t)) ts' = true); [|congruence].
      apply forallb_forall. intros u Hu. apply bool_decide_eq_true.
      rewrite Forall_forall in Hall. apply Hall. by apply list_elem_of_In.
Qed.

Lemma hoare_CUDAcpl_ones sh :
  hoare (extends s0) (CUDAcpl_ones sh)
    (fun t' s => extends s0 s
                 /\ (shape t' = sh ++ [2%nat] /\ (next_storage s0 <= storage t')%nat)) F.
Proof.
  eapply hoare_post; [apply hoare_new_tensor|].
  cbn. intros t' s (Hs & -> & _ & Hst). done.
Qed.

Lemma hoare_normalized (raw : Node R) (dw : Tensor R) flag :
  hoare (extends s0) (normalized raw dw flag)
    (fun nw s => extends s0 s
                 /\ (shape nw.2 = shape dw /\ (next_storage s0 <= storage nw.2)%nat)) F.
Proof.
  unfold normalized. destruct (norm_degenerate _ _ _) as [d|].
  { eapply hoare_bind; [apply hoare_new_tensor|]. intros nw.
    apply hoare_pre_pure. intros (Hsh & _ & Hst).
    apply hoare_ret. intros s Hs. cbn. eauto. }
  eapply hoare_bind; [apply hoare_new_tensor|]. intros reduced.
  apply hoare_pre_pure. intros _.
  eapply hoare_bind; [apply hoare_new_tensor|]. intros nw.
  apply hoare_pre_pure. intros (Hsh & _ & Hst).
  eapply hoare_bind; [apply hoare_get_unique_node|]. intros r.
  apply hoare_pre_pure. intros _.
  apply hoare_ret. intros s Hs. cbn. eauto.
Qed.

End FacadeFrame.

Section ImportFrame.
Context {R : Type} `{!FloatOps R} `{!NormPolicy R}.
Implicit Types (s : State R) (t : Tensor R).

(** The number of data axes [as_tensor_iterate] computes from a tensor. *)
Local Abbreviation axes ps t :=
  (length (py_slice_to_last (length (ps : list nat)) (shape t))).

Lemma split_axes t ps d l u :
  tensor_split1 t d = Ret l -> u ∈ l -> axes ps u = axes ps t.
Proof.
  intros Hl Hu. rewrite !py_slice_to_last_length.
  by rewrite (tensor_split1_rank _ _ _ _ Hl Hu).
Qed.

(** A run of [as_tensor_iterate] only allocates; it never raises
    [InvalidInput]; it does not reach the recursion bound when the bound
    exceeds the number of axes still to split; and the TDD it returns
    holds weights and an index order allocated during the run. *)
Lemma as_tensor_iterate_frame s0 fuel :
  forall t ps ioa depth,
    (depth <= axes ps t)%nat ->
    hoare (extends s0) (as_tensor_iterate fuel t ps ioa depth)
      (fun res s => extends s0 s
                    /\ ((next_storage s0 <= storage (weights res))%nat
                        /\ (length (lists s0) <= index_order res)%nat))
      (fun f s => extends s0 s /\ f <> Raised InvalidInput
                  /\ ((axes ps t < depth + fuel)%nat -> f <> OutOfFuel)).
Proof.
  induction fuel as [|fuel IH]; intros t ps ioa depth Hd.
  { apply hoare_fail. intros s Hs. split; [done|]. split; [done|lia]. }
  cbn [as_tensor_iterate].
  set (n := axes ps t) in *.
  eapply hoare_bind.
  { apply hoare_read_list. intros s Hs _. split; [done|]. by split. }
  intros io. apply hoare_pre_pure. intros _.
  eapply (hoare_bind _ _ _ (fun _ s => extends s0 s)).
  { destruct (decide (io = [])).
    - eapply hoare_post; [apply hoare_alloc_list|by intros ? ? []].
    - by apply hoare_ret. }
  intros ioa'.
  destruct (decide (depth = n)) as [Hdn|Hdn].
  - eapply (hoare_bind _ _ _
              (fun w s => extends s0 s /\ (next_storage s0 <= storage w)%nat)).
    { destruct (decide (n = 0%nat)).
      - eapply hoare_post; [apply hoare_tensor_clone|].
        cbn. intros w s (Hs & _ & _ & Hst). done.
      - eapply hoare_bind; [apply hoare_lift_eq|].
        { intros f s Hs Hf. apply tensor_slice_second_last_fail in Hf as ->.
          split; [done|]. by split. }
        intros t1. apply hoare_pre_pure. intros _.
        eapply hoare_bind; [apply hoare_tensor_clone|].
        intros t2. apply hoare_pre_pure. intros (_ & _ & Hst).
        apply hoare_lift. intros s Hs. destruct (tensor_view t2 _) as [w|f] eqn:E.
        + unfold tensor_view in E. case_decide; simplify_eq. done.
        + apply tensor_view_fail in E as ->. split; [done|]. by split. }
    intros w. apply hoare_pre_pure. intros Hw.
    eapply hoare_bind; [apply hoare_alloc_list|].
    intros e. apply hoare_pre_pure. intros He.
    apply hoare_ret. intros s Hs. done.
  - eapply hoare_bind.
    { apply hoare_read_list. intros s Hs _. split; [done|]. by split. }
    intros io'. apply hoare_pre_pure. intros _.
    eapply hoare_bind; [apply hoare_lift_eq|].
    { intros f s Hs Hf. apply py_getitem_fail in Hf as ->. split; [done|]. by split. }
    intros split_pos. apply hoare_pre_pure. intros _.
    eapply hoare_bind; [apply hoare_lift_eq|].
    { intros f s Hs Hf. apply tensor_split1_fail in Hf as ->. split; [done|]. by split. }
    intros split_tensor. apply hoare_pre_pure. intros Hsplit.
    eapply hoare_bind; [apply hoare_lift_eq|].
    { intros f s Hs Hf. apply py_getitem_fail in Hf as ->. split; [done|]. by split. }
    intros m. apply hoare_pre_pure. intros _.
    eapply hoare_bind.
    { apply (hoare_mapM_ (extends s0) _ _ (fun _ _ => True)).
      intros k _. eapply hoare_bind; [apply hoare_lift_eq|].
      { intros f s Hs Hf. apply py_getitem_fail in Hf as ->. split; [done|]. by split. }
      intros tk. apply hoare_pre_pure. intros Htk. apply py_getitem_elem in Htk.
      pose proof (split_axes _ ps _ _ _ Hsplit Htk) as Hax.
      eapply hoare_conseq; [apply (IH tk ps ioa' (depth + 1)%nat)|done| |].
      - rewrite Hax. fold n. lia.
      - intros res s (Hs & _). done.
      - intros f s (Hs & Hf1 & Hf2). split; [done|]. split; [done|].
        intros Hlt. apply Hf2. rewrite Hax. fold n. lia. }
    intros the_successors. apply hoare_pre_pure. intros _.
    eapply hoare_bind.
    { apply hoare_tensor_stack. intros s Hs _. split; [done|]. by split. }
    intros ow. apply hoare_pre_pure. intros _.
    eapply hoare_bind; [apply hoare_CUDAcpl_ones|].
    intros dw. apply hoare_pre_pure. intros _.
    eapply hoare_bind; [apply hoare_normalized|].
    intros nw. apply hoare_pre_pure. intros (_ & Hst).
    eapply hoare_bind; [apply hoare_alloc_list|].
    intros e. apply hoare_pre_pure. intros He.
    apply hoare_ret. intros s Hs. done.
Qed.

End ImportFrame.

(** ** Import: shapes along the recursion *)

Lemma numel_app a b : numel (a ++ b) = (numel a * numel b)%nat.
Proof.
  unfold numel. induction a as [|x a IH]; cbn; [lia|]. rewrite IH. lia.
Qed.

Lemma numel_ones l : Forall (fun x => x = 1%nat) l -> numel l = 1%nat.
Proof. unfold numel. induction 1 as [|x l -> _ IH]; [done|]. cbn. rewrite IH. lia. Qed.

Lemma py_slice_to_last_app {A} (ps ds : list A) x :
  py_slice_to_last (length ps) (ps ++ ds ++ [x]) = ds.
Proof.
  unfold py_slice_to_last. rewrite !length_app. cbn.
  replace (length ps + (length ds + 1) - 1)%nat with (length (ps ++ ds)) by (rewrite length_app; lia).
  rewrite app_assoc, take_app_length, drop_app_length. done.
Qed.

Lemma py_slice_to_last_cons {A} (m : A) (ps : list A) x :
  py_slice_to_last 1 (m :: ps ++ [x]) = ps.
Proof. apply (py_slice_to_last_app [m] ps x). Qed.

Lemma py_getitem_nat {A} (l : list A) k x :
  l !! k = Some x -> py_getitem l (Z.of_nat k) = Ret x.
Proof.
  intros H. pose proof (lookup_lt_Some _ _ _ H). unfold py_getitem.
  rewrite decide_True by lia. by rewrite Nat2Z.id, H.
Qed.

Lemma py_getitem_Z {A} (l : list A) v x :
  0 <= v -> l !! Z.to_nat v = Some x -> py_getitem l v = Ret x.
Proof. intros Hv H. rewrite <- (Z2Nat.id v) by done. by apply py_getitem_nat. Qed.

Lemma narrow_shape_mid {R} (t : Tensor R) ps ds x p m k :
  shape t = ps ++ ds ++ [x] -> ds !! p = Some m -> (k < m)%nat ->
  shape (narrow t (length ps + p) k 1) = ps ++ <[p := 1%nat]> ds ++ [x].
Proof.
  intros Hsh Hp Hk. cbn. rewrite Hsh.
  pose proof (lookup_lt_Some _ _ _ Hp) as Hlt.
  rewrite take_app_add' by done.
  replace (S (length ps + p)) with (length ps + S p)%nat by lia.
  rewrite drop_app_add' by done.
  rewrite lookup_app_r by lia. replace (length ps + p - length ps)%nat with p by lia.
  rewrite lookup_app_l by done. rewrite Hp. cbn.
  rewrite take_app_le by lia. rewrite drop_app_le by lia.
  rewrite <- app_assoc. f_equal.
  rewrite insert_take_drop by done.
  rewrite <- app_assoc. destruct (m - k)%nat eqn:E; [lia|done].
Qed.

Lemma tensor_split1_data_axis {R} (t : Tensor R) ps ds x v p m :
  shape t = ps ++ ds ++ [x] -> 0 <= v -> p = Z.to_nat v -> ds !! p = Some m -> (1 <= m)%nat ->
  tensor_split1 t (- Z.of_nat (length ds) + v - 1)
  = Ret ((fun k => narrow t (length ps + p) k 1) <$> seq 0 m).
Proof.
  intros Hsh Hv -> Hp Hm. pose proof (lookup_lt_Some _ _ _ Hp) as Hlt.
  unfold tensor_split1, wrap_dim. rewrite Hsh, !length_app. cbn [length].
  rewrite decide_False by lia. rewrite decide_True by lia.
  replace (Z.to_nat _) with (length ps + Z.to_nat v)%nat by lia.
  rewrite lookup_app_r by lia.
  replace (length ps + Z.to_nat v - length ps)%nat with (Z.to_nat v) by lia.
  rewrite lookup_app_l by done. rewrite Hp. unfold default, id.
  replace (Nat.max m 1) with m by lia. done.
Qed.

Lemma Forall2_ignore_l {A B} (P : B -> Prop) (l : list A) (ys : list B) :
  Forall2 (fun _ y => P y) l ys -> Forall P ys.
Proof. induction 1; by constructor. Qed.

Section ImportTotal.
Context {R : Type} `{!FloatOps R} `{!NormPolicy R}.
Implicit Types (s : State R) (t : Tensor R).

(** With an index order that is a permutation of the data axes and
    data axes that are all non-empty, [as_tensor_iterate] returns a TDD
    whose weights have the batch shape; [depth] axes are already split
    to width 1. *)
Lemma as_tensor_iterate_total s0 ioa io n fuel :
  lists s0 !! ioa = Some io -> io <> [] -> io ≡ₚ py_range n ->
  forall depth t ps ds,
    shape t = ps ++ ds ++ [2%nat] -> length ds = n ->
    Forall (fun x => 1 <= x)%nat ds ->
    (forall j v, (j < depth)%nat -> io !! j = Some v -> ds !! Z.to_nat v = Some 1%nat) ->
    (depth <= n)%nat -> (n < depth + fuel)%nat ->
    hoare (extends s0) (as_tensor_iterate fuel t ps ioa depth)
      (fun res s => extends s0 s /\ shape (weights res) = ps ++ [2%nat])
      (fun _ _ => False).
Proof.
  intros Hio Hne Hperm.
  assert (length io = n) as Hlen.
  { rewrite Hperm. unfold py_range. by rewrite length_fmap, length_seq. }
  assert (forall v, v ∈ io -> 0 <= v < Z.of_nat n) as Hrange.
  { intros v Hv. rewrite Hperm in Hv. unfold py_range in Hv.
    apply list_elem_of_fmap in Hv as (k & -> & Hk). apply elem_of_seq in Hk. lia. }
  induction fuel as [|fuel IH]; intros depth t ps ds Hsh Hds Hpos Hdone Hd Hfuel; [lia|].
  cbn [as_tensor_iterate]. rewrite Hsh, py_slice_to_last_app, Hds.
  eapply hoare_bind; [by apply hoare_read_list_known|].
  intros io1. apply hoare_pre_pure. intros ->.
  rewrite decide_False by done.
  eapply (hoare_bind _ _ _ (fun a s => extends s0 s /\ a = ioa)); [by apply hoare_ret|].
  intros ioa'. apply hoare_pre_pure. intros ->.
  assert (0 < n)%nat as Hn by (destruct io; [done|cbn in Hlen; lia]).
  destruct (decide (depth = n)) as [->|Hdn].
  - rewrite decide_False by lia.
    assert (Forall (fun x => x = 1%nat) ds) as Hones.
    { apply Forall_lookup. intros p x Hp.
      pose proof (lookup_lt_Some _ _ _ Hp) as Hlt.
      assert (Z.of_nat p ∈ io) as Hin.
      { rewrite Hperm. unfold py_range. apply list_elem_of_fmap. exists p. split; [done|].
        apply elem_of_seq. lia. }
      apply list_elem_of_lookup in Hin as (j & Hj).
      pose proof (lookup_lt_Some _ _ _ Hj).
      specialize (Hdone j _ ltac:(lia) Hj). rewrite Nat2Z.id in Hdone. congruence. }
    eapply (hoare_bind _ _ _ (fun w s => extends s0 s /\ shape w = ps ++ [2%nat])).
    { unfold tensor_slice_second_last. rewrite decide_True.
      2: { rewrite Hsh, !length_app. cbn. lia. }
      eapply hoare_bind; [by apply hoare_lift_eq|].
      intros t1. apply hoare_pre_pure. intros [= <-].
      eapply hoare_bind; [apply hoare_tensor_clone|].
      intros t2. apply hoare_pre_pure. intros (Hsh2 & _ & _).
      assert (exists m, ds !! (length ds - 1)%nat = Some m) as [m Hm].
      { apply lookup_lt_is_Some. lia. }
      assert (m = 1%nat) as -> by (by eapply (Forall_lookup_1 _ _ _ _ Hones)).
      replace (length (shape t) - 2)%nat with (length ps + (length ds - 1))%nat in Hsh2.
      2: { rewrite Hsh, !length_app. cbn. lia. }
      rewrite (narrow_shape_mid t ps ds 2%nat _ 1%nat) in Hsh2 by (done || lia).
      rewrite list_insert_id in Hsh2 by done.
      apply hoare_lift. intros s Hs. unfold tensor_view.
      rewrite decide_True; [done|].
      rewrite Hsh2, !numel_app, (numel_ones ds) by done. lia. }
    intros w. apply hoare_pre_pure. intros Hw.
    eapply hoare_bind; [apply hoare_alloc_list|].
    intros e. apply hoare_pre_pure. intros _.
    apply hoare_ret. intros s Hs. done.
  - eapply hoare_bind; [by apply hoare_read_list_known|].
    intros io1. apply hoare_pre_pure. intros ->.
    assert (exists v, io !! depth = Some v) as [v Hv].
    { apply lookup_lt_is_Some. lia. }
    pose proof (Hrange v (list_elem_of_lookup_2 _ _ _ Hv)) as Hvr.
    assert (exists m, ds !! Z.to_nat v = Some m) as [m Hm].
    { apply lookup_lt_is_Some. lia. }
    assert (1 <= m)%nat as Hm1 by (by eapply (Forall_lookup_1 _ _ _ _ Hpos)).
    rewrite (py_getitem_nat _ _ _ Hv).
    eapply hoare_bind; [by apply hoare_lift_eq|].
    intros v'. apply hoare_pre_pure. intros [= <-].
    rewrite <- Hds.
    rewrite (tensor_split1_data_axis t ps ds 2%nat v _ m Hsh ltac:(lia) eq_refl Hm Hm1).
    eapply hoare_bind; [by apply hoare_lift_eq|].
    intros split_tensor. apply hoare_pre_pure. intros [= <-].
    rewrite (py_getitem_Z ds v m ltac:(lia) Hm).
    eapply hoare_bind; [by apply hoare_lift_eq|].
    intros m'. apply hoare_pre_pure. intros [= <-].
    eapply hoare_bind.
    { apply (hoare_mapM_ (extends s0) _ _
               (fun _ y => shape (weights y) = ps ++ [2%nat])).
      intros k Hk. apply elem_of_seq in Hk.
      erewrite py_getitem_nat; cycle 1.
      { rewrite list_lookup_fmap, lookup_seq_lt by lia. done. }
      eapply hoare_bind; [by apply hoare_lift_eq|].
      intros tk. apply hoare_pre_pure. intros [= <-].
      apply (IH (depth + 1)%nat _ ps (<[Z.to_nat v := 1%nat]> ds)).
      - apply (narrow_shape_mid t ps ds 2%nat _ m); [done|done|lia].
      - by rewrite length_insert.
      - apply Forall_insert; [done|lia].
      - intros j v2 Hj Hv2.
        destruct (decide (Z.to_nat v2 = Z.to_nat v)) as [->|Hneq].
        + apply list_lookup_insert_eq. lia.
        + rewrite list_lookup_insert_ne by done.
          apply (Hdone j); [|done].
          destruct (decide (j = depth)) as [->|]; [|lia]. congruence.
      - lia.
      - lia. }
    intros the_successors. apply hoare_pre_pure. intros Hsuccs.
    eapply hoare_bind.
    { apply hoare_tensor_stack. intros s Hs Hno. apply Hno.
      pose proof (Forall2_length _ _ _ Hsuccs) as Hl. rewrite length_seq in Hl.
      destruct the_successors as [|y ys]; [cbn in Hl; lia|].
      exists (weights y), (weights <$> ys). split; [done|].
      apply Forall2_ignore_l in Hsuccs. apply Forall_cons in Hsuccs as [Hy Hys].
      apply Forall_fmap. eapply Forall_impl; [exact Hys|]. cbn. congruence. }
    intros ow. apply hoare_pre_pure. intros (How & _).
    pose proof (Forall2_length _ _ _ Hsuccs) as Hl. rewrite length_seq in Hl.
    destruct the_successors as [|y ys]; [cbn in Hl; lia|].
    apply Forall2_ignore_l in Hsuccs. apply Forall_cons in Hsuccs as [Hy Hys].
    cbn in How. rewrite Hy in How.
    eapply hoare_bind; [apply hoare_CUDAcpl_ones|].
    intros dw. apply hoare_pre_pure. intros (Hdw & _).
    rewrite How, py_slice_to_last_cons in Hdw.
    eapply hoare_bind; [apply hoare_normalized|].
    intros nw. apply hoare_pre_pure. intros (Hnw & _).
    eapply hoare_bind; [apply hoare_alloc_list|].
    intros e. apply hoare_pre_pure. intros _.
    apply hoare_ret. intros s Hs. cbn. split; [done|congruence].
Qed.
End ImportTotal.

(** ** Import: what the recursion stores *)


Section LeafFacts.
Context {R : Type} `{!FloatOps R} `{!NormPolicy R}.
Implicit Types (s : State R) (t : Tensor R).





End LeafFacts.

(** ** Import: validation and frame *)

Section ImportFacts.
Context {R : Type} `{!FloatOps R} `{!NormPolicy R}.
Implicit Types (s : State R) (t : Tensor R).

(** [as_tensor] on a tuple, step by step: the conversion of the tensor
    argument (to [tn], in the state [sa]), the copy of the index order,
    the check of its length, and the recursive construction. *)
Lemma as_tensor_unfold s arr ps ioa :
  exists tn sa,
    extends s sa /\ lists sa = lists s /\ nodes sa = nodes s
    /\ shape tn = array_shape arr
    /\ (forall t, arr = TorchTensor t -> tn = t /\ sa = s)
    /\ as_tensor (Triple arr ps ioa) s =
       match lists s !! ioa with
       | None => (Fail Dangling, sa)
       | Some io =>
           let n := data_axes arr ps in
           let content := if decide (io = []) then py_range n else io in
           let sb := mkState (nodes sa) (unique_table sa) (global_node_id sa)
                             (lists sa ++ [content]) (next_storage sa) in
           if decide (n ≠ length content) then (Raise InvalidInput, sb)
           else match as_tensor_iterate (S n) tn ps (length (lists sa)) 0 sb with
                | (Ret r, s') =>
                    (Ret (mkTDD (weights r)
                                (py_slice_to_last (length ps) (array_shape arr))
                                (node r) (length (lists sa))), s')
                | (Fail f, s') => (Fail f, s')
                end
       end.
Proof.
  assert (exists tn sa,
             match arr with
             | NumpyArray sh d => np2CUDAcpl sh d
             | TorchTensor t => ret t
             end s = (Ret tn, sa)
             /\ extends s sa /\ lists sa = lists s /\ nodes sa = nodes s
             /\ shape tn = array_shape arr
             /\ (forall t, arr = TorchTensor t -> tn = t /\ sa = s))
    as (tn & sa & Hconv & Hext & Hl & Hn & Hsh & Ht).
  { destruct arr as [t|sh d].
    - exists t, s. split; [done|]. split; [apply extends_refl|].
      do 3 (split; [done|]). by intros ? [= ->].
    - eexists _, _. split; [reflexivity|]. split; [apply extends_step_storage|].
      by do 3 (split; [done|]). }
  exists tn, sa. do 5 (split; [done|]).
  unfold as_tensor, data_axes.
  unfold bind at 1. unfold ret at 1. cbn [fst snd].
  unfold bind at 1. rewrite Hconv.
  unfold bind at 1. unfold read_list at 1. rewrite Hl, Hsh.
  destruct (lists s !! ioa) as [io|] eqn:Eio; [|done].
  cbv zeta.
  unfold bind at 1.
  set (n := length (py_slice_to_last (length ps) (array_shape arr))).
  assert ((if decide (io = []) then alloc_list (py_range n) else alloc_list io) sa
          = alloc_list (if decide (io = []) then py_range n else io) sa) as ->
      by (by destruct (decide (io = []))).
  unfold alloc_list at 1.
  unfold bind at 1. unfold read_list at 1. cbn [lists].
  rewrite Hl. rewrite lookup_app_r by done. rewrite Nat.sub_diag. cbn [lookup list_lookup].
  case_decide; [done|].
  unfold bind at 1. destruct (as_tensor_iterate _ _ _ _ _ _) as [[r|f] s']; done.
Qed.

(** A tensor without data axes is imported as a leaf. *)
Lemma as_tensor_iterate_scalar s0 t ps ioa io fuel :
  lists s0 !! ioa = Some io -> shape t = ps ++ [2%nat] ->
  hoare (extends s0) (as_tensor_iterate (S fuel) t ps ioa 0)
    (fun res s => extends s0 s /\ shape (weights res) = ps ++ [2%nat])
    (fun _ _ => False).
Proof.
  intros Hio Hsh. cbn [as_tensor_iterate].
  rewrite Hsh.
  assert (py_slice_to_last (length ps) (ps ++ [2%nat]) = []) as ->
      by apply (py_slice_to_last_app ps [] 2%nat).
  cbn [length].
  eapply hoare_bind; [by apply hoare_read_list_known|].
  intros io1. apply hoare_pre_pure. intros ->.
  eapply (hoare_bind _ _ _ (fun _ s => extends s0 s)).
  { destruct (decide (io = [])).
    - eapply hoare_post; [apply hoare_alloc_list|by intros ? ? []].
    - by apply hoare_ret. }
  intros ioa'. rewrite !decide_True by done.
  eapply hoare_bind; [apply hoare_tensor_clone|].
  intros w. apply hoare_pre_pure. intros (Hw & _).
  eapply hoare_bind; [apply hoare_alloc_list|].
  intros e. apply hoare_pre_pure. intros _.
  apply hoare_ret. intros s Hs. cbn. split; [done|congruence].
Qed.

(** C5 (as amended): on a tuple [(tensor, parallel_shape,
    index_order)], [as_tensor] raises [InvalidInput] exactly when the
    supplied index order is not empty and its length differs from the
    number of data axes; an empty index order stands for the identity
    order and passes the check.  The run never reaches the recursion
    bound of the model.  When the index order (after this default) is a
    permutation of the data axes, the shape of the tensor is
    [parallel_shape + data shape + [2]] and no data axis is empty, the
    import returns a TDD with that data shape, weights of shape
    [parallel_shape + [2]] and that index order. *)
Theorem as_tensor_invalid_input s arr ps ioa io :
  lists s !! ioa = Some io ->
  let n := data_axes arr ps in
  let order := if decide (io = []) then py_range n else io in
  ((as_tensor (Triple arr ps ioa) s).1 = Raise InvalidInput
   <-> io <> [] /\ length io <> n)
  /\ (as_tensor (Triple arr ps ioa) s).1 <> Fail OutOfFuel
  /\ (forall ds,
        array_shape arr = ps ++ ds ++ [2%nat] ->
        Forall (fun x => 1 <= x)%nat ds ->
        order ≡ₚ py_range n ->
        exists res s',
          as_tensor (Triple arr ps ioa) s = (Ret res, s')
          /\ data_shape res = ds
          /\ shape (weights res) = ps ++ [2%nat]
          /\ lists s' !! index_order res = Some order).
Proof.
  intros Hio n order.
  destruct (as_tensor_unfold s arr ps ioa)
    as (tn & sa & Hext & Hl & Hn & Hsh & _ & Heq).
  rewrite Heq, Hio. cbv zeta. fold n. fold order.
  set (sb := mkState _ _ _ _ _).
  assert (length (py_slice_to_last (length ps) (shape tn)) = n) as Hax.
  { by rewrite Hsh. }
  pose proof (as_tensor_iterate_frame sb (S n) tn ps (length (lists sa)) 0%nat
                ltac:(lia) sb (extends_refl sb)) as Hframe.
  split; [|split].
  - destruct (decide (n <> length order)) as [Hmis|Hok].
    + split; [intros _|done]. subst order.
      destruct (decide (io = [])) as [->|Hne]; [|split; [done|congruence]].
      unfold py_range in Hmis. rewrite length_fmap, length_seq in Hmis. done.
    + split.
      * destruct (as_tensor_iterate _ _ _ _ _ _) as [[r|f] s']; [done|].
        cbn. intros [= ->]. by destruct Hframe as (_ & ? & _).
      * intros [Hne Hlen]. subst order. rewrite decide_False in Hok by done.
        destruct Hok. congruence.
  - destruct (decide (n <> length order)) as [Hmis|Hok]; [done|].
    destruct (as_tensor_iterate _ _ _ _ _ _) as [[r|f] s']; [done|].
    cbn. intros [= ->]. destruct Hframe as (_ & _ & Hf). apply Hf; [|done].
    rewrite Hax. lia.
  - intros ds Hds Hpos Hperm.
    assert (n = length ds) as Hnds.
    { unfold n, data_axes. by rewrite Hds, py_slice_to_last_app. }
    assert (length order = n) as Hlo.
    { rewrite Hperm. unfold py_range. by rewrite length_fmap, length_seq. }
    rewrite decide_False by (intros ?; congruence).
    assert (lists sb !! length (lists sa) = Some order) as Hrio.
    { subst sb. cbn. rewrite lookup_app_r by done. by rewrite Nat.sub_diag. }
    assert (hoare (extends sb) (as_tensor_iterate (S n) tn ps (length (lists sa)) 0)
              (fun res s => extends sb s /\ shape (weights res) = ps ++ [2%nat])
              (fun _ _ => False)) as Htot.
    { destruct (decide (order = [])) as [Hnil|Hne].
      - eapply as_tensor_iterate_scalar; [done|].
        rewrite Hsh, Hds. rewrite Hnil in Hlo. cbn in Hlo.
        destruct ds; [done|cbn in Hnds; lia].
      - apply (as_tensor_iterate_total sb _ order n (S n) Hrio Hne Hperm 0%nat tn ps ds).
        + rewrite Hsh. exact Hds.
        + done.
        + done.
        + intros j v Hj. lia.
        + lia.
        + lia. }
    specialize (Htot sb (extends_refl sb)).
    destruct (as_tensor_iterate _ _ _ _ _ _) as [[r|f] s']; [|done].
    destruct Htot as [Hs' Hw].
    eexists _, _. split; [done|]. cbn. split; [by rewrite Hds, py_slice_to_last_app|].
    split; [done|]. by eapply extends_lists.
Qed.


End ImportFacts.

(** The theorem of C5 on the identity matrix with the index order
    [[0; 1]]. *)
Lemma as_tensor_invalid_input_witness :
  ((as_tensor (Triple (TorchTensor identity_2x2) [] 1%nat) st_import).1 = Raise InvalidInput
   <-> [0; 1] <> [] /\ length [0; 1] <> 2%nat)
  /\ (as_tensor (Triple (TorchTensor identity_2x2) [] 1%nat) st_import).1 <> Fail OutOfFuel
  /\ exists res s',
      as_tensor (Triple (TorchTensor identity_2x2) [] 1%nat) st_import = (Ret res, s')
      /\ data_shape res = [2; 2]%nat
      /\ shape (weights res) = [2%nat]
      /\ lists s' !! index_order res = Some [0; 1].
Proof.
  pose proof (as_tensor_invalid_input st_import (TorchTensor identity_2x2) [] 1%nat [0; 1]
                eq_refl) as (H1 & H2 & H3).
  split; [exact H1|]. split; [exact H2|].
  apply (H3 [2; 2]%nat).
  - reflexivity.
  - repeat constructor.
  - reflexivity.
Defined.

(** C5 as stated fails in both directions: with the index order [[1]],
    as long as the one data axis of a vector, the import raises
    [IndexError]; with an empty index order for the two data axes of a
    matrix, the import raises nothing. *)
Lemma as_tensor_invalid_input_counterexample :
  lists st_import !! 2%nat = Some [1]
  /\ data_axes (TorchTensor vector_2) [] = 1%nat
  /\ (as_tensor (Triple (TorchTensor vector_2) [] 2%nat) st_import).1 = Raise IndexError
  /\ lists st_import !! 0%nat = Some []
  /\ data_axes (TorchTensor identity_2x2) [] = 2%nat
  /\ (exists res, (as_tensor (Triple (TorchTensor identity_2x2) [] 0%nat) st_import).1
                  = Ret res)
  /\ ~ (forall (s : State Q) arr ps ioa io,
          lists s !! ioa = Some io ->
          ((as_tensor (Triple arr ps ioa) s).1 = Raise InvalidInput
           <-> length io <> data_axes arr ps)
          /\ (length io = data_axes arr ps ->
              exists res, (as_tensor (Triple arr ps ioa) s).1 = Ret res)).
Proof.
  split; [reflexivity|]. split; [reflexivity|]. split; [by vm_compute|].
  split; [reflexivity|]. split; [reflexivity|].
  split; [eexists; by vm_compute|].
  intros H.
  destruct (H st_import (TorchTensor vector_2) [] 2%nat [1] eq_refl) as [_ Hok].
  destruct (Hok eq_refl) as [res Hres]. vm_compute in Hres. discriminate.
Qed.



(** * Further properties *)

(** ** Loops on an explicit state *)

Lemma mapM__state {St A B} (f : A -> M St B) (g : St -> A -> St) (h : A -> B)
      (P : St -> Prop) (l : list A) (s : St) :
  (forall x s, x ∈ l -> P s -> f x s = (Ret (h x), g s x) /\ P (g s x)) ->
  P s ->
  mapM_ f l s = (Ret (h <$> l), foldl g s l) /\ P (foldl g s l).
Proof.
  revert s. induction l as [|x l IH]; intros s Hf Hs; [done|].
  destruct (Hf x s ltac:(left) Hs) as [Hx Hs'].
  destruct (IH (g s x)) as [Hl HP]; [|done|].
  { intros y s1 Hy. apply Hf. by right. }
  cbn [mapM_ foldl]. rewrite (bind_ret_eq _ _ _ _ _ Hx), (bind_ret_eq _ _ _ _ _ Hl). done.
Qed.

Lemma mapM__fails {St A B} (f : A -> M St B) (I : St -> Prop) e (l : list A) (s : St) :
  (forall x s, x ∈ l -> I s ->
               (exists y s', f x s = (Ret y, s') /\ I s') \/ (f x s).1 = Fail e) ->
  Exists (fun x => forall s, I s -> (f x s).1 = Fail e) l ->
  I s -> (mapM_ f l s).1 = Fail e.
Proof.
  revert s. induction l as [|x l IH]; intros s Hf Hex Hs; [by inversion Hex|].
  cbn [mapM_]. unfold bind at 1.
  destruct (Hf x s ltac:(left) Hs) as [(y & s' & Hx & Hs')|Hx].
  - rewrite Hx. apply Exists_cons in Hex as [Hbad|Hex].
    { specialize (Hbad s Hs). rewrite Hx in Hbad. discriminate. }
    specialize (IH s' ltac:(intros z s1 Hz; apply Hf; by right) Hex Hs').
    unfold bind. destruct (mapM_ f l s') as [[ys|f1] s2]; cbn in *; congruence.
  - destruct (f x s) as [[y|f1] s']; cbn in *; congruence.
Qed.

(** ** [order_inverse] *)

Lemma py_setitem_nat {A} (l : list A) v x :
  0 <= v < Z.of_nat (length l) -> py_setitem l v x = Ret (<[Z.to_nat v := x]> l).
Proof. intros H. unfold py_setitem. by rewrite decide_True. Qed.

Lemma py_setitem_length {A} (l l' : list A) v x :
  py_setitem l v x = Ret l' -> length l' = length l.
Proof.
  unfold py_setitem. repeat case_decide; intros [= <-]; by rewrite length_insert.
Qed.

Lemma py_setitem_fail {A} (l : list A) v x :
  ~ (- Z.of_nat (length l) <= v < Z.of_nat (length l)) ->
  py_setitem l v x = Raise IndexError.
Proof. intros H. unfold py_setitem. rewrite !decide_False by lia. done. Qed.

Lemma py_setitem_ok {A} (l : list A) v x :
  - Z.of_nat (length l) <= v < Z.of_nat (length l) ->
  exists l', py_setitem l v x = Ret l'.
Proof. intros H. unfold py_setitem. repeat case_decide; eauto. lia. Qed.

Lemma order_inverse_perm_eq io n :
  io ≡ₚ py_range n ->
  order_inverse io
  = Ret (foldl (fun res i => <[Z.to_nat (default 0 (io !! i)) := Z.of_nat i]> res)
               (replicate n 0) (seq 0 n)).
Proof.
  intros Hperm.
  assert (length io = n) as Hlen.
  { rewrite Hperm. unfold py_range. by rewrite length_fmap, length_seq. }
  assert (forall v, v ∈ io -> 0 <= v < Z.of_nat n) as Hrange.
  { intros v Hv. rewrite Hperm in Hv. unfold py_range in Hv.
    apply list_elem_of_fmap in Hv as (k & -> & Hk). apply elem_of_seq in Hk. lia. }
  unfold order_inverse. rewrite Hlen.
  edestruct (mapM__state
               (fun i => v <~ lift (py_getitem io (Z.of_nat i)) ;;
                         fun res => match py_setitem res v (Z.of_nat i) with
                                    | Ret res' => (Ret tt, res')
                                    | Fail f => (Fail f, res)
                                    end)
               (fun res i => <[Z.to_nat (default 0 (io !! i)) := Z.of_nat i]> res)
               (fun _ => tt) (fun res : list Z => length res = n)
               (seq 0 n) (replicate n 0)) as [-> _]; [|by rewrite length_replicate|done].
  intros i res Hi Hres. apply elem_of_seq in Hi.
  destruct (lookup_lt_is_Some_2 io i ltac:(lia)) as [v Hv].
  pose proof (Hrange v (list_elem_of_lookup_2 _ _ _ Hv)).
  unfold bind, lift. rewrite (py_getitem_nat _ _ _ Hv).
  rewrite py_setitem_nat by lia. rewrite Hv. cbn. by rewrite length_insert.
Qed.

Lemma order_inverse_fold_lookup (io : list Z) n k :
  NoDup io -> length io = n -> (forall v, v ∈ io -> 0 <= v < Z.of_nat n) -> (k <= n)%nat ->
  let r := foldl (fun res i => <[Z.to_nat (default 0 (io !! i)) := Z.of_nat i]> res)
                 (replicate n 0) (seq 0 k) in
  length r = n
  /\ forall j v, (j < k)%nat -> io !! j = Some v -> r !! Z.to_nat v = Some (Z.of_nat j).
Proof.
  intros Hnd Hlen Hrange. induction k as [|k IH]; intros Hk.
  - cbn. split; [by rewrite length_replicate|]. intros; lia.
  - cbv zeta. rewrite seq_S, foldl_app. cbn [foldl Nat.add].
    destruct (IH ltac:(lia)) as [Hl Hlook]. cbv zeta in Hl, Hlook.
    split; [by rewrite length_insert|].
    intros j v Hj Hv.
    destruct (lookup_lt_is_Some_2 io k ltac:(lia)) as [vk Hvk]. rewrite Hvk. cbn.
    pose proof (Hrange v (list_elem_of_lookup_2 _ _ _ Hv)).
    pose proof (Hrange vk (list_elem_of_lookup_2 _ _ _ Hvk)).
    destruct (decide (j = k)) as [->|Hne].
    + assert (v = vk) as -> by congruence. apply list_lookup_insert_eq. lia.
    + rewrite list_lookup_insert_ne.
      * apply Hlook; [lia|done].
      * intros Heq. assert (vk = v) as -> by lia.
        apply Hne. by eapply NoDup_lookup.
Qed.

Lemma order_inverse_perm_lookup io n :
  io ≡ₚ py_range n ->
  exists q, order_inverse io = Ret q /\ length q = n
            /\ forall j v, io !! j = Some v -> q !! Z.to_nat v = Some (Z.of_nat j).
Proof.
  intros Hperm.
  assert (length io = n) as Hlen.
  { rewrite Hperm. unfold py_range. by rewrite length_fmap, length_seq. }
  assert (forall v, v ∈ io -> 0 <= v < Z.of_nat n) as Hrange.
  { intros v Hv. rewrite Hperm in Hv. unfold py_range in Hv.
    apply list_elem_of_fmap in Hv as (k & -> & Hk). apply elem_of_seq in Hk. lia. }
  assert (NoDup io) as Hnd.
  { rewrite Hperm. unfold py_range. apply NoDup_fmap; [apply Nat2Z.inj'|apply NoDup_seq]. }
  eexists. split; [by apply order_inverse_perm_eq|].
  destruct (order_inverse_fold_lookup io n n Hnd Hlen Hrange ltac:(lia)) as [Hl Hlook].
  split; [exact Hl|]. intros j v Hv. apply Hlook; [|done].
  apply lookup_lt_Some in Hv. lia.
Qed.

Lemma perm_range_surj io n p :
  io ≡ₚ py_range n -> (p < n)%nat -> exists j, io !! j = Some (Z.of_nat p).
Proof.
  intros Hperm Hp. apply list_elem_of_lookup. rewrite Hperm. unfold py_range.
  apply list_elem_of_fmap. exists p. split; [done|]. apply elem_of_seq. lia.
Qed.

(** X1: for a permutation [p] of [0 .. n-1], [order_inverse p] returns a
    list [q] of the same length with [q[p[i]] = i] for every position
    [i], and [q] is again a permutation of [0 .. n-1]. *)
Theorem order_inverse_left_inverse io n :
  io ≡ₚ py_range n ->
  exists q, order_inverse io = Ret q
            /\ length q = length io
            /\ (forall i v, io !! i = Some v -> py_getitem q v = Ret (Z.of_nat i))
            /\ q ≡ₚ py_range n.
Proof.
  intros Hperm.
  assert (length io = n) as Hlen.
  { rewrite Hperm. unfold py_range. by rewrite length_fmap, length_seq. }
  destruct (order_inverse_perm_lookup io n Hperm) as (q & Hq & Hl & Hlook).
  exists q. split; [done|]. split; [congruence|]. split.
  - intros i v Hv. apply py_getitem_Z; [|by apply Hlook].
    assert (v ∈ py_range n) as Hin by (rewrite <- Hperm; by eapply list_elem_of_lookup_2).
    unfold py_range in Hin. apply list_elem_of_fmap in Hin as (k & -> & _). lia.
  - assert (forall p x, q !! p = Some x ->
                        exists j, x = Z.of_nat j /\ io !! j = Some (Z.of_nat p)) as Hq_inv.
    { intros p x Hp. pose proof (lookup_lt_Some _ _ _ Hp) as Hlt.
      destruct (perm_range_surj io n p Hperm ltac:(lia)) as [j Hj].
      exists j. split; [|done]. specialize (Hlook j _ Hj). rewrite Nat2Z.id in Hlook.
      congruence. }
    apply NoDup_Permutation.
    + apply NoDup_alt. intros p1 p2 x H1 H2.
      destruct (Hq_inv _ _ H1) as (j1 & -> & Hj1). destruct (Hq_inv _ _ H2) as (j2 & E & Hj2).
      apply Nat2Z.inj in E as ->. rewrite Hj1 in Hj2. injection Hj2. lia.
    + unfold py_range. apply NoDup_fmap; [apply Nat2Z.inj'|apply NoDup_seq].
    + intros x. split.
      * intros Hx. apply list_elem_of_lookup in Hx as (p & Hp).
        destruct (Hq_inv _ _ Hp) as (j & -> & Hj). apply lookup_lt_Some in Hj.
        unfold py_range. apply list_elem_of_fmap. exists j. split; [done|].
        apply elem_of_seq. lia.
      * intros Hx. unfold py_range in Hx. apply list_elem_of_fmap in Hx as (j & -> & Hj).
        apply elem_of_seq in Hj.
        destruct (lookup_lt_is_Some_2 io j ltac:(lia)) as [v Hv].
        eapply list_elem_of_lookup_2. by apply Hlook.
Qed.

(** X2: on permutations [order_inverse] is an involution, and its
    result [q] is also a right inverse: [p[q[j]] = j]. *)
Theorem order_inverse_involutive io n :
  io ≡ₚ py_range n ->
  exists q, order_inverse io = Ret q
            /\ order_inverse q = Ret io
            /\ (forall j w, q !! j = Some w -> py_getitem io w = Ret (Z.of_nat j)).
Proof.
  intros Hperm.
  assert (length io = n) as Hlen.
  { rewrite Hperm. unfold py_range. by rewrite length_fmap, length_seq. }
  destruct (order_inverse_perm_lookup io n Hperm) as (q & Hq & Hl & Hlook).
  assert (forall p x, q !! p = Some x ->
                      exists j, x = Z.of_nat j /\ io !! j = Some (Z.of_nat p)) as Hq_inv.
  { intros p x Hp. pose proof (lookup_lt_Some _ _ _ Hp) as Hlt.
    destruct (perm_range_surj io n p Hperm ltac:(lia)) as [j Hj].
    exists j. split; [|done]. specialize (Hlook j _ Hj). rewrite Nat2Z.id in Hlook.
    congruence. }
  exists q. split; [done|]. split.
  - assert (q ≡ₚ py_range n) as Hqperm.
    { apply NoDup_Permutation.
      + apply NoDup_alt. intros p1 p2 x H1 H2.
        destruct (Hq_inv _ _ H1) as (j1 & -> & Hj1).
        destruct (Hq_inv _ _ H2) as (j2 & E & Hj2).
        apply Nat2Z.inj in E as ->. rewrite Hj1 in Hj2. injection Hj2. lia.
      + unfold py_range. apply NoDup_fmap; [apply Nat2Z.inj'|apply NoDup_seq].
      + intros x. split.
        * intros Hx. apply list_elem_of_lookup in Hx as (p & Hp).
          destruct (Hq_inv _ _ Hp) as (j & -> & Hj). apply lookup_lt_Some in Hj.
          unfold py_range. apply list_elem_of_fmap. exists j. split; [done|].
          apply elem_of_seq. lia.
        * intros Hx. unfold py_range in Hx. apply list_elem_of_fmap in Hx as (j & -> & Hj).
          apply elem_of_seq in Hj.
          destruct (lookup_lt_is_Some_2 io j ltac:(lia)) as [v Hv].
          eapply list_elem_of_lookup_2. by apply Hlook. }
    destruct (order_inverse_perm_lookup q n Hqperm) as (r & Hr & Hrl & Hrlook).
    rewrite Hr. f_equal. apply list_eq. intros i.
    destruct (io !! i) as [v|] eqn:Hv.
    + specialize (Hlook _ _ Hv). specialize (Hrlook _ _ Hlook).
      rewrite Nat2Z.id in Hrlook. rewrite Hrlook. f_equal.
      assert (v ∈ py_range n) as Hin by (rewrite <- Hperm; by eapply list_elem_of_lookup_2).
      unfold py_range in Hin. apply list_elem_of_fmap in Hin as (k & -> & _). lia.
    + apply lookup_ge_None. apply lookup_ge_None in Hv. lia.
  - intros j w Hw. destruct (Hq_inv _ _ Hw) as (i & -> & Hi). by apply py_getitem_nat.
Qed.

(** X3: [order_inverse] returns (a list of the length of its argument)
    exactly when every entry is an index Python accepts for that length,
    from [-n] to [n-1]; otherwise it raises [IndexError]. *)
Theorem order_inverse_index_error io :
  let n := Z.of_nat (length io) in
  (Forall (fun v => - n <= v < n) io ->
   exists q, order_inverse io = Ret q /\ length q = length io)
  /\ (~ Forall (fun v => - n <= v < n) io -> order_inverse io = Raise IndexError).
Proof.
  intros n.
  set (body := fun i : nat =>
                 v <~ lift (py_getitem io (Z.of_nat i)) ;;
                 fun res : list Z => match py_setitem res v (Z.of_nat i) with
                                     | Ret res' => (Ret tt, res')
                                     | Fail f => (Fail f, res)
                                     end).
  assert (forall k w res, io !! k = Some w -> length res = length io ->
                          (- n <= w < n ->
                           exists res', body k res = (Ret tt, res')
                                        /\ length res' = length io)
                          /\ (~ (- n <= w < n) -> (body k res).1 = Raise IndexError))
    as Hbody.
  { intros k w res Hw Hres. unfold body, bind, lift. rewrite (py_getitem_nat _ _ _ Hw).
    split; intros Hr.
    - destruct (py_setitem_ok res w (Z.of_nat k)) as [res' Hset]; [subst n; lia|].
      rewrite Hset. exists res'. split; [done|].
      apply py_setitem_length in Hset. congruence.
    - rewrite py_setitem_fail by (subst n; lia). done. }
  split.
  - intros Hall. rewrite Forall_forall in Hall.
    assert (hoare (fun res : list Z => length res = length io)
                  (mapM_ body (seq 0 (length io)))
                  (fun _ res => length res = length io /\ True) (fun _ _ => False)) as Hloop.
    { eapply hoare_post; [apply (hoare_mapM_ _ _ _ (fun _ _ => True))|by intros ? ? []].
      intros k Hk res Hres. apply elem_of_seq in Hk.
      destruct (lookup_lt_is_Some_2 io k ltac:(lia)) as [w Hw].
      destruct (Hbody k w res Hw Hres) as [Hok _].
      destruct (Hok (Hall w (list_elem_of_lookup_2 _ _ _ Hw))) as (res' & -> & Hl). done. }
    specialize (Hloop (replicate (length io) 0) (length_replicate _ _)).
    unfold order_inverse. fold body.
    destruct (mapM_ body _ _) as [[u|f] res]; [|done]. destruct Hloop as [Hres _]. eauto.
  - intros Hnot. apply not_Forall_Exists in Hnot; [|apply _].
    apply Exists_exists in Hnot as (v & Hv & Hbad).
    apply list_elem_of_lookup in Hv as (i & Hi).
    pose proof (lookup_lt_Some _ _ _ Hi) as Hlt.
    assert ((mapM_ body (seq 0 (length io)) (replicate (length io) 0)).1
            = Raise IndexError) as Hloop.
    { apply (mapM__fails body (fun res : list Z => length res = length io)).
      - intros k res1 Hk Hres. apply elem_of_seq in Hk.
        destruct (lookup_lt_is_Some_2 io k ltac:(lia)) as [w Hw].
        destruct (Hbody k w res1 Hw Hres) as [Hok Hno].
        destruct (decide (- n <= w < n)) as [Hr|Hr]; [left|right; by apply Hno].
        destruct (Hok Hr) as (res' & -> & Hl). eauto.
      - apply Exists_exists. exists i. split; [apply elem_of_seq; lia|].
        intros res1 Hres. by apply (Hbody i v res1 Hi Hres).
      - by rewrite length_replicate. }
    unfold order_inverse. fold body.
    destruct (mapM_ body _ _) as [[u|f] res]; cbn in Hloop; congruence.
Qed.

(** The theorem of X1 on the index order [[2; 0; 1]]. *)
Lemma order_inverse_left_inverse_witness :
  exists q, order_inverse [2; 0; 1] = Ret q
            /\ length q = 3%nat
            /\ (forall i v, [2; 0; 1] !! i = Some v -> py_getitem q v = Ret (Z.of_nat i))
            /\ q ≡ₚ py_range 3.
Proof.
  apply (order_inverse_left_inverse [2; 0; 1] 3).
  change (py_range 3) with [0; 1; 2]. solve_Permutation.
Defined.

(** The theorem of X2 on the index order [[2; 0; 1]]. *)
Lemma order_inverse_involutive_witness :
  exists q, order_inverse [2; 0; 1] = Ret q
            /\ order_inverse q = Ret [2; 0; 1]
            /\ (forall j w, q !! j = Some w -> py_getitem [2; 0; 1] w = Ret (Z.of_nat j)).
Proof.
  apply (order_inverse_involutive [2; 0; 1] 3).
  change (py_range 3) with [0; 1; 2]. solve_Permutation.
Defined.

(** ** Keys and the consistency of the unique table *)

Lemma key_parts_inj (k1 k2 : list Z) (r1 r2 : list (option addr)) :
  (KInt <$> k1) ++ (KRef <$> r1) = (KInt <$> k2) ++ (KRef <$> r2) ->
  k1 = k2 /\ r1 = r2.
Proof.
  revert k2. induction k1 as [|z k1 IH]; intros [|z2 k2] H; cbn in H.
  - split; [done|]. revert r2 H. induction r1 as [|x r1 IHr]; intros [|y r2] H;
      cbn in H; try discriminate; [done|].
    injection H as -> H. f_equal. by apply IHr.
  - destruct r1; discriminate.
  - destruct r2; discriminate.
  - injection H as -> H. destruct (IH _ H) as [-> ->]. done.
Qed.

Section TableFacts.
Context {R : Type} `{!FloatOps R}.
Implicit Types (s : State R).

(** The parts of a key can be read back from it. *)
Lemma get_unique_key_parts o1 o2 (w1 w2 : Tensor R) r1 r2 :
  get_unique_key o1 w1 r1 = get_unique_key o2 w2 r2 ->
  o1 = o2 /\ get_int_key w1 = get_int_key w2 /\ r1 = r2.
Proof.
  unfold get_unique_key. cbn. intros H. injection H as -> H.
  by apply key_parts_inj in H as [-> ->].
Qed.

(** X4: two calls build the same key exactly when they agree on the
    order, on the quantized elements of the weights and on the list of
    successor references; the shape of the weights plays no part, and the
    integers and the references of a key never mix. *)
Theorem get_unique_key_inj o1 o2 (w1 w2 : Tensor R) r1 r2 :
  get_unique_key o1 w1 r1 = get_unique_key o2 w2 r2
  <-> o1 = o2 /\ get_int_key w1 = get_int_key w2 /\ r1 = r2.
Proof.
  unfold get_unique_key. split.
  - cbn. intros H. injection H as -> H. by apply key_parts_inj in H as [-> ->].
  - by intros (-> & -> & ->).
Qed.

Lemma table_ok_initial : table_ok (initial_state (R:=R)).
Proof.
  split; [|split]; cbn.
  - intros k a H. by rewrite lookup_empty in H.
  - intros k1 k2 a1 a2 n1 n2 H. by rewrite lookup_empty in H.
  - done.
Qed.

Lemma table_ok_reset s : table_ok (reset s).2.
Proof.
  split; [|split]; cbn.
  - intros k a H. by rewrite lookup_empty in H.
  - intros k1 k2 a1 a2 n1 n2 H. by rewrite lookup_empty in H.
  - done.
Qed.

Lemma table_ok_get_unique_node s o w succs :
  table_ok s -> table_ok (get_unique_node o w succs s).2.
Proof.
  intros (Hent & Hid & Hsize).
  destruct (unique_table s !! get_unique_key o w succs) as [a|] eqn:E.
  { rewrite (get_unique_node_found _ _ _ _ _ E). by split. }
  rewrite (get_unique_node_fresh _ _ _ _ E). cbn.
  set (key := get_unique_key o w succs) in *.
  assert (0 <= global_node_id s) as Hge by lia.
  assert (forall k a, unique_table s !! k = Some a -> (a < length (nodes s))%nat) as Hlt.
  { intros k a Hk. destruct (Hent k a Hk) as (n & Hn & _). by eapply lookup_lt_Some. }
  split; [|split]; cbn.
  - intros k a Hk. destruct (decide (key = k)) as [<-|Hne].
    + rewrite lookup_insert_eq in Hk. injection Hk as <-.
      eexists. split; [by rewrite lookup_app_r, Nat.sub_diag|].
      split; [done|]. cbn. lia.
    + rewrite lookup_insert_ne in Hk by done.
      destruct (Hent k a Hk) as (n & Hn & Hkey & Hidn).
      exists n. split; [by apply lookup_app_l_Some|]. split; [done|lia].
  - intros k1 k2 a1 a2 n1 n2 H1 H2 Hn1 Hn2 Heq.
    destruct (decide (key = k1)) as [<-|Hne1]; destruct (decide (key = k2)) as [<-|Hne2];
      [done| | |].
    + rewrite lookup_insert_eq in H1. injection H1 as <-.
      rewrite lookup_insert_ne in H2 by done.
      rewrite lookup_app_r, Nat.sub_diag in Hn1 by done. injection Hn1 as <-.
      destruct (Hent k2 a2 H2) as (n & Hn & _ & Hidn).
      rewrite (lookup_app_l_Some _ _ _ _ Hn) in Hn2. injection Hn2 as <-.
      cbn in Heq. lia.
    + rewrite lookup_insert_eq in H2. injection H2 as <-.
      rewrite lookup_insert_ne in H1 by done.
      rewrite lookup_app_r, Nat.sub_diag in Hn2 by done. injection Hn2 as <-.
      destruct (Hent k1 a1 H1) as (n & Hn & _ & Hidn).
      rewrite (lookup_app_l_Some _ _ _ _ Hn) in Hn1. injection Hn1 as <-.
      cbn in Heq. lia.
    + rewrite lookup_insert_ne in H1, H2 by done.
      destruct (Hent k1 a1 H1) as (m1 & Hm1 & _). destruct (Hent k2 a2 H2) as (m2 & Hm2 & _).
      rewrite (lookup_app_l_Some _ _ _ _ Hm1) in Hn1.
      rewrite (lookup_app_l_Some _ _ _ _ Hm2) in Hn2.
      eapply (Hid k1 k2); eauto. congruence.
  - rewrite map_size_insert_None by done. lia.
Qed.

End TableFacts.

(** ** Properties of the state that every operation keeps *)

Section Preserve.
Context {R : Type} `{!FloatOps R}.
Variable I : State R -> Prop.
Hypothesis I_get_unique_node :
  forall o w succs s, I s -> I (get_unique_node o w succs s).2.

Local Abbreviation keeps c := (hoare I c (fun _ s => I s /\ True) (fun _ s => I s)).

Lemma keeps_get_unique_node o w succs : keeps (get_unique_node o w succs).
Proof.
  intros s Hs. pose proof (I_get_unique_node o w succs s Hs) as H.
  destruct (get_unique_node o w succs s) as [[a|f] s']; done.
Qed.

Lemma keeps_lift {A} (o : Outcome A) : keeps (lift o).
Proof. apply hoare_lift. intros s Hs. by destruct o. Qed.

Lemma keeps_get_node a : keeps (get_node a).
Proof. intros s Hs. unfold get_node. by destruct (nodes s !! a). Qed.

Lemma keeps_bind {A B} (c : M (State R) A) (k : A -> M (State R) B) :
  keeps c -> (forall a, keeps (k a)) -> keeps (bind c k).
Proof.
  intros Hc Hk. eapply hoare_bind; [exact Hc|].
  intros a. apply hoare_pre_pure. intros _. apply Hk.
Qed.

Lemma keeps_mapM_ {A B} (f : A -> M (State R) B) l :
  (forall x, keeps (f x)) -> keeps (mapM_ f l).
Proof.
  intros Hf. eapply hoare_post; [apply (hoare_mapM_ I f l (fun _ _ => True))|].
  - intros x _. apply Hf.
  - by intros ys s [Hs _].
Qed.

Lemma keeps_ret {A} (a : A) : keeps (ret a).
Proof. by apply hoare_ret. Qed.

Lemma keeps_fail {A} f : keeps (fail (A:=A) f).
Proof. by apply hoare_fail. Qed.

Lemma duplicate_keeps fuel :
  forall node ps o ahead behind, keeps (duplicate fuel node ps o ahead behind).
Proof.
  induction fuel as [|fuel IH]; intros node ps o ahead behind; [apply keeps_fail|].
  cbn [duplicate]. destruct node as [a|]; [|apply keeps_ret].
  apply keeps_bind; [apply keeps_get_node|]. intros n.
  apply keeps_bind; [apply keeps_lift|]. intros w1.
  apply keeps_bind; [apply keeps_lift|]. intros w2.
  apply keeps_bind; [apply keeps_mapM_; intros x; apply IH|]. intros succs.
  apply keeps_bind; [apply keeps_get_unique_node|]. intros r. apply keeps_ret.
Qed.

Lemma direct_append_keeps fuel : forall a b, keeps (direct_append fuel a b).
Proof.
  induction fuel as [|fuel IH]; intros a b; [apply keeps_fail|].
  cbn [direct_append]. destruct a as [x|]; [|apply keeps_ret].
  apply keeps_bind; [apply keeps_get_node|]. intros n.
  apply keeps_bind; [apply keeps_mapM_; intros y; apply IH|]. intros succs.
  apply keeps_bind; [apply keeps_get_unique_node|]. intros r. apply keeps_ret.
Qed.

Lemma append_keeps fuel a psa depth b psb pt : keeps (append fuel a psa depth b psb pt).
Proof.
  unfold append. destruct pt; cbn [negb].
  - apply keeps_bind; [apply duplicate_keeps|]. intros bb.
    apply keeps_bind; [apply duplicate_keeps|]. intros ab. apply direct_append_keeps.
  - apply keeps_bind; [apply duplicate_keeps|]. intros m. apply direct_append_keeps.
Qed.

Hypothesis I_storage :
  forall s, I s -> I (mkState (nodes s) (unique_table s) (global_node_id s) (lists s)
                              (S (next_storage s))).
Hypothesis I_list :
  forall s l, I s -> I (mkState (nodes s) (unique_table s) (global_node_id s)
                                (lists s ++ [l]) (next_storage s)).

Lemma keeps_tensor_clone t : keeps (tensor_clone t).
Proof. intros s Hs. cbn. split; [by apply I_storage|done]. Qed.

Lemma keeps_new_tensor sh d : keeps (new_tensor sh d).
Proof. intros s Hs. cbn. split; [by apply I_storage|done]. Qed.

Lemma keeps_alloc_list l : keeps (alloc_list l).
Proof. intros s Hs. cbn. split; [by apply I_list|done]. Qed.

Lemma keeps_read_list a : keeps (read_list a).
Proof. intros s Hs. unfold read_list. by destruct (lists s !! a). Qed.

Lemma keeps_tensor_stack ts : keeps (tensor_stack ts).
Proof.
  unfold tensor_stack. destruct ts as [|t ts]; [apply keeps_fail|].
  destruct (forallb _ _); [apply keeps_new_tensor|apply keeps_fail].
Qed.

Context `{!NormPolicy R}.

Lemma keeps_normalized raw dw flag : keeps (normalized raw dw flag).
Proof.
  unfold normalized. destruct (norm_degenerate _ _ _) as [d|].
  { apply keeps_bind; [apply keeps_new_tensor|]. intros nw. apply keeps_ret. }
  apply keeps_bind; [apply keeps_new_tensor|]. intros reduced.
  apply keeps_bind; [apply keeps_new_tensor|]. intros nw.
  apply keeps_bind; [apply keeps_get_unique_node|]. intros r. apply keeps_ret.
Qed.

Lemma as_tensor_iterate_keeps fuel :
  forall t ps ioa depth, keeps (as_tensor_iterate fuel t ps ioa depth).
Proof.
  induction fuel as [|fuel IH]; intros t ps ioa depth; [apply keeps_fail|].
  cbn [as_tensor_iterate].
  apply keeps_bind; [apply keeps_read_list|]. intros io.
  apply keeps_bind.
  { case_decide; [apply keeps_alloc_list|apply keeps_ret]. }
  intros ioa'. case_decide.
  - apply keeps_bind.
    { case_decide; [apply keeps_tensor_clone|].
      apply keeps_bind; [apply keeps_lift|]. intros t1.
      apply keeps_bind; [apply keeps_tensor_clone|]. intros t2. apply keeps_lift. }
    intros w. apply keeps_bind; [apply keeps_alloc_list|]. intros e. apply keeps_ret.
  - apply keeps_bind; [apply keeps_read_list|]. intros io'.
    apply keeps_bind; [apply keeps_lift|]. intros split_pos.
    apply keeps_bind; [apply keeps_lift|]. intros split_tensor.
    apply keeps_bind; [apply keeps_lift|]. intros m.
    apply keeps_bind.
    { apply keeps_mapM_. intros k. apply keeps_bind; [apply keeps_lift|]. intros tk.
      apply IH. }
    intros the_successors.
    apply keeps_bind; [apply keeps_tensor_stack|]. intros ow.
    apply keeps_bind; [apply keeps_new_tensor|]. intros dw.
    apply keeps_bind; [apply keeps_normalized|]. intros nw.
    apply keeps_bind; [apply keeps_alloc_list|]. intros e. apply keeps_ret.
Qed.

Lemma as_tensor_keeps data : keeps (as_tensor data).
Proof.
  unfold as_tensor.
  apply keeps_bind.
  { destruct data; [|apply keeps_ret].
    apply keeps_bind; [apply keeps_alloc_list|]. intros e. apply keeps_ret. }
  intros args.
  apply keeps_bind.
  { destruct (args.1.1); [apply keeps_ret|apply keeps_new_tensor]. }
  intros tensor.
  apply keeps_bind; [apply keeps_read_list|]. intros io.
  apply keeps_bind.
  { case_decide; apply keeps_alloc_list. }
  intros rio.
  apply keeps_bind; [apply keeps_read_list|]. intros rio_l.
  case_decide; [apply keeps_fail|].
  apply keeps_bind; [apply as_tensor_iterate_keeps|]. intros res. apply keeps_ret.
Qed.

Lemma TDD_clone_keeps t : keeps (TDD_clone t).
Proof.
  unfold TDD_clone.
  apply keeps_bind; [apply keeps_tensor_clone|]. intros w.
  apply keeps_bind; [apply keeps_read_list|]. intros io.
  apply keeps_bind; [apply keeps_alloc_list|]. intros a. apply keeps_ret.
Qed.

End Preserve.

Lemma keeps_state {R A} (I : State R -> Prop) (c : M (State R) A) s :
  hoare I c (fun _ s => I s /\ True) (fun _ s => I s) -> I s -> I (c s).2.
Proof.
  intros Hc Hs. specialize (Hc s Hs). destruct (c s) as [[a|f] s']; [by destruct Hc|done].
Qed.

Section Reachable.
Context {R : Type} `{!FloatOps R} `{!NormPolicy R}.
Implicit Types (s : State R).

Lemma table_ok_storage s :
  table_ok s ->
  table_ok (mkState (nodes s) (unique_table s) (global_node_id s) (lists s)
                    (S (next_storage s))).
Proof. intros H. exact H. Qed.

Lemma table_ok_list s l :
  table_ok s ->
  table_ok (mkState (nodes s) (unique_table s) (global_node_id s) (lists s ++ [l])
                    (next_storage s)).
Proof. intros H. exact H. Qed.

(** X5: in every state reached from a fresh process by calls of
    [get_unique_node], [reset], [duplicate], [append], [as_tensor] and
    [clone] (returning or raising), the unique table is consistent: each
    entry is a Node object stored under its own key, the ids of the
    entries are pairwise distinct and lie between 1 and the counter, and
    the counter is the number of entries. *)
Theorem table_ok_reachable (cmds : list (Cmd R)) :
  table_ok (foldl exec initial_state cmds).
Proof.
  assert (forall s, table_ok s -> table_ok (foldl exec s cmds)) as Hgen;
    [|apply Hgen, table_ok_initial].
  induction cmds as [|c cmds IH]; intros s Hs; [done|].
  cbn [foldl]. apply IH. destruct c; cbn [exec].
  - by apply table_ok_get_unique_node.
  - apply table_ok_reset.
  - apply keeps_state; [|done]. apply duplicate_keeps.
    intros. by apply table_ok_get_unique_node.
  - apply keeps_state; [|done]. apply append_keeps.
    intros. by apply table_ok_get_unique_node.
  - apply keeps_state; [|done].
    apply as_tensor_keeps;
      [intros; by apply table_ok_get_unique_node|apply table_ok_storage|apply table_ok_list].
  - apply keeps_state; [|done].
    apply TDD_clone_keeps; [apply table_ok_storage|apply table_ok_list].
Qed.

(** X6: on a consistent table, when [get_unique_node] returns, the Node
    object it returns, new or found, has the requested order and
    successor list, weights that quantize to the same integers as the
    requested ones, and an id between 1 and the counter. *)
Theorem get_unique_node_returns_match s o w succs a s' :
  table_ok s ->
  get_unique_node o w succs s = (Ret a, s') ->
  exists n,
    nodes s' !! a = Some n
    /\ order n = o /\ successors n = succs
    /\ get_int_key (out_weights n) = get_int_key w
    /\ 1 <= node_id n <= global_node_id s'.
Proof.
  intros Hok Hrun.
  pose proof (table_ok_get_unique_node s o w succs Hok) as Hok'.
  destruct (get_unique_node_spec s o w succs) as (a0 & s0 & Heq & Hin & _).
  rewrite Heq in Hok', Hrun. injection Hrun as -> ->.
  cbn in Hok'. destruct Hok' as (Hent & _).
  destruct (Hent _ _ Hin) as (n & Hn & Hkey & Hid).
  apply get_unique_key_parts in Hkey as (Ho & Hw & Hs).
  exists n. done.
Qed.

Lemma frame_get_unique_node s0 o w succs s :
  extends s0 s /\ table_kept s0 s ->
  extends s0 (get_unique_node o w succs s).2
  /\ table_kept s0 (get_unique_node o w succs s).2.
Proof.
  intros [He Hk]. split.
  - eapply extends_trans; [done|apply get_unique_node_extends].
  - destruct (get_unique_node_spec s o w succs) as (a & s' & Heq & _ & Hmono & _).
    rewrite Heq. cbn. intros k b Hb. apply Hmono. by apply Hk.
Qed.

(** X7: [duplicate], [__direct_append] and [append], whether they
    return or raise, change no existing Node or list object, give every
    Node object they allocate a weight storage of its own, and remove no
    entry of the unique table. *)
Theorem node_operations_frame fuel s node ps o ahead behind a b psa depth psb pt :
  (extends s (duplicate fuel node ps o ahead behind s).2
   /\ table_kept s (duplicate fuel node ps o ahead behind s).2)
  /\ (extends s (direct_append fuel a b s).2
      /\ table_kept s (direct_append fuel a b s).2)
  /\ (extends s (append fuel a psa depth b psb pt s).2
      /\ table_kept s (append fuel a psa depth b psb pt s).2).
Proof.
  assert (extends s s /\ table_kept s s) as Hrefl.
  { split; [apply extends_refl|by intros ? ?]. }
  split; [|split].
  - apply (keeps_state (fun x => extends s x /\ table_kept s x)); [|done].
    apply duplicate_keeps. intros. by apply frame_get_unique_node.
  - apply (keeps_state (fun x => extends s x /\ table_kept s x)); [|done].
    apply direct_append_keeps. intros. by apply frame_get_unique_node.
  - apply (keeps_state (fun x => extends s x /\ table_kept s x)); [|done].
    apply append_keeps. intros. by apply frame_get_unique_node.
Qed.

(** X8: [as_tensor], on a tensor or a tuple, returning or raising,
    changes no existing Node or list object and removes no entry of the
    unique table. *)
Theorem as_tensor_exception_safe s data :
  extends s (as_tensor data s).2 /\ table_kept s (as_tensor data s).2.
Proof.
  apply (keeps_state (fun x => extends s x /\ table_kept s x)).
  - apply as_tensor_keeps.
    + intros. by apply frame_get_unique_node.
    + intros x [He Hk]. split; [|done].
      eapply extends_trans; [done|apply extends_step_storage].
    + intros x l [He Hk]. split; [|done].
      eapply extends_trans; [done|apply extends_step_list].
  - split; [apply extends_refl|by intros ? ?].
Qed.

(** X9: [clone] returns a TDD with the same node reference and data
    shape, weights with the same shape and elements in a new storage, and
    a new list object holding the same index order, so that assigning to
    the index order of the clone or of the original does not show in the
    other; the nodes, the unique table and the counter are untouched. *)
Theorem TDD_clone_copy s t io :
  lists s !! index_order t = Some io ->
  exists res s',
    TDD_clone t s = (Ret res, s')
    /\ node res = node t /\ data_shape res = data_shape t
    /\ shape (weights res) = shape (weights t) /\ data (weights res) = data (weights t)
    /\ storage (weights res) = next_storage s
    /\ index_order res = length (lists s)
    /\ lists s' = lists s ++ [io]
    /\ (forall v, lists (write_list (index_order res) v s') !! index_order t = Some io)
    /\ (forall v, lists (write_list (index_order t) v s') !! index_order res = Some io)
    /\ nodes s' = nodes s /\ unique_table s' = unique_table s
    /\ global_node_id s' = global_node_id s.
Proof.
  intros Hio. pose proof (lookup_lt_Some _ _ _ Hio) as Hlt.
  eexists _, _. split.
  { unfold TDD_clone, bind, tensor_clone, read_list, alloc_list, ret. cbn. by rewrite Hio. }
  cbn. do 7 (split; [done|]). split; [|split; [|done]].
  - intros v. rewrite list_lookup_insert_ne by lia. by apply lookup_app_l_Some.
  - intros v. rewrite list_lookup_insert_ne by lia.
    by rewrite lookup_app_r, Nat.sub_diag.
Qed.

End Reachable.

(** The theorem of X6 on the first creation in a fresh process. *)
Lemma get_unique_node_returns_match_witness :
  exists a n s',
    get_unique_node 0 w_1_i [None; None] (initial_state (R:=Q)) = (Ret a, s')
    /\ nodes s' !! a = Some n
    /\ order n = 0 /\ successors n = [None; None]
    /\ get_int_key (out_weights n) = get_int_key w_1_i
    /\ 1 <= node_id n <= global_node_id s'.
Proof.
  destruct (get_unique_node 0 w_1_i [None; None] (initial_state (R:=Q)))
    as [[a|f] s'] eqn:E; [|by vm_compute in E].
  destruct (get_unique_node_returns_match (initial_state (R:=Q)) 0 w_1_i [None; None] a s'
              table_ok_initial E) as (n & Hn).
  exists a, n, s'. split; [reflexivity|exact Hn].
Defined.

(** The theorem of X9 on a TDD whose index order is the list at address
    1 of [st_import]. *)
Lemma TDD_clone_copy_witness :
  exists res s',
    TDD_clone (mkTDD identity_2x2 [2; 2]%nat None 1%nat) st_import = (Ret res, s')
    /\ node res = None /\ data_shape res = [2; 2]%nat
    /\ shape (weights res) = [2; 2; 2]%nat /\ data (weights res) = data identity_2x2
    /\ storage (weights res) = 1%nat
    /\ index_order res = 3%nat
    /\ lists s' = lists st_import ++ [[0; 1]]
    /\ (forall v, lists (write_list (index_order res) v s') !! 1%nat = Some [0; 1])
    /\ (forall v, lists (write_list 1%nat v s') !! index_order res = Some [0; 1])
    /\ nodes s' = nodes st_import /\ unique_table s' = unique_table st_import
    /\ global_node_id s' = global_node_id st_import.
Proof.
  apply (TDD_clone_copy st_import (mkTDD identity_2x2 [2; 2]%nat None 1%nat) [0; 1]).
  reflexivity.
Defined.

(** ** Canonical diagrams under duplication and grafting *)

Lemma tensor_broadcast_to_fail {R} (t : Tensor R) sh f :
  tensor_broadcast_to t sh = Fail f -> f = Raised RuntimeError.
Proof. unfold tensor_broadcast_to. repeat case_match; congruence. Qed.

Lemma numel_replicate_1 k : numel (replicate k 1%nat) = 1%nat.
Proof. apply numel_ones. apply Forall_replicate. done. Qed.

Section Canonical.
Context {R : Type} `{!FloatOps R}.
Implicit Types (s : State R).

(** [s'] is [s] after allocations and insertions into the table only. *)
Local Abbreviation grows s s' := (extends s s' /\ table_kept s s').

Lemma grows_refl s : grows s s.
Proof. split; [apply extends_refl|by intros ? ?]. Qed.

Lemma grows_trans s1 s2 s3 : grows s1 s2 -> grows s2 s3 -> grows s1 s3.
Proof.
  intros [He1 Hk1] [He2 Hk2]. split; [by eapply extends_trans|].
  intros k a H. by apply Hk2, Hk1.
Qed.

Lemma interned_grows fuel s s' node :
  grows s s' -> interned fuel s node = true -> interned fuel s' node = true.
Proof.
  intros [He Hk]. revert node. induction fuel as [|fuel IH]; intros node H; [done|].
  cbn [interned] in *. destruct node as [a|]; [|done].
  destruct (nodes s !! a) as [n|] eqn:En; [|discriminate].
  rewrite (extends_nodes _ _ _ _ He En).
  apply andb_prop in H as [Hkey Hsuccs]. apply bool_decide_eq_true in Hkey.
  apply andb_true_intro. split; [apply bool_decide_eq_true; by apply Hk|].
  apply forallb_forall. rewrite forallb_forall in Hsuccs. intros r Hr. by apply IH, Hsuccs.
Qed.

Lemma interned_more_fuel fuel fuel' s node :
  (fuel <= fuel')%nat -> interned fuel s node = true -> interned fuel' s node = true.
Proof.
  revert fuel' node. induction fuel as [|fuel IH]; intros fuel' node Hle H; [done|].
  destruct fuel' as [|fuel']; [lia|].
  cbn [interned] in *. destruct node as [a|]; [|done].
  destruct (nodes s !! a) as [n|]; [|discriminate].
  apply andb_prop in H as [Hkey Hsuccs].
  apply andb_true_intro. split; [done|].
  apply forallb_forall. rewrite forallb_forall in Hsuccs. intros r Hr.
  apply (IH fuel'); [lia|by apply Hsuccs].
Qed.

(** What a call of [get_unique_node] on a consistent table gives. *)
Lemma get_unique_node_full s o w succs :
  table_ok s ->
  exists r n s',
    get_unique_node o w succs s = (Ret r, s')
    /\ table_ok s' /\ grows s s'
    /\ nodes s' !! r = Some n
    /\ unique_table s' !! unique_key n = Some r
    /\ order n = o /\ successors n = succs
    /\ get_int_key (out_weights n) = get_int_key w.
Proof.
  intros Hok.
  pose proof (table_ok_get_unique_node s o w succs Hok) as Hok'.
  pose proof (frame_get_unique_node s o w succs s (grows_refl s)) as Hgr.
  destruct (get_unique_node_spec s o w succs) as (r & s' & Heq & Hin & _).
  rewrite Heq in Hok', Hgr. cbn in Hok', Hgr.
  destruct (proj1 Hok' _ _ Hin) as (n & Hn & Hkey & _).
  exists r, n, s'. split; [done|]. split; [done|]. split; [done|]. split; [done|].
  split; [by rewrite Hkey|].
  unfold unique_key in Hkey. apply get_unique_key_parts in Hkey as (? & ? & ?). done.
Qed.

(** A loop of calls that each keep the table consistent, only let the
    state grow, and return values whose property [V] survives growth. *)
Lemma mapM__grows {A B} (f : A -> M (State R) B) (Pre : A -> State R -> Prop)
      (V : A -> B -> State R -> Prop) (F : Failure -> Prop) (l : list A) :
  (forall x s s', Pre x s -> grows s s' -> Pre x s') ->
  (forall x y s s', V x y s -> grows s s' -> V x y s') ->
  (forall x s, x ∈ l -> table_ok s -> Pre x s ->
               match f x s with
               | (Ret y, s') => table_ok s' /\ grows s s' /\ V x y s'
               | (Fail e, _) => F e
               end) ->
  forall s, table_ok s -> Forall (fun x => Pre x s) l ->
            match mapM_ f l s with
            | (Ret ys, s') => table_ok s' /\ grows s s' /\ Forall2 (fun x y => V x y s') l ys
            | (Fail e, _) => F e
            end.
Proof.
  intros Hpre HV. induction l as [|x l IH]; intros Hf s Hok Hall.
  - cbn. split; [done|]. split; [apply grows_refl|constructor].
  - cbn [mapM_]. unfold bind at 1.
    apply Forall_cons in Hall as [Hx Hall].
    pose proof (Hf x s ltac:(left) Hok Hx) as Hfx.
    destruct (f x s) as [[y|e] s1]; [|done].
    destruct Hfx as (Hok1 & Hgr1 & Hy).
    unfold bind at 1.
    assert (Forall (fun z => Pre z s1) l) as Hall1.
    { eapply Forall_impl; [exact Hall|]. cbn. intros z Hz. exact (Hpre _ _ _ Hz Hgr1). }
    assert (forall z s2, z ∈ l -> table_ok s2 -> Pre z s2 ->
                         match f z s2 with
                         | (Ret y, s') => table_ok s' /\ grows s2 s' /\ V z y s'
                         | (Fail e, _) => F e
                         end) as Hf'.
    { intros z s2 Hz. apply Hf. by right. }
    pose proof (IH Hf' s1 Hok1 Hall1) as Hrest.
    destruct (mapM_ f l s1) as [[ys|e] s2]; [|done].
    destruct Hrest as (Hok2 & Hgr2 & Hys). cbn.
    split; [done|]. split; [by eapply grows_trans|].
    constructor; [exact (HV _ _ _ _ Hy Hgr2)|done].
Qed.

Lemma interned_node fuel s a :
  interned (S fuel) s (Some a) = true ->
  exists n, nodes s !! a = Some n
            /\ unique_table s !! unique_key n = Some a
            /\ Forall (fun r => interned fuel s r = true) (successors n).
Proof.
  cbn [interned]. destruct (nodes s !! a) as [n|]; [|discriminate].
  intros H. apply andb_prop in H as [Hkey Hsuccs]. apply bool_decide_eq_true in Hkey.
  exists n. split; [done|]. split; [done|].
  apply Forall_forall. rewrite forallb_forall in Hsuccs. intros r Hr.
  apply Hsuccs. by apply list_elem_of_In.
Qed.

Lemma interned_intro fuel s a n :
  nodes s !! a = Some n ->
  unique_table s !! unique_key n = Some a ->
  Forall (fun r => interned fuel s r = true) (successors n) ->
  interned (S fuel) s (Some a) = true.
Proof.
  intros Hn Hkey Hsuccs. cbn [interned]. rewrite Hn.
  apply andb_true_intro. split; [by apply bool_decide_eq_true|].
  apply forallb_forall. rewrite Forall_forall in Hsuccs. intros r Hr.
  apply Hsuccs. by apply list_elem_of_In.
Qed.

Lemma Forall2_Forall_r_const {A B} (P : B -> Prop) (l : list A) (ys : list B) :
  Forall2 (fun _ y => P y) l ys -> Forall P ys.
Proof. induction 1; by constructor. Qed.

Lemma duplicate_canonical fuel :
  forall s node ps o ahead behind,
    table_ok s -> interned fuel s node = true ->
    match duplicate fuel node ps o ahead behind s with
    | (Ret r, s') => table_ok s' /\ grows s s' /\ interned fuel s' r = true
    | (Fail e, _) => e = Raised RuntimeError
    end.
Proof.
  induction fuel as [|fuel IH]; intros s node ps o ahead behind Hok Hint; [discriminate|].
  destruct node as [a|]; [|by split; [|split; [apply grows_refl|]]].
  destruct (interned_node _ _ _ Hint) as (n & Hn & Hkey & Hsuccs).
  cbn [duplicate]. rewrite (bind_ret_eq _ _ _ _ _ (get_node_eq _ _ _ Hn)).
  unfold bind at 1, lift at 1.
  destruct (tensor_view _ _) as [w1|e] eqn:Ev; [|by apply tensor_view_fail in Ev].
  unfold bind at 1, lift at 1.
  destruct (tensor_broadcast_to _ _) as [w2|e] eqn:Eb;
    [|by apply tensor_broadcast_to_fail in Eb].
  unfold bind at 1.
  pose proof (mapM__grows (fun x => duplicate fuel x ps o ahead [])
                (fun x s1 => interned fuel s1 x = true)
                (fun _ y s1 => interned fuel s1 y = true)
                (fun e => e = Raised RuntimeError) (successors n)) as Hloop.
  specialize (Hloop (fun x s1 s2 Hx Hgr => interned_grows fuel s1 s2 x Hgr Hx)
                    (fun _ y s1 s2 Hy Hgr => interned_grows fuel s1 s2 y Hgr Hy)).
  specialize (Hloop (fun x s1 _ Hok1 Hx => IH s1 x ps o ahead [] Hok1 Hx) s Hok Hsuccs).
  destruct (mapM_ _ _ s) as [[ys|e] s1]; [|done].
  destruct Hloop as (Hok1 & Hgr1 & Hys). apply Forall2_Forall_r_const in Hys.
  destruct (get_unique_node_full s1 (order n + o) w2 ys Hok1)
    as (r & n' & s2 & Heq & Hok2 & Hgr2 & Hn' & Hkey' & _ & Hsn' & _).
  unfold bind. rewrite Heq. cbn.
  split; [done|]. split; [by eapply grows_trans|].
  apply (interned_intro _ _ _ n'); [done|done|]. rewrite Hsn'.
  eapply Forall_impl; [exact Hys|]. cbn. intros y Hy. by eapply interned_grows.
Qed.

Lemma direct_append_canonical fuel :
  forall s a b fb,
    table_ok s -> interned fuel s a = true -> interned fb s b = true ->
    match direct_append fuel a b s with
    | (Ret r, s') => table_ok s' /\ grows s s' /\ interned (fuel + fb) s' r = true
    | (Fail e, _) => False
    end.
Proof.
  induction fuel as [|fuel IH]; intros s a b fb Hok Ha Hb; [discriminate|].
  destruct a as [x|].
  2: { cbn [direct_append]. unfold ret. split; [done|]. split; [apply grows_refl|].
       apply (interned_more_fuel fb); [lia|done]. }
  destruct (interned_node _ _ _ Ha) as (n & Hn & Hkey & Hsuccs).
  cbn [direct_append]. rewrite (bind_ret_eq _ _ _ _ _ (get_node_eq _ _ _ Hn)).
  unfold bind at 1.
  pose proof (mapM__grows (fun y => direct_append fuel y b)
                (fun y s1 => interned fuel s1 y = true /\ interned fb s1 b = true)
                (fun _ y s1 => interned (fuel + fb) s1 y = true)
                (fun _ => False) (successors n)) as Hloop.
  specialize (Hloop (fun y s1 s2 Hy Hgr =>
                       conj (interned_grows fuel s1 s2 y Hgr (proj1 Hy))
                            (interned_grows fb s1 s2 b Hgr (proj2 Hy)))
                    (fun _ y s1 s2 Hy Hgr => interned_grows _ s1 s2 y Hgr Hy)).
  specialize (Hloop (fun y s1 _ Hok1 Hy => IH s1 y b fb Hok1 (proj1 Hy) (proj2 Hy)) s Hok).
  assert (Forall (fun y => interned fuel s y = true /\ interned fb s b = true)
                 (successors n)) as Hpre.
  { eapply Forall_impl; [exact Hsuccs|]. cbn. done. }
  specialize (Hloop Hpre).
  destruct (mapM_ _ _ s) as [[ys|e] s1]; [|done].
  destruct Hloop as (Hok1 & Hgr1 & Hys). apply Forall2_Forall_r_const in Hys.
  destruct (get_unique_node_full s1 (order n) (out_weights n) ys Hok1)
    as (r & n' & s2 & Heq & Hok2 & Hgr2 & Hn' & Hkey' & _ & Hsn' & _).
  unfold bind. rewrite Heq. cbn.
  split; [done|]. split; [by eapply grows_trans|].
  apply (interned_intro _ _ _ n'); [done|done|]. rewrite Hsn'.
  eapply Forall_impl; [exact Hys|]. cbn. intros y Hy. by eapply interned_grows.
Qed.

(** X10: on a consistent table, [duplicate] of a diagram whose nodes are
    all entries of the table either raises [RuntimeError] (from the view
    or the broadcast of some weights) or returns a node with the order of
    the original plus [init_order] and as many successors, below which
    all nodes are again entries of the table; the original node is
    unchanged. *)
Theorem duplicate_root_canonical fuel s a n ps o ahead behind :
  table_ok s -> interned (S fuel) s (Some a) = true -> nodes s !! a = Some n ->
  match duplicate (S fuel) (Some a) ps o ahead behind s with
  | (Ret r, s') =>
      exists a' n', r = Some a' /\ nodes s' !! a' = Some n'
                    /\ order n' = order n + o
                    /\ index_range n' = index_range n
                    /\ interned (S fuel) s' r = true
                    /\ table_ok s' /\ nodes s' !! a = Some n
  | (Fail e, _) => e = Raised RuntimeError
  end.
Proof.
  intros Hok Hint Hn.
  destruct (interned_node _ _ _ Hint) as (n0 & Hn0 & Hkey & Hsuccs).
  assert (n0 = n) as -> by congruence.
  cbn [duplicate]. rewrite (bind_ret_eq _ _ _ _ _ (get_node_eq _ _ _ Hn)).
  unfold bind at 1, lift at 1.
  destruct (tensor_view _ _) as [w1|e] eqn:Ev; [|by apply tensor_view_fail in Ev].
  unfold bind at 1, lift at 1.
  destruct (tensor_broadcast_to _ _) as [w2|e] eqn:Eb;
    [|by apply tensor_broadcast_to_fail in Eb].
  unfold bind at 1.
  pose proof (mapM__grows (fun x => duplicate fuel x ps o ahead [])
                (fun x s1 => interned fuel s1 x = true)
                (fun _ y s1 => interned fuel s1 y = true)
                (fun e => e = Raised RuntimeError) (successors n)
                (fun x s1 s2 Hx Hgr => interned_grows fuel s1 s2 x Hgr Hx)
                (fun _ y s1 s2 Hy Hgr => interned_grows fuel s1 s2 y Hgr Hy)
                (fun x s1 _ Hok1 Hx => duplicate_canonical fuel s1 x ps o ahead [] Hok1 Hx)
                s Hok Hsuccs) as Hloop.
  destruct (mapM_ _ _ s) as [[ys|e] s1]; [|done].
  destruct Hloop as (Hok1 & Hgr1 & Hys).
  pose proof (Forall2_length _ _ _ Hys) as Hlen.
  apply Forall2_Forall_r_const in Hys.
  destruct (get_unique_node_full s1 (order n + o) w2 ys Hok1)
    as (r & n' & s2 & Heq & Hok2 & Hgr2 & Hn' & Hkey' & Ho & Hsn' & _).
  unfold bind. rewrite Heq. cbn.
  exists r, n'. split; [done|]. split; [done|]. split; [done|].
  split; [unfold index_range; by rewrite Hsn'|].
  split.
  { apply (interned_intro _ _ _ n'); [done|done|]. rewrite Hsn'.
    eapply Forall_impl; [exact Hys|]. cbn. intros y Hy. by eapply interned_grows. }
  split; [done|].
  apply (extends_nodes s1); [apply Hgr2|]. by apply (extends_nodes s); [apply Hgr1|].
Qed.

(** X11: on a consistent table, [append] (in either mode) of two
    diagrams whose nodes are all entries of the table either raises
    [RuntimeError] or returns a diagram whose nodes are all entries of the
    table; the table stays consistent and existing objects and entries
    are kept. *)
Theorem append_canonical fuel s a psa depth b psb pt :
  table_ok s -> interned fuel s a = true -> interned fuel s b = true ->
  match append fuel a psa depth b psb pt s with
  | (Ret r, s') => table_ok s' /\ interned (fuel + fuel) s' r = true
                   /\ extends s s' /\ table_kept s s'
  | (Fail e, _) => e = Raised RuntimeError
  end.
Proof.
  intros Hok Ha Hb. unfold append. destruct pt; cbn [negb].
  - unfold bind at 1.
    pose proof (duplicate_canonical fuel s b psb depth psa [] Hok Hb) as Hdb.
    destruct (duplicate fuel b psb depth psa [] s) as [[bb|e] s1]; [|done].
    destruct Hdb as (Hok1 & Hgr1 & Hbb).
    unfold bind at 1.
    pose proof (duplicate_canonical fuel s1 a psa 0 [] psb Hok1
                  (interned_grows _ _ _ _ Hgr1 Ha)) as Hda.
    destruct (duplicate fuel a psa 0 [] psb s1) as [[ab|e] s2]; [|done].
    destruct Hda as (Hok2 & Hgr2 & Hab).
    pose proof (direct_append_canonical fuel s2 ab bb fuel Hok2 Hab
                  (interned_grows _ _ _ _ Hgr2 Hbb)) as Hap.
    destruct (direct_append fuel ab bb s2) as [[r|e] s3]; [|done].
    destruct Hap as (Hok3 & Hgr3 & Hr).
    split; [done|]. split; [done|].
    apply (grows_trans s s1); [done|]. by apply (grows_trans s1 s2).
  - unfold bind at 1.
    pose proof (duplicate_canonical fuel s b psb depth [] [] Hok Hb) as Hdb.
    destruct (duplicate fuel b psb depth [] [] s) as [[m|e] s1]; [|done].
    destruct Hdb as (Hok1 & Hgr1 & Hm).
    pose proof (direct_append_canonical fuel s1 a m fuel Hok1
                  (interned_grows _ _ _ _ Hgr1 Ha) Hm) as Hap.
    destruct (direct_append fuel a m s1) as [[r|e] s2]; [|done].
    destruct Hap as (Hok2 & Hgr2 & Hr).
    split; [done|]. split; [done|]. by apply (grows_trans s s1).
Qed.

(** X12: when [__direct_append] returns on a node, the result is a node
    with the same order, weights that quantize to the same integers, and
    one successor per successor of the original, which is [b] wherever
    the original successor is the terminal. *)
Theorem direct_append_grafts fuel s a n b :
  table_ok s -> nodes s !! a = Some n ->
  forall r s', direct_append (S fuel) (Some a) b s = (Ret r, s') ->
  exists a' n', r = Some a' /\ nodes s' !! a' = Some n'
                /\ order n' = order n
                /\ get_int_key (out_weights n') = get_int_key (out_weights n)
                /\ Forall2 (fun x y => x = None -> y = b) (successors n) (successors n').
Proof.
  intros Hok Hn r s' Hrun.
  cbn [direct_append] in Hrun. rewrite (bind_ret_eq _ _ _ _ _ (get_node_eq _ _ _ Hn)) in Hrun.
  unfold bind at 1 in Hrun.
  assert (hoare table_ok (mapM_ (fun y => direct_append fuel y b) (successors n))
                (fun ys s1 => table_ok s1
                              /\ Forall2 (fun x y => x = None -> y = b) (successors n) ys)
                (fun _ _ => True)) as Hloop.
  { apply hoare_mapM_. intros x _ s1 Hok1.
    pose proof (keeps_state table_ok (direct_append fuel x b) s1
                  (direct_append_keeps table_ok
                     ltac:(intros; by apply table_ok_get_unique_node) fuel x b) Hok1) as Hk.
    destruct (direct_append fuel x b s1) as [[y|e] s2] eqn:E; [|done].
    split; [done|]. intros ->. destruct fuel; cbn in E; [discriminate|]. by injection E. }
  specialize (Hloop s Hok).
  destruct (mapM_ _ _ s) as [[ys|e] s1]; [|discriminate].
  destruct Hloop as [Hok1 Hys].
  destruct (get_unique_node_full s1 (order n) (out_weights n) ys Hok1)
    as (r' & n' & s2 & Heq & _ & _ & Hn' & _ & Ho & Hsn' & Hw).
  unfold bind in Hrun. rewrite Heq in Hrun. cbn in Hrun. injection Hrun as <- <-.
  exists r', n'. rewrite Hsn'. done.
Qed.

(** X13: appending the terminal, without tensoring the batches, to a
    diagram whose nodes are all entries of the table returns the very
    same root and changes nothing. *)
Theorem append_terminal_identity fuel s a psa depth psb :
  interned fuel s a = true ->
  append fuel a psa depth None psb false s = (Ret a, s).
Proof.
  intros Hint. unfold append. cbn [negb].
  assert (duplicate fuel None psb depth [] [] s = (Ret None, s)) as Hd.
  { destruct fuel; [discriminate|done]. }
  rewrite (bind_ret_eq _ _ _ _ _ Hd). clear Hd.
  revert a Hint. induction fuel as [|fuel IH]; intros a Hint; [discriminate|].
  destruct a as [x|]; [|done].
  destruct (interned_node _ _ _ Hint) as (n & Hn & Hkey & Hsuccs).
  cbn [direct_append]. rewrite (bind_ret_eq _ _ _ _ _ (get_node_eq _ _ _ Hn)).
  erewrite bind_ret_eq; cycle 1.
  { apply (mapM__pure _ (fun y => y)). eapply Forall_impl; [exact Hsuccs|].
    cbn. intros y Hy. by apply IH. }
  rewrite list_fmap_id. erewrite bind_ret_eq; [done|].
  by apply get_unique_node_found.
Qed.

(** X14: when the batch shape given to [duplicate] does not account for
    the number of elements of the root's weights, the call raises
    [RuntimeError] before anything is created: the state is unchanged. *)
Theorem duplicate_size_mismatch fuel s a n ps o ahead behind :
  nodes s !! a = Some n ->
  (index_range n * numel ps * 2)%nat <> numel (shape (out_weights n)) ->
  duplicate (S fuel) (Some a) ps o ahead behind s = (Raise RuntimeError, s).
Proof.
  intros Hn Hne. cbn [duplicate]. rewrite (bind_ret_eq _ _ _ _ _ (get_node_eq _ _ _ Hn)).
  unfold bind at 1, lift at 1, tensor_view. rewrite decide_False; [done|].
  rewrite !numel_app, !numel_replicate_1. cbn. lia.
Qed.

Lemma table_ok_create_all calls s : table_ok s -> table_ok (create_all calls s).2.
Proof.
  intros Hok. apply keeps_state; [|done]. unfold create_all.
  apply keeps_mapM_. intros c. apply keeps_get_unique_node.
  intros. by apply table_ok_get_unique_node.
Qed.

End Canonical.

Lemma table_ok_st_two_levels : table_ok st_two_levels.
Proof. apply table_ok_create_all, table_ok_initial. Qed.

(** The theorem of X10 on the root of the diagram of two levels. *)
Lemma duplicate_root_canonical_witness :
  match duplicate 3 (Some 1%nat) [3%nat] 2 [] [5%nat] st_two_levels with
  | (Ret r, s') =>
      exists a' n', r = Some a' /\ nodes s' !! a' = Some n'
                    /\ order n' = 0 + 2
                    /\ index_range n' = 1%nat
                    /\ interned 3 s' r = true
                    /\ table_ok s'
                    /\ nodes s' !! 1%nat
                       = Some (mkNode 2 0 (mkTensor 1 [1; 3; 2]%nat [1; 0; 1; 0; 1; 0]%Q)
                                      [Some 0%nat])
  | (Fail e, _) => e = Raised RuntimeError
  end.
Proof.
  assert (nodes st_two_levels !! 1%nat
          = Some (mkNode 2 0 (mkTensor 1 [1; 3; 2]%nat [1; 0; 1; 0; 1; 0]%Q) [Some 0%nat]))
    as Hn by (vm_compute; reflexivity).
  assert (interned 3 st_two_levels (Some 1%nat) = true) as Hint by (vm_compute; reflexivity).
  exact (duplicate_root_canonical 2 st_two_levels 1%nat _ [3%nat] 2 [] [5%nat]
           table_ok_st_two_levels Hint Hn).
Defined.

(** The theorem of X11 on the two diagrams of [st_two_levels]. *)
Lemma append_canonical_witness :
  match append 3 (Some 1%nat) [3%nat] 2 (Some 2%nat) [5%nat] true st_two_levels with
  | (Ret r, s') => table_ok s' /\ interned (3 + 3) s' r = true
                   /\ extends st_two_levels s' /\ table_kept st_two_levels s'
  | (Fail e, _) => e = Raised RuntimeError
  end.
Proof.
  apply (append_canonical 3 st_two_levels (Some 1%nat) [3%nat] 2 (Some 2%nat) [5%nat] true
           table_ok_st_two_levels).
  - vm_compute. reflexivity.
  - vm_compute. reflexivity.
Defined.

(** The theorem of X12 on grafting the diagram of one level below the
    child of the diagram of two levels. *)
Lemma direct_append_grafts_witness :
  exists r s',
    direct_append 3 (Some 0%nat) (Some 2%nat) st_two_levels = (Ret r, s')
    /\ exists a' n', r = Some a' /\ nodes s' !! a' = Some n'
                     /\ order n' = 1
                     /\ get_int_key (out_weights n') = get_int_key w_batch3
                     /\ Forall2 (fun x y : option nat => x = None -> y = Some 2%nat)
                                [None] (successors n').
Proof.
  destruct (direct_append 3 (Some 0%nat) (Some 2%nat) st_two_levels)
    as [[r|e] s'] eqn:E; [|by vm_compute in E].
  exists r, s'. split; [done|].
  assert (nodes st_two_levels !! 0%nat
          = Some (mkNode 1 1 (mkTensor 0 [1; 3; 2]%nat [1; 0; 1; 0; 1; 0]%Q) [None])) as Hn
      by (vm_compute; reflexivity).
  apply (direct_append_grafts 2 st_two_levels 0%nat _ (Some 2%nat)
           table_ok_st_two_levels Hn r s' E).
Defined.

(** The theorem of X13 on the root of the diagram of two levels. *)
Lemma append_terminal_identity_witness :
  append 3 (Some 1%nat) [3%nat] 2 None [] false st_two_levels
  = (Ret (Some 1%nat), st_two_levels).
Proof.
  apply (append_terminal_identity 3 st_two_levels (Some 1%nat) [3%nat] 2 []).
  vm_compute. reflexivity.
Defined.

(** The theorem of X14: the batch shape [[4]] for weights of the batch
    shape [[3]]. *)
Lemma duplicate_size_mismatch_witness :
  duplicate 3 (Some 1%nat) [4%nat] 0 [] [] st_two_levels
  = (Raise RuntimeError, st_two_levels).
Proof.
  apply (duplicate_size_mismatch 2 st_two_levels 1%nat
           (mkNode 2 0 (mkTensor 1 [1; 3; 2]%nat [1; 0; 1; 0; 1; 0]%Q) [Some 0%nat])
           [4%nat] 0 [] []).
  - vm_compute. reflexivity.
  - vm_compute. lia.
Defined.

(** ** Layout: what is drawn *)

Lemma tensor_getitem_fail {R} (t : Tensor R) k f :
  tensor_getitem t k = Fail f -> f = Raised IndexError.
Proof. unfold tensor_getitem. repeat case_match; congruence. Qed.

Lemma tensor_item_fail {R} (t : Tensor R) f :
  tensor_item t = Fail f -> f = Raised RuntimeError.
Proof. unfold tensor_item. repeat case_match; congruence. Qed.

Section LayoutMore.
Context {R : Type} `{!FloatOps R}.
Implicit Types (s : State R) (l : LState R).

Lemma edge_label_fail (n : Node R) k ps full f :
  edge_label n k ps full = Fail f -> f = Raised IndexError \/ f = Raised RuntimeError.
Proof.
  unfold edge_label. intros H.
  repeat match type of H with
         | context [tensor_getitem ?t ?i] =>
             let E := fresh "E" in
             destruct (tensor_getitem t i) eqn:E;
             [|apply tensor_getitem_fail in E; left; congruence]
         | context [tensor_item ?t] =>
             let E := fresh "E" in
             destruct (tensor_item t) eqn:E;
             [|apply tensor_item_fail in E; right; congruence]
         | context [decide ?P] => destruct (decide P)
         | context [if ?b then _ else _] => destruct b
         end; discriminate.
Qed.

(** The statements and visited references that a run adds. *)
Local Abbreviation appended l0 l :=
  (exists b v, dot l = dot l0 ++ b /\ succ l = succ l0 ++ v).

Lemma appended_refl l : appended l l.
Proof. exists [], []. by rewrite !app_nil_r. Qed.

Lemma appended_dot l0 l x :
  appended l0 l -> appended l0 (mkLState (dot l ++ [x]) (succ l)).
Proof. intros (b & v & Hb & Hv). exists (b ++ [x]), v. cbn. by rewrite Hb, Hv, app_assoc. Qed.

Lemma appended_succ l0 l r :
  appended l0 l -> appended l0 (mkLState (dot l) (succ l ++ [r])).
Proof. intros (b & v & Hb & Hv). exists b, (v ++ [r]). cbn. by rewrite Hb, Hv, app_assoc. Qed.

Lemma layout_appends l0 fuel :
  forall s node ps io real full,
    hoare (fun l => appended l0 l) (layout fuel s node ps io real full)
          (fun _ l => appended l0 l /\ True) (fun _ l => appended l0 l).
Proof.
  induction fuel as [|fuel IH]; intros s node ps io real full; [by apply hoare_fail|].
  cbn [layout].
  eapply (hoare_bind _ _ _ (fun _ l => appended l0 l)).
  { destruct node as [a|]; [|by apply hoare_ret].
    eapply (hoare_bind _ _ _ (fun _ l => appended l0 l)).
    { apply hoare_lift. intros l Hl. by destruct (nodes s !! a). }
    intros n. eapply (hoare_bind _ _ _ (fun _ l => appended l0 l)).
    { apply hoare_lift. intros l Hl. by destruct (py_getitem _ _). }
    intros i. by apply hoare_ret. }
  intros names.
  eapply (hoare_bind _ _ _ (fun _ l => appended l0 l)).
  { destruct real; intros l Hl; cbn; by apply appended_dot. }
  intros _. destruct node as [a|]; [|by apply hoare_ret].
  eapply (hoare_bind _ _ _ (fun _ l => appended l0 l)).
  { apply hoare_lift. intros l Hl. by destruct (nodes s !! a). }
  intros n.
  eapply (hoare_bind _ _ _ (fun _ l => appended l0 l)); [|intros; by apply hoare_ret].
  eapply hoare_post; [apply (hoare_mapM_ _ _ _ (fun _ _ => True))|by intros ? ? []].
  intros k _.
  eapply (hoare_bind _ _ _ (fun _ l => appended l0 l)).
  { apply hoare_lift. intros l Hl. by destruct (edge_label _ _ _ _). }
  intros label1. eapply (hoare_bind _ _ _ (fun _ l => appended l0 l)).
  { apply hoare_lift. intros l Hl. by destruct (py_getitem _ _). }
  intros temp. eapply (hoare_bind _ _ _ (fun _ l => appended l0 l)).
  { destruct temp as [b|]; [|by apply hoare_ret].
    eapply (hoare_bind _ _ _ (fun _ l => appended l0 l)).
    { apply hoare_lift. intros l Hl. by destruct (nodes s !! b). }
    intros m. by apply hoare_ret. }
  intros id_str. eapply (hoare_bind _ _ _ (fun _ l => appended l0 l)).
  { apply hoare_lift. intros l Hl. by destruct (py_getitem _ _). }
  intros c. eapply (hoare_bind _ _ _ (fun _ l => appended l0 l)).
  { intros l Hl. exact Hl. }
  intros l1. destruct (negb _).
  - eapply (hoare_bind _ _ _ (fun _ l => appended l0 l)).
    { eapply hoare_post; [apply IH|by intros ? ? []]. }
    intros _. eapply (hoare_bind _ _ _ (fun _ l => appended l0 l)).
    { intros l Hl. cbn. by apply appended_dot. }
    intros _. intros l Hl. cbn. split; [by apply appended_succ|done].
  - intros l Hl. cbn. split; [by apply appended_dot|done].
Qed.

(** X15: [layout], returning or raising, only adds to the graph and to
    the visited list it is given: the statements and references already
    there stay, in place and in order. *)
Theorem layout_only_appends fuel s node ps io real full l :
  exists b v,
    dot (layout fuel s node ps io real full l).2 = dot l ++ b
    /\ succ (layout fuel s node ps io real full l).2 = succ l ++ v.
Proof.
  pose proof (layout_appends l fuel s node ps io real full l (appended_refl l)) as H.
  destruct (layout fuel s node ps io real full l) as [[u|e] l']; [by destruct H|done].
Qed.

Lemma layout_failures_hoare fuel :
  forall s node ps io real full,
    interned fuel s node = true ->
    hoare (fun _ : LState R => True) (layout fuel s node ps io real full)
          (fun _ _ => True /\ True)
          (fun e _ => e = Raised IndexError \/ e = Raised RuntimeError).
Proof.
  induction fuel as [|fuel IH]; intros s node ps io real full Hint; [discriminate|].
  cbn [layout].
  eapply (hoare_bind _ _ _ (fun _ _ => True)).
  { destruct node as [a|]; [|by apply hoare_ret].
    destruct (interned_node _ _ _ Hint) as (n & Hn & _).
    unfold node_at. rewrite Hn.
    eapply (hoare_bind _ _ _ (fun _ _ => True)); [by apply hoare_lift|].
    intros n1. eapply (hoare_bind _ _ _ (fun _ _ => True)); [|intros; by apply hoare_ret].
    apply hoare_lift. intros l _. destruct (py_getitem _ _) eqn:E; [done|].
    left. by apply py_getitem_fail in E. }
  intros names.
  eapply (hoare_bind _ _ _ (fun _ _ => True)); [by destruct real|].
  intros _. destruct node as [a|]; [|by apply hoare_ret].
  destruct (interned_node _ _ _ Hint) as (n & Hn & _ & Hsuccs).
  unfold node_at at 1. rewrite Hn.
  eapply (hoare_bind _ _ _ (fun n2 _ => True /\ n2 = n)); [by apply hoare_lift|].
  intros n1. apply hoare_pre_pure. intros ->.
  eapply (hoare_bind _ _ _ (fun _ _ => True)); [|intros; by apply hoare_ret].
  eapply hoare_post; [apply (hoare_mapM_ _ _ _ (fun _ _ => True))|by intros ? ? []].
  intros k _.
  eapply (hoare_bind _ _ _ (fun _ _ => True)).
  { apply hoare_lift. intros l _. destruct (edge_label _ _ _ _) eqn:E; [done|].
    by apply edge_label_fail in E. }
  intros label1.
  eapply (hoare_bind _ _ _ (fun t _ => True /\ t ∈ successors n)).
  { apply hoare_lift. intros l _. destruct (py_getitem _ _) eqn:E.
    - split; [done|]. by apply py_getitem_elem in E.
    - left. by apply py_getitem_fail in E. }
  intros temp. apply hoare_pre_pure. intros Htemp.
  rewrite Forall_forall in Hsuccs. specialize (Hsuccs temp Htemp).
  eapply (hoare_bind _ _ _ (fun _ _ => True)).
  { destruct temp as [b|]; [|by apply hoare_ret].
    destruct fuel; [discriminate|].
    destruct (interned_node _ _ _ Hsuccs) as (m & Hm & _).
    unfold node_at. rewrite Hm.
    eapply (hoare_bind _ _ _ (fun _ _ => True)); [by apply hoare_lift|].
    intros; by apply hoare_ret. }
  intros id_str.
  eapply (hoare_bind _ _ _ (fun _ _ => True)).
  { apply hoare_lift. intros l _. destruct (py_getitem _ _) eqn:E; [done|].
    left. by apply py_getitem_fail in E. }
  intros c. eapply (hoare_bind _ _ _ (fun _ _ => True)); [by intros l _|].
  intros l1. destruct (negb _).
  - eapply (hoare_bind _ _ _ (fun _ _ => True)).
    { eapply hoare_post; [by apply IH|done]. }
    intros _. eapply (hoare_bind _ _ _ (fun _ _ => True)); [by intros l _|].
    intros _. by intros l _.
  - by intros l _.
Qed.

(** X16: on a diagram whose nodes are all entries of the unique table,
    [layout] never follows a reference to no object and never exceeds
    the recursion bound that admits the diagram: it returns, or raises
    [IndexError] or [RuntimeError] (an index order too short for an
    order, or weights of an unexpected shape). *)
Theorem layout_failures fuel s node ps io real full l :
  interned fuel s node = true ->
  match layout fuel s node ps io real full l with
  | (Ret _, _) => True
  | (Fail e, _) => e = Raised IndexError \/ e = Raised RuntimeError
  end.
Proof.
  intros Hint.
  pose proof (layout_failures_hoare fuel s node ps io real full Hint l I) as H.
  destruct (layout fuel s node ps io real full l) as [[u|e] l']; done.
Qed.

(** X17: when all successors of a node are already in the visited
    list, a run of [layout] on the node that returns adds one vertex (the
    node is drawn again, whether or not it was drawn before), one edge
    out of the node for each branch, and nothing to the visited list. *)
Theorem layout_visited_successors fuel s a n ps io real full l l' :
  nodes s !! a = Some n ->
  Forall (fun r => r ∈ succ l) (successors n) ->
  layout (S fuel) s (Some a) ps io real full l = (Ret tt, l') ->
  succ l' = succ l
  /\ exists v es,
      dot l' = dot l ++ v :: es
      /\ is_vertex v = true
      /\ length es = index_range n
      /\ Forall (fun e => exists head c lab,
                             e = Edge (py_str_int (node_id n)) head c lab) es.
Proof.
  intros Hn Hvis Hrun. cbn [layout] in Hrun.
  apply bind_ret_inv in Hrun as (names & l1 & Hnames & Hrun).
  assert (l1 = l) as ->.
  { unfold node_at in Hnames. rewrite Hn in Hnames.
    apply bind_ret_inv in Hnames as (n1 & l2 & H1 & Hnames).
    apply lift_ret_inv in H1 as [_ ->].
    apply bind_ret_inv in Hnames as (i & l3 & H2 & Hnames).
    apply lift_ret_inv in H2 as [_ ->]. by injection Hnames. }
  apply bind_ret_inv in Hrun as (u & l1 & Hv & Hrun).
  assert (exists v, is_vertex v = true /\ l1 = mkLState (dot l ++ [v]) (succ l))
    as (v & Hisv & ->).
  { destruct real; injection Hv as _ <-; eexists; split; try reflexivity; done. }
  unfold node_at at 1 in Hrun. rewrite Hn in Hrun.
  apply bind_ret_inv in Hrun as (n1 & l2 & H1 & Hrun).
  apply lift_ret_inv in H1 as [[= <-] ->].
  apply bind_ret_inv in Hrun as (ys & l2 & Hloop & Hret).
  injection Hret as <-.
  assert (forall ks (la lb : LState R) ys,
             succ la = succ l ->
             mapM_ (fun k : nat =>
                      label1 <~ lift (edge_label n k ps full) ;;
                      temp <~ lift (py_getitem (successors n) (Z.of_nat k)) ;;
                      id_str <~ match temp with
                                | None => ret (py_str_int TERMINAL_ID)
                                | Some b => m <~ node_at s b ;; ret (py_str_int (node_id m))
                                end ;;
                      c <~ lift (py_getitem col (Z.of_nat k mod 4)) ;;
                      l <~ get_state ;;
                      if negb (bool_decide (temp ∈ succ l)) then
                        layout fuel s temp ps io real full ;;;
                        dot_edge (py_str_int (node_id n)) id_str c label1 ;;;
                        succ_append temp
                      else
                        dot_edge (py_str_int (node_id n)) id_str c label1)
                   ks la = (Ret ys, lb) ->
             succ lb = succ l
             /\ exists es, dot lb = dot la ++ es /\ length es = length ks
                           /\ Forall (fun e => exists head c lab,
                                          e = Edge (py_str_int (node_id n)) head c lab) es)
    as Hgen.
  { clear Hloop. induction ks as [|k ks IH]; intros la lb ys0 Hla Hks.
    - injection Hks as _ <-. split; [done|]. exists []. by rewrite app_nil_r.
    - cbn [mapM_] in Hks.
      apply bind_ret_inv in Hks as (y & lc & Hbody & Hks).
      apply bind_ret_inv in Hks as (ys1 & ld & Hrest & Hks). injection Hks as _ <-.
      apply bind_ret_inv in Hbody as (label1 & l3 & H1 & Hbody).
      apply lift_ret_inv in H1 as [_ ->].
      apply bind_ret_inv in Hbody as (temp & l3 & H2 & Hbody).
      apply lift_ret_inv in H2 as [Htemp ->]. apply py_getitem_elem in Htemp.
      apply bind_ret_inv in Hbody as (id_str & l3 & H3 & Hbody).
      assert (l3 = la) as ->.
      { destruct temp as [b|]; [|by injection H3].
        apply bind_ret_inv in H3 as (m & l4 & H3 & H4).
        unfold node_at in H3. apply lift_ret_inv in H3 as [_ ->]. by injection H4. }
      apply bind_ret_inv in Hbody as (c & l3 & H4 & Hbody).
      apply lift_ret_inv in H4 as [_ ->].
      apply bind_ret_inv in Hbody as (l4 & l3 & H5 & Hbody).
      injection H5 as <- <-.
      rewrite Forall_forall in Hvis. specialize (Hvis temp Htemp).
      rewrite bool_decide_eq_true_2 in Hbody by (by rewrite Hla).
      cbn [negb] in Hbody. injection Hbody as _ <-.
      apply IH in Hrest as (Hs & es & Hd & Hl & Hall); [|exact Hla].
      split; [done|]. eexists (_ :: es). cbn in Hd. rewrite Hd, <- app_assoc. cbn.
      split; [done|]. split; [by rewrite Hl|].
      constructor; [eauto|done]. }
  apply Hgen in Hloop as (Hs & es & Hd & Hl & Hall); [|reflexivity].
  split; [done|]. exists v, es. cbn in Hd. rewrite Hd, <- app_assoc. cbn.
  split; [done|]. split; [done|]. split; [|done].
  rewrite Hl, length_seq. done.
Qed.

End LayoutMore.

(** The theorem of X16 on the node of [st_one_node]. *)
Lemma layout_failures_witness :
  match layout 2 st_one_node (Some 0%nat) [] [] true false (mkLState [] []) with
  | (Ret _, _) => True
  | (Fail e, _) => e = Raised IndexError \/ e = Raised RuntimeError
  end.
Proof.
  apply (layout_failures 2 st_one_node (Some 0%nat) [] [] true false (mkLState [] [])).
  vm_compute. reflexivity.
Defined.

(** The theorem of X17 on the node of [st_one_node], with the terminal
    already visited. *)
Lemma layout_visited_successors_witness :
  exists l',
    layout 1 st_one_node (Some 0%nat) [] [0] true false (mkLState [] [None]) = (Ret tt, l')
    /\ succ l' = [None]
    /\ exists v es,
        dot l' = [] ++ v :: es
        /\ is_vertex v = true
        /\ length es = 2%nat
        /\ Forall (fun e => exists head c lab, e = Edge "1" head c lab) es.
Proof.
  destruct (layout 1 st_one_node (Some 0%nat) [] [0] true false (mkLState [] [None]))
    as [[[]|e] l'] eqn:E; [|by vm_compute in E].
  exists l'. split; [done|].
  assert (nodes st_one_node !! 0%nat = Some (mkNode 1 0 w_1_i [None; None])) as Hn
      by (vm_compute; reflexivity).
  apply (layout_visited_successors 0 st_one_node 0%nat _ [] [0] true false
           (mkLState [] [None]) l' Hn); [|exact E].
  repeat constructor.
Defined.

(** ** Import and export: shape and index order *)

Lemma py_range_length n : length (py_range n) = n.
Proof. unfold py_range. by rewrite length_fmap, length_seq. Qed.

Lemma py_range_app b n :
  py_range (b + n) = py_range b ++ ((fun o => o + Z.of_nat b) <$> py_range n).
Proof.
  unfold py_range. rewrite seq_app, fmap_app. f_equal.
  rewrite <- list_fmap_compose. cbn [Nat.add].
  apply list_eq. intros i. rewrite !list_lookup_fmap.
  destruct (decide (i < n)%nat) as [Hi|Hi].
  - rewrite !lookup_seq_lt by done. cbn. f_equal. lia.
  - rewrite !lookup_seq_ge by lia. done.
Qed.

Section Metadata.
Context {R : Type} `{!FloatOps R} `{!NormPolicy R}.
Implicit Types (s : State R) (t : TDD R).

Lemma as_tensor_bare_eq s arr :
  as_tensor (Bare arr) s
  = as_tensor (Triple arr [] (length (lists s)))
              (mkState (nodes s) (unique_table s) (global_node_id s) (lists s ++ [[]])
                       (next_storage s)).
Proof. reflexivity. Qed.

(** X18: the import of a bare tensor (no tuple) never raises the
    exception about the index order; when it returns, every axis but the
    last is a data axis, and the index order of the result is the
    identity order [0 .. n-1] in a list object of its own. *)
Theorem as_tensor_bare s arr :
  match as_tensor (Bare arr) s with
  | (Ret res, s') =>
      data_shape res = py_slice_to_last 0 (array_shape arr)
      /\ lists s' !! index_order res = Some (py_range (length (data_shape res)))
      /\ (length (lists s) < index_order res)%nat
  | (Fail f, _) => f <> Raised InvalidInput
  end.
Proof.
  rewrite as_tensor_bare_eq.
  set (s1 := mkState _ _ _ _ _).
  destruct (as_tensor_unfold s1 arr [] (length (lists s)))
    as (tn & sa & Hext & Hl & Hn & Hsh & _ & Heq).
  rewrite Heq. clear Heq.
  assert (lists s1 !! length (lists s) = Some []) as Hio.
  { subst s1. cbn. by rewrite lookup_app_r, Nat.sub_diag. }
  rewrite Hio. cbv zeta. rewrite (decide_True (P := @nil Z = [])) by done.
  rewrite py_range_length.
  rewrite (decide_False (P := data_axes arr [] <> data_axes arr [])) by (intros ?; done).
  unfold data_axes. cbn [length].
  set (sb := mkState _ _ _ _ _).
  pose proof (as_tensor_iterate_frame sb
                (S (length (py_slice_to_last 0 (array_shape arr)))) tn []
                (length (lists sa)) 0%nat ltac:(lia) sb (extends_refl sb)) as Hframe.
  destruct (as_tensor_iterate _ _ _ _ _ _) as [[r|f] s2].
  - cbn. split; [done|]. destruct Hframe as (Hsb & _). split.
    + apply (extends_lists sb); [done|]. subst sb. cbn.
      by rewrite lookup_app_r, Nat.sub_diag.
    + rewrite Hl. subst s1. cbn. rewrite length_app. cbn. lia.
  - by destruct Hframe as (_ & ? & _).
Qed.

(** X19: the TDD that [as_tensor] returns, for a bare tensor or a
    tuple, has an index order with exactly one entry per entry of its
    data shape. *)
Theorem as_tensor_result_index_order s data res s' :
  as_tensor data s = (Ret res, s') ->
  exists io, lists s' !! index_order res = Some io
             /\ length io = length (data_shape res).
Proof.
  assert (forall s arr ps ioa res s',
             as_tensor (Triple arr ps ioa) s = (Ret res, s') ->
             exists io, lists s' !! index_order res = Some io
                        /\ length io = length (data_shape res)) as Htriple.
  { clear. intros s arr ps ioa res s' Hrun.
    destruct (as_tensor_unfold s arr ps ioa)
      as (tn & sa & Hext & Hl & Hn & Hsh & _ & Heq).
    rewrite Heq in Hrun. clear Heq.
    destruct (lists s !! ioa) as [io|]; [|discriminate].
    cbv zeta in Hrun.
    set (order := if decide (io = []) then py_range (data_axes arr ps) else io) in *.
    set (sb := mkState _ _ _ _ _) in *.
    destruct (decide (data_axes arr ps <> length order)) as [Hmis|Hok]; [discriminate|].
    pose proof (as_tensor_iterate_frame sb (S (data_axes arr ps)) tn ps
                  (length (lists sa)) 0%nat ltac:(lia) sb (extends_refl sb)) as Hframe.
    destruct (as_tensor_iterate _ _ _ _ _ _) as [[r|f] s1]; [|discriminate].
    injection Hrun as <- <-. destruct Hframe as (Hsb & _).
    exists order. cbn. split.
    - apply (extends_lists sb); [done|]. subst sb. cbn.
      by rewrite lookup_app_r, Nat.sub_diag.
    - unfold data_axes in Hok. destruct (decide (length order
          = length (py_slice_to_last (length ps) (array_shape arr)))); [done|].
      destruct Hok. congruence. }
  intros Hrun. destruct data as [arr|arr ps ioa]; [|by eapply Htriple].
  rewrite as_tensor_bare_eq in Hrun. by eapply Htriple.
Qed.

(** X20: the import of a torch tensor without data axes, with the empty
    index order, returns the terminal TDD: no node, an empty data shape,
    the elements and the shape of the tensor as weights in a storage of
    their own, and an empty index order; no node is created and the
    unique table and the id counter are untouched. *)
Theorem as_tensor_no_data_axes s (t : Tensor R) ps ioa :
  py_slice_to_last (length ps) (shape t) = [] ->
  lists s !! ioa = Some [] ->
  exists res s',
    as_tensor (Triple (TorchTensor t) ps ioa) s = (Ret res, s')
    /\ node res = None /\ data_shape res = []
    /\ shape (weights res) = shape t /\ data (weights res) = data t
    /\ storage (weights res) = next_storage s
    /\ lists s' !! index_order res = Some []
    /\ nodes s' = nodes s /\ unique_table s' = unique_table s
    /\ global_node_id s' = global_node_id s.
Proof.
  intros Hsl Hio.
  assert (forall (l : list (list Z)) x, (l ++ [x]) !! length l = Some x) as Hlast.
  { intros l x. by rewrite lookup_app_r, Nat.sub_diag. }
  unfold as_tensor, bind, ret. cbn [fst snd]. rewrite Hsl.
  unfold read_list at 1. rewrite Hio. rewrite decide_True by done.
  unfold alloc_list at 1. unfold read_list at 1. cbn [lists]. rewrite Hlast.
  cbn [length]. change (py_range 0) with (@nil Z).
  rewrite decide_False by (intros ?; done).
  cbn [as_tensor_iterate]. unfold bind, ret. rewrite Hsl.
  unfold read_list at 1. cbn [lists]. rewrite Hlast.
  rewrite decide_True by done. cbn [length]. change (py_range 0) with (@nil Z).
  unfold alloc_list at 1. rewrite !decide_True by done.
  unfold tensor_clone, alloc_list. cbn.
  do 2 eexists. split; [reflexivity|]. cbn.
  repeat split; try done.
  rewrite lookup_app_l; [|rewrite !length_app; cbn; lia].
  rewrite lookup_app_l; [|rewrite !length_app; cbn; lia].
  apply Hlast.
Qed.

End Metadata.

(** The theorem of X19 on the import of the identity matrix with the
    index order [[0; 1]]. *)
Lemma as_tensor_result_index_order_witness :
  exists res s' io,
    as_tensor (Triple (TorchTensor identity_2x2) [] 1%nat) st_import = (Ret res, s')
    /\ lists s' !! index_order res = Some io
    /\ length io = length (data_shape res).
Proof.
  destruct (as_tensor (Triple (TorchTensor identity_2x2) [] 1%nat) st_import)
    as [[res|f] s'] eqn:E; [|by vm_compute in E].
  destruct (as_tensor_result_index_order st_import _ res s' E) as (io & Hio & Hlen).
  exists res, s', io. split; [reflexivity|]. split; [exact Hio|exact Hlen].
Defined.

(** The theorem of X20 on the number [1+0j], with the empty list at
    address 0 of [st_import] as index order. *)
Lemma as_tensor_no_data_axes_witness :
  exists res s',
    as_tensor (Triple (TorchTensor scalar_1) [] 0%nat) st_import = (Ret res, s')
    /\ node res = None /\ data_shape res = []
    /\ shape (weights res) = [2%nat] /\ data (weights res) = [1; 0]%Q
    /\ storage (weights res) = 1%nat
    /\ lists s' !! index_order res = Some []
    /\ nodes s' = [] /\ unique_table s' = ∅
    /\ global_node_id s' = 0.
Proof.
  apply (as_tensor_no_data_axes st_import scalar_1 [] 0%nat); reflexivity.
Defined.

(** ** Import: the diagram follows the index order *)

Section Layered.
Context {R : Type} `{!FloatOps R} `{!NormPolicy R}.
Implicit Types (s : State R).

Local Abbreviation grows s s' := (extends s s' /\ table_kept s s').
Local Abbreviation good s0 := (fun s : State R => table_ok s /\ grows s0 s).

Lemma layered_grows strict fuel s s' io ds :
  extends s s' ->
  forall depth node, layered strict fuel s io ds depth node = true ->
                     layered strict fuel s' io ds depth node = true.
Proof.
  intros Hext. induction fuel as [|fuel IH]; intros depth node H; [done|].
  cbn [layered] in *. destruct node as [a|]; [|done].
  destruct (nodes s !! a) as [n|] eqn:Hn; [|done].
  rewrite (extends_nodes _ _ _ _ Hext Hn).
  destruct (io !! depth) as [v|]; [|done].
  apply andb_prop in H as [H1 H2]. rewrite H1. cbn [andb].
  apply forallb_forall. rewrite forallb_forall in H2. intros r Hr. by apply IH, H2.
Qed.

Lemma layered_intro strict fuel s io ds depth a n v :
  nodes s !! a = Some n -> io !! depth = Some v -> order n = Z.of_nat depth ->
  0 <= v -> ds !! Z.to_nat v = Some (length (successors n)) ->
  Forall (fun r => layered strict fuel s io ds (depth + 1) r = true) (successors n) ->
  layered strict (S fuel) s io ds depth (Some a) = true.
Proof.
  intros Hn Hv Ho Hv0 Hm Hs. cbn [layered]. rewrite Hn, Hv.
  rewrite !bool_decide_eq_true_2 by done. cbn [andb].
  apply forallb_forall. intros r Hr. rewrite Forall_forall in Hs.
  by apply Hs, list_elem_of_In.
Qed.

Lemma good_get_unique_node s0 o w succs s :
  good s0 s -> good s0 (get_unique_node o w succs s).2.
Proof.
  intros [Hok Hgr]. split; [by apply table_ok_get_unique_node|].
  by apply frame_get_unique_node.
Qed.

Lemma good_storage s0 s :
  good s0 s -> good s0 (mkState (nodes s) (unique_table s) (global_node_id s) (lists s)
                                (S (next_storage s))).
Proof.
  intros [Hok [Hext Hk]]. split; [exact Hok|]. split; [|exact Hk].
  eapply extends_trans; [exact Hext|].
  split; [exists []; by rewrite app_nil_r|]. split; [exists []; by rewrite app_nil_r|].
  cbn. lia.
Qed.

Lemma good_list s0 s l :
  good s0 s -> good s0 (mkState (nodes s) (unique_table s) (global_node_id s)
                                (lists s ++ [l]) (next_storage s)).
Proof.
  intros [Hok [Hext Hk]]. split; [exact Hok|]. split; [|exact Hk].
  eapply extends_trans; [exact Hext|].
  split; [exists []; by rewrite app_nil_r|]. split; [by exists [l]|]. cbn. lia.
Qed.

Lemma good_refl s : table_ok s -> good s s.
Proof. intros H. split; [done|]. split; [apply extends_refl|by intros ? ?]. Qed.

Lemma run_good {A} (c : M (State R) A) s0 s a s' :
  hoare (good s0) c (fun _ s => good s0 s /\ True) (fun _ s => good s0 s) ->
  good s0 s -> c s = (Ret a, s') -> good s0 s'.
Proof. intros Hc Hs E. specialize (Hc s Hs). rewrite E in Hc. by destruct Hc. Qed.


Lemma py_slice_to_last_split {A} a (l : list A) :
  (0 < length (py_slice_to_last a l))%nat ->
  exists pre x, l = pre ++ py_slice_to_last a l ++ [x] /\ length pre = a.
Proof.
  rewrite py_slice_to_last_length. intros Hl.
  destruct (drop (length l - 1) l) as [|x [|y rest]] eqn:Hdrop.
  - apply (f_equal length) in Hdrop. rewrite length_drop in Hdrop. cbn in Hdrop. lia.
  - exists (take a l), x. split; [|rewrite length_take; lia].
    unfold py_slice_to_last. rewrite <- Hdrop, app_assoc.
    transitivity (take (length l - 1) l ++ drop (length l - 1) l);
      [by rewrite take_drop|].
    f_equal. replace (take a l) with (take a (take (length l - 1) l)).
    + by rewrite take_drop.
    + rewrite take_take. f_equal. lia.
  - apply (f_equal length) in Hdrop. rewrite length_drop in Hdrop. cbn in Hdrop. lia.
Qed.

Lemma as_tensor_iterate_layered (strict : bool) ioa io n (ds0 : list nat) :
  (strict = true -> forall sh d flag, norm_degenerate sh d flag = None) ->
  io ≡ₚ py_range n -> length ds0 = n ->
  forall fuel depth t ps ds s r s',
    table_ok s -> lists s !! ioa = Some io ->
    py_slice_to_last (length ps) (shape t) = ds -> length ds = n ->
    (forall j v, (depth <= j)%nat -> io !! j = Some v ->
                 ds !! Z.to_nat v = ds0 !! Z.to_nat v) ->
    (depth <= n)%nat ->
    as_tensor_iterate fuel t ps ioa depth s = (Ret r, s') ->
    good s s'
    /\ layered strict (S (n - depth)) s' io ds0 depth (node r) = true
    /\ interned (S (n - depth)) s' (node r) = true.
Proof.
  intros Hstrict Hperm Hds0.
  assert (length io = n) as Hlen by (by rewrite Hperm, py_range_length).
  assert (forall v, v ∈ io -> 0 <= v < Z.of_nat n) as Hrange.
  { intros v Hv. rewrite Hperm in Hv. unfold py_range in Hv.
    apply list_elem_of_fmap in Hv as (k & -> & Hk). apply elem_of_seq in Hk. lia. }
  assert (NoDup io) as Hnd.
  { rewrite Hperm. unfold py_range. apply NoDup_fmap; [apply Nat2Z.inj'|apply NoDup_seq]. }
  induction fuel as [|fuel IH]; intros depth t ps ds s r s' Hok Hio Hsl Hds Hsame Hd Hrun;
    [discriminate|].
  assert (good s s') as Hgood.
  { eapply run_good; [|by apply good_refl|exact Hrun].
    apply as_tensor_iterate_keeps;
      [apply good_get_unique_node|apply good_storage|apply good_list]. }
  split; [exact Hgood|].
  cbn [as_tensor_iterate] in Hrun. rewrite Hsl, Hds in Hrun.
  apply bind_ret_inv in Hrun as (io1 & s1 & H1 & Hrun).
  unfold read_list in H1. rewrite Hio in H1. injection H1 as <- <-.
  destruct (decide (depth = n)) as [->|Hdn].
  { apply bind_ret_inv in Hrun as (ioa' & s1 & _ & Hrun).
    apply bind_ret_inv in Hrun as (w & s2 & _ & Hrun).
    apply bind_ret_inv in Hrun as (e & s3 & _ & Hrun).
    injection Hrun as <- <-. rewrite Nat.sub_diag. cbn.
    rewrite bool_decide_eq_true_2 by done. by rewrite orb_true_r. }
  assert (io <> []) as Hne by (intros ->; cbn in Hlen; lia).
  destruct (py_slice_to_last_split (length ps) (shape t)) as (pre & x & Hsh & Hpre);
    [rewrite Hsl; lia|].
  rewrite Hsl in Hsh.
  rewrite decide_False in Hrun by done.
  apply bind_ret_inv in Hrun as (ioa' & s1 & H1 & Hrun). injection H1 as <- <-.
  apply bind_ret_inv in Hrun as (io1 & s1 & H1 & Hrun).
  unfold read_list in H1. rewrite Hio in H1. injection H1 as <- <-.
  assert (exists v, io !! depth = Some v) as [v Hv] by (apply lookup_lt_is_Some; lia).
  pose proof (Hrange v (list_elem_of_lookup_2 _ _ _ Hv)) as Hvr.
  assert (exists m, ds !! Z.to_nat v = Some m) as [m Hm] by (apply lookup_lt_is_Some; lia).
  rewrite (py_getitem_nat _ _ _ Hv) in Hrun.
  apply bind_ret_inv in Hrun as (v' & s1 & H1 & Hrun). injection H1 as <- <-.
  apply bind_ret_inv in Hrun as (split_tensor & s1 & H1 & Hrun).
  apply lift_ret_inv in H1 as [Hsplit ->].
  rewrite (py_getitem_Z ds v m ltac:(lia) Hm) in Hrun.
  apply bind_ret_inv in Hrun as (m' & s1 & H1 & Hrun). injection H1 as <- <-.
  apply bind_ret_inv in Hrun as (the_successors & s2 & Hmap & Hrun).
  apply bind_ret_inv in Hrun as (ow & s3 & Hstack & Hrun).
  apply bind_ret_inv in Hrun as (dw & s4 & Hones & Hrun).
  apply bind_ret_inv in Hrun as (nw & s5 & Hnorm & Hrun).
  apply bind_ret_inv in Hrun as (e & s6 & Halloc & Hrun).
  injection Hrun as <- <-. cbn [node].
  (* the successors *)
  pose proof (mapM__grows
                (fun k => t0 <~ lift (py_getitem split_tensor (Z.of_nat k)) ;;
                          as_tensor_iterate fuel t0 ps ioa (depth + 1))
                (fun _ s => lists s !! ioa = Some io)
                (fun _ y s =>
                   layered strict (S (n - (depth + 1))) s io ds0 (depth + 1) (node y) = true
                   /\ interned (S (n - (depth + 1))) s (node y) = true)
                (fun _ => True) (seq 0 m)) as Hloop.
  specialize (Hloop ltac:(intros k sa sb Hsa [Hext _]; by eapply extends_lists)).
  specialize (Hloop ltac:(intros k y sa sb [Hl Hi] Hgr; split;
                           [by eapply layered_grows; [apply Hgr|]|by eapply interned_grows])).
  assert (forall k sa, k ∈ seq 0 m -> table_ok sa -> lists sa !! ioa = Some io ->
            match (t0 <~ lift (py_getitem split_tensor (Z.of_nat k)) ;;
                   as_tensor_iterate fuel t0 ps ioa (depth + 1)) sa with
            | (Ret y, sb) =>
                table_ok sb /\ grows sa sb
                /\ (layered strict (S (n - (depth + 1))) sb io ds0 (depth + 1) (node y)
                    = true
                    /\ interned (S (n - (depth + 1))) sb (node y) = true)
            | (Fail _, _) => True
            end) as Hbody.
  { intros k sa Hk Hoka Hioa. apply elem_of_seq in Hk.
    rewrite <- Hds in Hsplit.
    rewrite (tensor_split1_data_axis t pre ds x v _ m Hsh ltac:(lia) eq_refl Hm ltac:(lia))
      in Hsplit.
    injection Hsplit as <-.
    erewrite bind_ret_eq; cycle 1.
    { unfold lift. erewrite py_getitem_nat; [done|].
      rewrite list_lookup_fmap, lookup_seq_lt by lia. done. }
    cbv beta. cbn [Nat.add].
    destruct (as_tensor_iterate fuel (narrow t (length pre + Z.to_nat v) k 1) ps ioa
                                (depth + 1) sa) as [[y|f] sb] eqn:E; [|done].
    destruct (IH (depth + 1)%nat (narrow t (length pre + Z.to_nat v) k 1) ps
                 (<[Z.to_nat v := 1%nat]> ds) sa y sb Hoka Hioa)
      as ([Hokb Hgrb] & Hlay & Hint); try done.
    - rewrite (narrow_shape_mid t pre ds x _ m) by (done || lia).
      rewrite <- Hpre. apply py_slice_to_last_app.
    - by rewrite length_insert.
    - intros j v2 Hj Hv2.
      assert (Z.to_nat v2 <> Z.to_nat v) as Hneq.
      { intros Heq. pose proof (Hrange v2 (list_elem_of_lookup_2 _ _ _ Hv2)) as Hv2r.
        assert (v2 = v) as -> by lia.
        pose proof (NoDup_lookup _ _ _ _ Hnd Hv Hv2). lia. }
      rewrite list_lookup_insert_ne by done. apply (Hsame j); [lia|done].
    - lia. }
  specialize (Hloop Hbody s Hok ltac:(by apply Forall_forall)).
  rewrite Hmap in Hloop. destruct Hloop as (Hok2 & Hgr2 & Hsuccs).
  pose proof (Forall2_length _ _ _ Hsuccs) as Hlsucc. rewrite length_seq in Hlsucc.
  (* the node *)
  assert (good s2 s4) as [Hok4 Hgr4].
  { eapply run_good; [| |exact Hones].
    { apply keeps_new_tensor, good_storage. }
    eapply run_good; [|by apply good_refl|exact Hstack].
    apply keeps_tensor_stack, good_storage. }
  unfold normalized in Hnorm. cbn [out_weights] in Hnorm.
  destruct (norm_degenerate (shape ow) (data ow) false) as [d|] eqn:Hdeg.
  { apply bind_ret_inv in Hnorm as (nwt & s4b & _ & Hnorm).
    injection Hnorm as <- <-. cbn [fst snd].
    destruct strict; [by rewrite Hstrict in Hdeg|]. done. }
  apply bind_ret_inv in Hnorm as (reduced & s4a & Hred & Hnorm).
  apply bind_ret_inv in Hnorm as (nwt & s4b & Hnwt & Hnorm).
  apply bind_ret_inv in Hnorm as (a & s5' & Hget & Hnorm).
  injection Hnorm as <- <-. cbn [fst snd].
  assert (good s2 s4b) as [Hok4b Hgr4b].
  { eapply run_good; [| |exact Hnwt].
    { apply keeps_new_tensor, good_storage. }
    eapply run_good; [| |exact Hred].
    { apply keeps_new_tensor, good_storage. }
    done. }
  destruct (get_unique_node_full s4b (Z.of_nat depth) reduced (node <$> the_successors) Hok4b)
    as (a' & nd & s5'' & Hget' & Hok5 & Hgr5 & Hnd5 & Htab5 & Hord & Hsucc & _).
  cbn [order successors] in Hget. rewrite Hget in Hget'. injection Hget' as <- <-.
  assert (grows s2 s5') as Hgr25 by (eapply grows_trans; [exact Hgr4b|exact Hgr5]).
  assert (grows s5' s6) as Hgr56.
  { eapply run_good; [|by apply good_refl|exact Halloc]. apply keeps_alloc_list, good_list. }
  assert (grows s2 s6) as Hgr26 by (eapply grows_trans; [exact Hgr25|exact Hgr56]).
  assert (nodes s6 !! a = Some nd /\ unique_table s6 !! unique_key nd = Some a) as [Hnd6 Htab6].
  { injection Halloc as <- <-. done. }
  apply Forall2_Forall_r_const in Hsuccs. rewrite Forall_forall in Hsuccs.
  replace (S (n - depth)) with (S (S (n - (depth + 1)))) by lia.
  split.
  - apply (layered_intro _ _ _ _ _ _ a nd v); [done|done|done|lia| |].
    + rewrite Hsucc, length_fmap, <- Hlsucc, <- Hm. symmetry. by apply (Hsame depth).
    + rewrite Hsucc. apply Forall_fmap, Forall_forall. intros y Hy.
      destruct (Hsuccs y Hy) as [Hl _]. unfold compose.
      by eapply layered_grows; [apply Hgr26|].
  - apply (interned_intro _ _ a nd); [done|done|]. rewrite Hsucc.
    apply Forall_fmap, Forall_forall. intros y Hy.
    destruct (Hsuccs y Hy) as [_ Hi]. unfold compose.
    by eapply (interned_grows _ s2); [|exact Hi].
Qed.


(** X21: on a consistent unique table, when [as_tensor] returns a TDD
    whose index order is a permutation of its data axes, every node of
    the result is the entry of the unique table under its own key, the
    table is consistent afterwards, and the diagram is layered along the
    index order: every node [d] levels below the root has the order [d]
    and as many successors as the data axis [index_order[d]] is long.  A
    result without data axes has no node.  The terminal can stand in for
    a subdiagram only where the normalization treats a node as
    degenerate: under a policy that registers every node, terminal
    references appear exactly below the last level, and a result without
    node has no data axis. *)
Theorem as_tensor_layered s data res s' io :
  table_ok s ->
  as_tensor data s = (Ret res, s') ->
  lists s' !! index_order res = Some io ->
  io ≡ₚ py_range (length (data_shape res)) ->
  table_ok s'
  /\ interned (S (length (data_shape res))) s' (node res) = true
  /\ layered false (S (length (data_shape res))) s' io (data_shape res) 0 (node res) = true
  /\ (data_shape res = [] -> node res = None)
  /\ ((forall sh d flag, norm_degenerate sh d flag = None) ->
      layered true (S (length (data_shape res))) s' io (data_shape res) 0 (node res) = true
      /\ (node res = None -> data_shape res = [])).
Proof.
  intros Hok Hrun Hio Hperm.
  unfold as_tensor in Hrun.
  apply bind_ret_inv in Hrun as (args & s1 & Hargs & Hrun).
  assert (table_ok s1) as Hok1.
  { destruct data as [arr|arr ps ioa]; cbn in Hargs; by injection Hargs as <- <-. }
  apply bind_ret_inv in Hrun as (tn & s2 & Htn & Hrun).
  assert (table_ok s2) as Hok2.
  { destruct (args.1.1); cbn in Htn; by injection Htn as <- <-. }
  apply bind_ret_inv in Hrun as (io0 & s3 & Hread & Hrun).
  assert (s3 = s2) as ->.
  { unfold read_list in Hread. destruct (lists s2 !! args.2); by injection Hread. }
  set (ds := py_slice_to_last (length args.1.2) (shape tn)) in *.
  set (content := if decide (io0 = []) then py_range (length ds) else io0).
  apply bind_ret_inv in Hrun as (rio & s4 & Halloc & Hrun).
  assert (table_ok s4 /\ lists s4 !! rio = Some content) as [Hok4 Hrio].
  { subst content. destruct (decide (io0 = [])); injection Halloc as <- <-;
      (split; [exact Hok2|]); cbn; by rewrite lookup_app_r, Nat.sub_diag. }
  apply bind_ret_inv in Hrun as (riol & s5 & Hread2 & Hrun).
  unfold read_list in Hread2. rewrite Hrio in Hread2. injection Hread2 as <- <-.
  destruct (decide (length ds <> length content)) as [|Hlen]; [discriminate|].
  apply bind_ret_inv in Hrun as (r & s6 & Hiter & Hrun). injection Hrun as <- <-.
  cbn [data_shape node index_order] in *.
  pose proof (as_tensor_iterate_keeps (good s4) (good_get_unique_node s4) (good_storage s4)
                (good_list s4) (S (length ds)) tn args.1.2 rio 0%nat) as Hkeep.
  destruct (run_good _ _ _ _ _ Hkeep (good_refl s4 Hok4) Hiter) as [Hok6 [Hext6 _]].
  rewrite (extends_lists _ _ _ _ Hext6 Hrio) in Hio. injection Hio as <-.
  assert (forall strict : bool,
             (strict = true -> forall sh d flag, norm_degenerate sh d flag = None) ->
             layered strict (S (length ds)) s6 content ds 0 (node r) = true
             /\ interned (S (length ds)) s6 (node r) = true) as Hgen.
  { intros strict Hstrict.
    destruct (as_tensor_iterate_layered strict rio content (length ds) ds Hstrict Hperm
                eq_refl (S (length ds)) 0%nat tn args.1.2 ds s4 r s6 Hok4 Hrio eq_refl
                eq_refl) as (_ & Hlay & Hint); [done|lia|exact Hiter|].
    by rewrite Nat.sub_0_r in Hlay, Hint. }
  destruct (Hgen false ltac:(discriminate)) as [Hweak Hint].
  split; [exact Hok6|]. split; [exact Hint|]. split; [exact Hweak|].
  split.
  - intros Hnil. destruct (node r) as [a|]; [|done].
    assert (content = []) as Hc.
    { apply length_zero_iff_nil. rewrite Hperm, py_range_length, Hnil. done. }
    cbn [layered] in Hweak. rewrite Hc in Hweak. cbn in Hweak.
    by destruct (nodes s6 !! a).
  - intros Hreg. destruct (Hgen true ltac:(intros _; exact Hreg)) as [Hlay _].
    split; [exact Hlay|].
    intros Hnone. cbn [layered] in Hlay. rewrite Hnone in Hlay. cbn in Hlay.
    apply bool_decide_eq_true in Hlay. by destruct ds.
Qed.

End Layered.

(** The theorem of X21 on the import of the identity matrix with the
    index order [[0; 1]], under the policy [unit_policy], which registers
    every node. *)
Lemma as_tensor_layered_witness :
  exists res s',
    as_tensor (Triple (TorchTensor identity_2x2) [] 1%nat) st_import = (Ret res, s')
    /\ table_ok s'
    /\ interned 3 s' (node res) = true
    /\ layered true 3 s' [0; 1] [2; 2]%nat 0 (node res) = true
    /\ node res <> None.
Proof.
  destruct (as_tensor (Triple (TorchTensor identity_2x2) [] 1%nat) st_import)
    as [[res|f] s'] eqn:E; [|by vm_compute in E].
  exists res, s'. split; [done|].
  assert (table_ok st_import) as Hok.
  { split; [|split]; cbn; [| |done].
    - intros k a H. by rewrite lookup_empty in H.
    - intros k1 k2 a1 a2 n1 n2 H. by rewrite lookup_empty in H. }
  assert (lists s' !! index_order res = Some [0; 1] /\ data_shape res = [2; 2]%nat)
    as [Hio Hds].
  { assert (Hrun := E). vm_compute in Hrun. injection Hrun as <- <-.
    split; vm_compute; reflexivity. }
  assert ([0; 1] ≡ₚ py_range (length (data_shape res))) as Hperm.
  { rewrite Hds. change (py_range (length [2; 2]%nat)) with [0; 1]. done. }
  destruct (as_tensor_layered st_import _ res s' [0; 1] Hok E Hio Hperm)
    as (H1 & H2 & _ & _ & H5).
  destruct (H5 (fun _ _ _ => eq_refl)) as [H6 H7].
  rewrite Hds in H2, H6, H7.
  split; [exact H1|]. split; [exact H2|]. split; [exact H6|].
  intros Hnone. by specialize (H7 Hnone).
Defined.

(** ** Export: the orders computed from the index order *)

Section ExportFacts.
Context {R : Type} `{!FloatOps R}.
Implicit Types (s : State R) (t : TDD R).

(** X22: for a TDD with [b] batch axes whose index order is a
    permutation of [0 .. n-1], [global_order] is a permutation of
    [0 .. b+n-1] that starts with [0 .. b-1] and continues with the index
    order shifted by [b]; the state is unchanged. *)
Theorem TDD_global_order_permutation s t io :
  lists s !! index_order t = Some io ->
  io ≡ₚ py_range (length io) ->
  let b := length (TDD_parallel_shape t) in
  exists g,
    TDD_global_order t s = (Ret g, s)
    /\ g ≡ₚ py_range (b + length io)
    /\ take b g = py_range b
    /\ (forall i v, io !! i = Some v -> g !! (b + i)%nat = Some (v + Z.of_nat b)).
Proof.
  intros Hio Hperm b. unfold TDD_global_order, bind, read_list. rewrite Hio. fold b.
  eexists. split; [reflexivity|]. split; [|split].
  - rewrite py_range_app. apply Permutation_app; [done|]. by apply fmap_Permutation.
  - rewrite take_app_length'; [done|]. by rewrite py_range_length.
  - intros i v Hv. rewrite lookup_app_r by (rewrite py_range_length; lia).
    rewrite py_range_length. replace (b + i - b)%nat with i by lia.
    by rewrite list_lookup_fmap, Hv.
Qed.

(** X23: for a TDD whose index order [p] is a permutation of its data
    axes, the list [trival_ordered_data_shape] that [CUDAcpl] computes has
    the length of the data shape and holds at position [p[i]] the entry
    [data_shape[i]]; the state is unchanged. *)
Theorem trival_ordered_data_shape_lookup s t io :
  lists s !! index_order t = Some io ->
  io ≡ₚ py_range (length (data_shape t)) ->
  exists sh,
    trival_ordered_data_shape t s = (Ret sh, s)
    /\ length sh = length (data_shape t)
    /\ (forall i v, io !! i = Some v -> sh !! Z.to_nat v = data_shape t !! i).
Proof.
  intros Hio Hperm. set (n := length (data_shape t)) in *.
  assert (length io = n) as Hlen by (by rewrite Hperm, py_range_length).
  destruct (order_inverse_perm_lookup io n Hperm) as (q & Hq & Hl & Hlook).
  assert (forall p x, q !! p = Some x ->
                      exists j, x = Z.of_nat j /\ io !! j = Some (Z.of_nat p)) as Hq_inv.
  { intros p x Hp. pose proof (lookup_lt_Some _ _ _ Hp) as Hlt.
    destruct (perm_range_surj io n p Hperm ltac:(lia)) as [j Hj].
    exists j. split; [|done]. specialize (Hlook j _ Hj). rewrite Nat2Z.id in Hlook.
    congruence. }
  unfold trival_ordered_data_shape.
  erewrite bind_ret_eq; [|unfold read_list; by rewrite Hio].
  erewrite bind_ret_eq; [|unfold lift; by rewrite Hq].
  rewrite (mapM__pure _ (fun x => default 0%nat (data_shape t !! Z.to_nat x))).
  2: { apply Forall_forall. intros x Hx. apply list_elem_of_lookup in Hx as (p & Hp).
       destruct (Hq_inv _ _ Hp) as (j & -> & Hj). apply lookup_lt_Some in Hj.
       destruct (lookup_lt_is_Some_2 (data_shape t) j ltac:(lia)) as [m Hm].
       unfold lift. rewrite (py_getitem_nat _ _ _ Hm). by rewrite Nat2Z.id, Hm. }
  eexists. split; [reflexivity|]. split; [by rewrite length_fmap|].
  intros i v Hv. rewrite list_lookup_fmap, (Hlook _ _ Hv). cbn. rewrite Nat2Z.id.
  pose proof (lookup_lt_Some _ _ _ Hv) as Hi.
  destruct (lookup_lt_is_Some_2 (data_shape t) i ltac:(lia)) as [m Hm]. by rewrite Hm.
Qed.

End ExportFacts.

(** The theorem of X22 on [tdd_permuted]: two batch axes and the index
    order [[2; 0; 1]]. *)
Lemma TDD_global_order_permutation_witness :
  exists g,
    TDD_global_order tdd_permuted st_permuted = (Ret g, st_permuted)
    /\ g ≡ₚ py_range (2 + 3)
    /\ take 2 g = py_range 2
    /\ (forall i v, [2; 0; 1] !! i = Some v -> g !! (2 + i)%nat = Some (v + 2)).
Proof.
  apply (TDD_global_order_permutation st_permuted tdd_permuted [2; 0; 1]).
  - reflexivity.
  - change (py_range (length [2; 0; 1])) with [0; 1; 2]. solve_Permutation.
Defined.

(** The theorem of X23 on [tdd_permuted]: the data shape [[2; 3; 4]]
    under the index order [[2; 0; 1]]. *)
Lemma trival_ordered_data_shape_lookup_witness :
  exists sh,
    trival_ordered_data_shape tdd_permuted st_permuted = (Ret sh, st_permuted)
    /\ length sh = 3%nat
    /\ (forall i v, [2; 0; 1] !! i = Some v -> sh !! Z.to_nat v = [2; 3; 4]%nat !! i).
Proof.
  apply (trival_ordered_data_shape_lookup st_permuted tdd_permuted [2; 0; 1]).
  - reflexivity.
  - change (py_range (length (data_shape tdd_permuted))) with [0; 1; 2].
    solve_Permutation.
Defined.
